(** * dccon-exporter: the server, embedded in Rocq

    The development follows the modules of the server:

    - [Utils]      : [server/src/utils.js]    (package id extraction, file
                     name sanitising, byte formatting, archive names);
    - [JobQueue]   : [server/src/jobQueue.js] (job registry, session order,
                     pending queue, the single worker, the public
                     projection);
    - [Server]     : [server/src/index.js]    (session id of a request, the
                     JSON body parser before the routes, the four routes,
                     the error middleware);
    - [Downloader] : [server/src/dcconDownloader.js] (session cookies, the
                     download pipeline and its progress reports, resizing,
                     archive entries).

    JavaScript strings are sequences of UTF-16 code units; they are modelled
    as [list N], one number per code unit, so that the character classes of
    the regular expressions of the source ([\s], [[0-9]], [[a-zA-Z]], the
    hostile file name characters) can be written out exactly. *)

From Stdlib Require Import ZArith NArith QArith Qabs Qround Qminmax.
From Stdlib Require Import List Ascii String.
From Stdlib.Strings Require Import Byte.
From Stdlib Require Import DecimalString Lia Lqa Bool.
From stdpp Require Import base option list gmap.

Local Open Scope N_scope.

(** ** JavaScript strings *)

Abbreviation jsstring := (list N).

(** Decoding of a UTF-8 byte sequence into UTF-16 code units: the string
    literals of this file are written in UTF-8, the program sees them as
    code units. *)
Fixpoint utf16_of_utf8 (bs : list N) : jsstring :=
  match bs with
  | [] => []
  | b0 :: t0 =>
    if b0 <? 128 then b0 :: utf16_of_utf8 t0
    else
      match t0 with
      | [] => [b0]
      | b1 :: t1 =>
        if b0 <? 224 then ((b0 mod 32) * 64 + b1 mod 64) :: utf16_of_utf8 t1
        else
          match t1 with
          | [] => [b0; b1]
          | b2 :: t2 =>
            if b0 <? 240
            then ((b0 mod 16) * 4096 + (b1 mod 64) * 64 + b2 mod 64)
                   :: utf16_of_utf8 t2
            else
              match t2 with
              | [] => [b0; b1; b2]
              | b3 :: t3 =>
                let cp := (b0 mod 8) * 262144 + (b1 mod 64) * 4096
                          + (b2 mod 64) * 64 + b3 mod 64 in
                let v := cp - 65536 in
                (55296 + v / 1024) :: (56320 + v mod 1024) :: utf16_of_utf8 t3
              end
          end
      end
  end.

Definition js (s : string) : jsstring :=
  utf16_of_utf8 (map N_of_ascii (list_ascii_of_string s)).

(** Truthiness of a string value that may be [null]/[undefined]. *)
Definition truthy (v : option jsstring) : bool :=
  match v with
  | Some (_ :: _) => true
  | _ => false
  end.

(** [WhiteSpace] and [LineTerminator] of ECMAScript: the set matched by [\s]
    and stripped by [String.prototype.trim]. *)
Definition isWhiteSpace (c : N) : bool :=
  ((9 <=? c) && (c <=? 13)) || (c =? 32) || (c =? 160) || (c =? 5760)
  || ((8192 <=? c) && (c <=? 8202)) || (c =? 8232) || (c =? 8233)
  || (c =? 8239) || (c =? 8287) || (c =? 12288) || (c =? 65279).

Definition isDigit (c : N) : bool := (48 <=? c) && (c <=? 57).

Definition isLetter (c : N) : bool :=
  ((97 <=? c) && (c <=? 122)) || ((65 <=? c) && (c <=? 90)).

Fixpoint trimStart (s : jsstring) : jsstring :=
  match s with
  | [] => []
  | c :: t => if isWhiteSpace c then trimStart t else s
  end.

Definition trimEnd (s : jsstring) : jsstring := rev (trimStart (rev s)).

Definition trim (s : jsstring) : jsstring := trimEnd (trimStart s).

Module Utils.

(** *** Regular expression pieces *)

(** Longest prefix of digits, and what follows it. *)
Fixpoint spanDigits (s : jsstring) : jsstring * jsstring :=
  match s with
  | c :: t =>
    if isDigit c then let '(ds, rest) := spanDigits t in (c :: ds, rest)
    else ([], s)
  | [] => ([], [])
  end.

(** Canonicalisation used by the [i] flag on a pattern made of ASCII
    letters: a code unit above 127 is never folded onto an ASCII one. *)
Definition toLowerAscii (c : N) : N :=
  if (65 <=? c) && (c <=? 90) then c + 32 else c.

(** Case-insensitive match of a literal at the start of [s]; the rest of
    [s] on success. *)
Fixpoint prefixCI (pat s : jsstring) : option jsstring :=
  match pat, s with
  | [], _ => Some s
  | p :: pat', c :: s' =>
    if toLowerAscii p =? toLowerAscii c then prefixCI pat' s' else None
  | _ :: _, [] => None
  end.

(** The alternatives of [(?:package_(?:idx|id)|idx|no)], in the order the
    backtracking matcher tries them. *)
Definition queryKeys : list jsstring :=
  [js "package_idx"; js "package_id"; js "idx"; js "no"].

(** One alternative, then [=], then [[0-9]+] (greedy, nothing follows it). *)
Definition matchKeyValue (key s : jsstring) : option jsstring :=
  match prefixCI key s with
  | Some (61 :: rest) =>
    match spanDigits rest with
    | ([], _) => None
    | (ds, _) => Some ds
    end
  | _ => None
  end.

Fixpoint firstSome {A B : Type} (f : A -> option B) (l : list A) : option B :=
  match l with
  | [] => None
  | x :: l' => match f x with Some r => Some r | None => firstSome f l' end
  end.

(** [trimmed.match(/(?:package_(?:idx|id)|idx|no)=([0-9]+)/i)], group 1 of
    the leftmost match. *)
Fixpoint queryMatch (s : jsstring) : option jsstring :=
  match firstSome (fun key => matchKeyValue key s) queryKeys with
  | Some ds => Some ds
  | None =>
    match s with
    | [] => None
    | _ :: t => queryMatch t
    end
  end.

(** [(?![a-zA-Z])] at the start of [s]. *)
Definition notBeforeLetter (s : jsstring) : bool :=
  match s with
  | c :: _ => negb (isLetter c)
  | [] => true
  end.

(** The greedy quantifier [{3,}] gives back one digit at a time: [k] counts
    the digits still held, from the longest run down to three. *)
Fixpoint backtrackRun (k : nat) (s : jsstring) : option jsstring :=
  if notBeforeLetter (drop k s) then Some (take k s)
  else
    match k with
    | O => None
    | S k' => if (3 <=? k')%nat then backtrackRun k' s else None
    end.

(** [([0-9]{3,})(?![a-zA-Z])] anchored at the start of [s]. *)
Definition matchRunAt (s : jsstring) : option jsstring :=
  let n := length (fst (spanDigits s)) in
  if (3 <=? n)%nat then backtrackRun n s else None.

(** [trimmed.match(/([0-9]{3,})(?![a-zA-Z])/)], group 1 of the leftmost
    match (the expression has no [g] flag). *)
Fixpoint numericFallback (s : jsstring) : option jsstring :=
  match matchRunAt s with
  | Some ds => Some ds
  | None =>
    match s with
    | [] => None
    | _ :: t => numericFallback t
    end
  end.

(** [/^[0-9]{3,}$/.test(s)] *)
Definition isId3 (s : jsstring) : bool :=
  forallb isDigit s && (3 <=? length s)%nat.

(** [/^[0-9]+$/.test(s)] *)
Definition isId1 (s : jsstring) : bool :=
  forallb isDigit s && (1 <=? length s)%nat.

(** [s.split('/')] *)
Fixpoint splitSlash (cur : jsstring) (s : jsstring) : list jsstring :=
  match s with
  | [] => [rev cur]
  | c :: t => if c =? 47 then rev cur :: splitSlash [] t
              else splitSlash (c :: cur) t
  end.

Definition nonEmpty (s : jsstring) : bool :=
  match s with [] => false | _ => true end.

Fixpoint startsWith (pat s : jsstring) : bool :=
  match pat, s with
  | [], _ => true
  | p :: pat', c :: s' => (p =? c) && startsWith pat' s'
  | _ :: _, [] => false
  end.

(** What the source reads from a parsed [URL] object. *)
Record URL := mkURL {
  url_hash : jsstring;
  url_searchParams : list (jsstring * jsstring);
  url_pathname : jsstring
}.

(** [asUrl.searchParams.get(key)]: the first value under [key]. *)
Fixpoint searchParams_get (key : jsstring) (ps : list (jsstring * jsstring))
  : option jsstring :=
  match ps with
  | [] => None
  | (k, v) :: ps' =>
    if decide (k = key) then Some v else searchParams_get key ps'
  end.

Definition urlKeys : list jsstring :=
  [js "package_idx"; js "package_id"; js "idx"; js "no"; js "id"].

(** [hash.replace(/^#/, '')] *)
Definition stripHash (h : jsstring) : jsstring :=
  match h with
  | 35 :: t => t
  | _ => h
  end.

Section ExtractPackageId.

(** [new URL(s)] of the platform: [None] when the constructor throws. *)
Variable parseURL : jsstring -> option URL.

(** The body of the [try] block: [None] when it falls through or when
    the constructor throws (the [catch] ignores the error). *)
Definition urlStep (trimmed : jsstring) : option jsstring :=
  match parseURL (if startsWith (js "http") trimmed then trimmed
                  else js "https://" ++ trimmed) with
  | None => None
  | Some asUrl =>
    let hash := stripHash (url_hash asUrl) in
    if nonEmpty hash && isId3 hash then Some hash
    else
      match firstSome
              (fun key =>
                 match searchParams_get key (url_searchParams asUrl) with
                 | Some value =>
                   if nonEmpty value && isId1 value then Some value
                   else None
                 | None => None
                 end) urlKeys with
      | Some value => Some value
      | None =>
        let segments :=
          rev (filter (fun s => nonEmpty s = true)
                      (splitSlash [] (url_pathname asUrl))) in
        firstSome (fun segment => if isId3 segment then Some segment
                                  else None) segments
      end
  end.

Definition extractPackageId (input : option jsstring) : option jsstring :=
  match input with
  | None | Some [] => None
  | Some raw =>
    let trimmed := trim raw in
    match trimmed with
    | [] => None
    | _ =>
      match queryMatch trimmed with
      | Some id => Some id
      | None =>
        match urlStep trimmed with
        | Some id => Some id
        | None => numericFallback trimmed
        end
      end
    end
  end.

End ExtractPackageId.

(** *** File names *)

(** [FILENAME_SANITIZE_REGEX]: backslash, slash, colon, star, question mark,
    double quote, angle brackets, bar, and the control characters 0 to 31. *)
Definition isHostile (c : N) : bool :=
  (c =? 92) || (c =? 47) || (c =? 58) || (c =? 42) || (c =? 63) || (c =? 34)
  || (c =? 60) || (c =? 62) || (c =? 124) || (c <=? 31).

(** [.replace(FILENAME_SANITIZE_REGEX, ' ')] *)
Definition replaceHostile (s : jsstring) : jsstring :=
  map (fun c => if isHostile c then 32 else c) s.

(** [.replace(/\s+/g, ' ')]: [inRun] tells that the previous code unit was
    white space, already replaced. *)
Fixpoint collapseWhitespace (inRun : bool) (s : jsstring) : jsstring :=
  match s with
  | [] => []
  | c :: t =>
    if isWhiteSpace c
    then if inRun then collapseWhitespace true t
         else 32 :: collapseWhitespace true t
    else c :: collapseWhitespace false t
  end.

Definition sanitizeFilename (name : option jsstring) (fallback : jsstring)
  : jsstring :=
  match name with
  | None | Some [] => fallback
  | Some n =>
    let cleaned := trim (collapseWhitespace false (replaceHostile n)) in
    match cleaned with
    | [] => fallback
    | _ => cleaned
    end
  end.

(** The default value of the parameter [fallback]. *)
Definition defaultFallback : jsstring := js "untitled".

Definition buildArchiveFilename (title packageId : option jsstring)
  : jsstring :=
  let safeTitle := sanitizeFilename title defaultFallback in
  let suffix := if truthy packageId
                then js "_" ++ default [] packageId else [] in
  (if nonEmpty safeTitle then safeTitle else js "dccon") ++ suffix ++ js ".zip".

(** *** Byte counts

    A byte count is an integer below 2^53; dividing such a number by 1024
    only changes the exponent of the double, so every intermediate value of
    [formatBytes] is the exact rational, modelled in [Q]. *)

(** [Number::toString] on an integer. *)
Definition showZ (z : Z) : jsstring := js (NilZero.string_of_int (Z.to_int z)).

(** [x % 1 === 0] *)
Definition isInteger (x : Q) : bool := (Z.rem (Qnum x) (Zpos (Qden x)) =? 0)%Z.

(** The printing steps of [toFixed]: the digits of [m], padded with zeros
    up to [digits + 1] of them, and a point before the last [digits]. *)
Definition printFixed (m : Z) (digits : nat) : jsstring :=
  let s := showZ m in
  let padded := replicate (S digits - length s) 48 ++ s in
  let cut := (length padded - digits)%nat in
  take cut padded
    ++ match digits with
       | O => []
       | _ => js "." ++ drop cut padded
       end.

(** [x.toFixed(digits)]: the integer [m] with [m / 10^digits] nearest to
    [x] (the larger one on a tie), printed with [digits] decimals. *)
Definition toFixed (x : Q) (digits : nat) : jsstring :=
  let ax := Qabs x in
  let m := Qfloor (ax * inject_Z (10 ^ Z.of_nat digits) + (1 # 2))%Q in
  (if (Qnum x <? 0)%Z then js "-" else []) ++ printFixed m digits.

Definition units : list jsstring := [js "B"; js "KB"; js "MB"; js "GB"].

(** The [while] loop; [remaining] is [units.length - 1 - unitIndex], so the
    test [unitIndex < units.length - 1] is [remaining > 0]. *)
Fixpoint scale (remaining : nat) (size : Q) (unitIndex : nat) : Q * nat :=
  match remaining with
  | O => (size, unitIndex)
  | S r =>
    if Qle_bool 1024 size then scale r (size / 1024)%Q (S unitIndex)
    else (size, unitIndex)
  end.

(** [None] stands for the values that are falsy and not [0]
    ([undefined], [null], [NaN]). *)
Definition formatBytes (bytes : option Z) : jsstring :=
  match bytes with
  | None => js "0 B"
  | Some b =>
    let '(size, unitIndex) := scale (length units - 1) (inject_Z b) 0 in
    (if isInteger size then showZ (Qfloor size)
     else toFixed size (if Qle_bool 10 size then 1 else 2))
      ++ js " " ++ nth unitIndex units []
  end.

(** *** Readings of the numeric fallback *)

(** A candidate for [([0-9]{3,})(?![a-zA-Z])]: three digits or more, and
    what follows does not start with a letter. *)
Definition candidate (r post : jsstring) : Prop :=
  (3 <= length r)%nat /\ forallb isDigit r = true
  /\ notBeforeLetter post = true.

(** [r] is the leftmost candidate of [s], and the longest one there. *)
Definition leftmostLongest (s r : jsstring) : Prop :=
  exists pre post,
    s = pre ++ r ++ post /\ candidate r post
    /\ forall pre' r' post',
        s = pre' ++ r' ++ post' -> candidate r' post' ->
        (length pre <= length pre')%nat
        /\ (length pre' = length pre -> (length r' <= length r)%nat).

Definition noCandidate (s : jsstring) : Prop :=
  forall pre r post, s = pre ++ r ++ post -> ~ candidate r post.

(** The fallback as the specification words it, "the last bare run of 3+
    digits not immediately followed by a letter": the maximal runs of digits
    of [s], each with what follows it, ... *)
Fixpoint digitRuns (cur s : jsstring) : list (jsstring * jsstring) :=
  match s with
  | [] => match cur with [] => [] | _ => [(rev cur, [])] end
  | c :: t =>
    if isDigit c then digitRuns (c :: cur) t
    else match cur with [] => [] | _ => [(rev cur, s)] end ++ digitRuns [] t
  end.

(** ... and the last of those that qualify. *)
Definition spec_lastBareRun (s : jsstring) : option jsstring :=
  last (map fst (List.filter
                   (fun p => (3 <=? length (fst p))%nat
                             && notBeforeLetter (snd p))
                   (digitRuns [] s))).

(** A [URL] constructor that throws: what [new URL] does on a host with a
    space in it. *)
Definition throwingURL : jsstring -> option URL := fun _ => None.

(** *** Byte counts, in closed form *)

Definition unitIndexOf (n : Z) : nat :=
  if (n <? 1024)%Z then 0
  else if (n <? 1024 ^ 2)%Z then 1
  else if (n <? 1024 ^ 3)%Z then 2 else 3.

(** The number of decimals of a scaled value that is not an integer. *)
Definition decimalsOf (n D : Z) : nat := if (10 * D <=? n)%Z then 1 else 2.

End Utils.

(** ** The job queue *)

Module JobQueue.

Import Utils.

Abbreviation JobId := jsstring.
Abbreviation SessionId := jsstring.

(** Instants are milliseconds since the epoch: the source stores them as
    ISO strings ([toISOString]) and reads them back with [new Date(..)
    .getTime()], which is the identity at this resolution and never [NaN]. *)
Abbreviation Time := Z.

Inductive Status := Queued | Processing | Completed | Failed.

#[global] Instance Status_eq_dec : EqDecision Status.
Proof. solve_decision. Defined.

Record Options := mkOptions { resize : option Z }.

Record Item := mkItem {
  item_idx : jsstring;
  item_packageIdx : jsstring;
  item_title : jsstring;
  item_sort : Z;
  item_ext : jsstring;
  item_path : jsstring;
  item_buffer : option (list byte);
  item_mimeType : option jsstring;
  item_size : Z;
  item_resized : bool
}.

Record Preview := mkPreview {
  preview_idx : jsstring;
  preview_title : jsstring;
  preview_mimeType : option jsstring;
  preview_dataUrl : jsstring
}.

Record Zip := mkZip {
  zip_buffer : list byte;
  zip_filename : jsstring;
  zip_size : Z
}.

Record PackageInfo := mkPackageInfo {
  info_title : option jsstring;
  info_fields : list (jsstring * jsstring)
}.

Record Job := mkJob {
  job_id : JobId;
  job_sessionId : SessionId;
  job_url : jsstring;
  job_packageId : jsstring;
  job_options : Options;
  job_status : Status;
  job_progress : Q;
  job_stage : jsstring;
  job_message : jsstring;
  job_createdAt : Time;
  job_updatedAt : Time;
  job_packageTitle : option jsstring;
  job_packageInfo : option PackageInfo;
  job_items : list Item;
  job_previews : list Preview;
  job_zip : option Zip;
  job_error : option jsstring;
  job_startedAt : option Time;
  job_completedAt : option Time
}.

(** *** The public projection *)

Record PublicItem := mkPublicItem {
  pi_idx : jsstring;
  pi_sort : Z;
  pi_title : jsstring;
  pi_ext : jsstring;
  pi_size : Z;
  pi_sizeLabel : jsstring;
  pi_mimeType : option jsstring;
  pi_resized : bool;
  pi_dataUrl : option jsstring
}.

Record Archive := mkArchive {
  archive_filename : jsstring;
  archive_size : Z;
  archive_sizeLabel : jsstring
}.

Record PublicJob := mkPublicJob {
  pj_id : JobId;
  pj_url : jsstring;
  pj_packageId : jsstring;
  pj_options : Options;
  pj_status : Status;
  pj_stage : jsstring;
  pj_progress : Q;
  pj_message : jsstring;
  pj_error : option jsstring;
  pj_packageTitle : option jsstring;
  pj_packageInfo : option PackageInfo;
  pj_itemCount : nat;
  pj_items : list PublicItem;
  pj_previews : list Preview;
  pj_archive : option Archive;
  pj_createdAt : Time;
  pj_updatedAt : Time;
  pj_startedAt : option Time;
  pj_completedAt : option Time
}.

(** The base64 alphabet, and [buffer.toString('base64')]. *)
Definition base64Char (n : N) : N :=
  if n <? 26 then 65 + n
  else if n <? 52 then 97 + (n - 26)
  else if n <? 62 then 48 + (n - 52)
  else if n =? 62 then 43 else 47.

Fixpoint base64N (bs : list N) : jsstring :=
  match bs with
  | [] => []
  | [a] => [base64Char (a / 4); base64Char ((a mod 4) * 16); 61; 61]
  | [a; b] =>
    [base64Char (a / 4); base64Char ((a mod 4) * 16 + b / 16);
     base64Char ((b mod 16) * 4); 61]
  | a :: b :: c :: t =>
    base64Char (a / 4) :: base64Char ((a mod 4) * 16 + b / 16)
      :: base64Char ((b mod 16) * 4 + c / 64) :: base64Char (c mod 64)
      :: base64N t
  end.

Definition base64 (buffer : list byte) : jsstring :=
  base64N (map Byte.to_N buffer).

Definition dataUrl (item : Item) : option jsstring :=
  match item_buffer item with
  | Some buffer =>
    if truthy (item_mimeType item)
    then Some (js "data:" ++ default [] (item_mimeType item)
                 ++ js ";base64," ++ base64 buffer)
    else None
  | None => None
  end.

Definition summariseItems (items : list Item) : list PublicItem :=
  map (fun item =>
         {| pi_idx := item_idx item;
            pi_sort := item_sort item;
            pi_title := item_title item;
            pi_ext := item_ext item;
            pi_size := item_size item;
            pi_sizeLabel := formatBytes (Some (item_size item));
            pi_mimeType := item_mimeType item;
            pi_resized := item_resized item;
            pi_dataUrl := dataUrl item |}) items.

Definition toPublicJob (job : Job) : PublicJob :=
  {| pj_id := job_id job;
     pj_url := job_url job;
     pj_packageId := job_packageId job;
     pj_options := job_options job;
     pj_status := job_status job;
     pj_stage := job_stage job;
     pj_progress := job_progress job;
     pj_message := job_message job;
     pj_error := job_error job;
     pj_packageTitle := job_packageTitle job;
     pj_packageInfo := job_packageInfo job;
     pj_itemCount := length (job_items job);
     pj_items := summariseItems (job_items job);
     pj_previews :=
       map (fun preview =>
              {| preview_idx := preview_idx preview;
                 preview_title := preview_title preview;
                 preview_mimeType := preview_mimeType preview;
                 preview_dataUrl := preview_dataUrl preview |})
           (job_previews job);
     pj_archive :=
       match job_zip job with
       | Some zip =>
         Some {| archive_filename := zip_filename zip;
                 archive_size := zip_size zip;
                 archive_sizeLabel := formatBytes (Some (zip_size zip)) |}
       | None => None
       end;
     pj_createdAt := job_createdAt job;
     pj_updatedAt := job_updatedAt job;
     pj_startedAt := job_startedAt job;
     pj_completedAt := job_completedAt job |}.

(** *** The [Map] of jobs

    A JavaScript [Map] iterates in insertion order, and
    [cleanupExpiredJobs] iterates over it: the registry is an association
    list in insertion order, with at most one entry per key. *)
Section JsMap.

Context {V : Type}.

Fixpoint get (k : JobId) (m : list (JobId * V)) : option V :=
  match m with
  | [] => None
  | (k', v) :: m' => if decide (k' = k) then Some v else get k m'
  end.

Fixpoint set (k : JobId) (v : V) (m : list (JobId * V))
  : list (JobId * V) :=
  match m with
  | [] => [(k, v)]
  | (k', v') :: m' =>
    if decide (k' = k) then (k, v) :: m' else (k', v') :: set k v m'
  end.

Fixpoint del (k : JobId) (m : list (JobId * V)) : list (JobId * V) :=
  match m with
  | [] => []
  | (k', v) :: m' =>
    if decide (k' = k) then del k m' else (k', v) :: del k m'
  end.

(** In-place mutation of the object stored under [k]. *)
Fixpoint mutate (f : V -> V) (k : JobId) (m : list (JobId * V))
  : list (JobId * V) :=
  match m with
  | [] => []
  | (k', v) :: m' =>
    if decide (k' = k) then (k', f v) :: m' else (k', v) :: mutate f k m'
  end.

End JsMap.

Record State := mkState {
  jobs : list (JobId * Job);
  queue : list JobId;
  sessionJobs : gmap SessionId (list JobId);
  processingJob : option JobId
}.

Definition initial : State :=
  {| jobs := []; queue := []; sessionJobs := ∅; processingJob := None |}.

Definition MAX_STORED_JOBS_PER_SESSION : nat := 15.
Definition JOB_TTL_MS : Z := 1000 * 60 * 30.

Record Error := mkError { err_message : jsstring; err_statusCode : Z }.

Definition sessionRequired : Error :=
  {| err_message := js "세션 식별자가 필요합니다."; err_statusCode := 400 |}.
Definition invalidUrl : Error :=
  {| err_message := js "유효한 디시콘 URL이 아닙니다."; err_statusCode := 400 |}.
Definition jobNotFound : Error :=
  {| err_message := js "작업을 찾을 수 없습니다."; err_statusCode := 404 |}.
Definition notReady : Error :=
  {| err_message := js "아직 다운로드할 수 없습니다."; err_statusCode := 409 |}.

(** [value] is [Number(value)] when that is a finite number, else [None]. *)
Definition normalizeResizeOption (value : option Q) : option Z :=
  match value with
  | None => None
  | Some numeric =>
    if Qle_bool numeric 0 then None
    else
      let rounded := Qfloor (numeric + (1 # 2))%Q in
      Some (Z.min 512 (Z.max 16 rounded))
  end.

Definition assertSessionId (sessionId : jsstring) : Error + SessionId :=
  match trim sessionId with
  | [] => inl sessionRequired
  | valid => inr valid
  end.

(** [order.indexOf(jobId)] followed by [order.splice(idx, 1)]. *)
Fixpoint removeFirst (jobId : JobId) (order : list JobId) : list JobId :=
  match order with
  | [] => []
  | x :: order' =>
    if decide (x = jobId) then order' else x :: removeFirst jobId order'
  end.

(** The [while] loop over [queue.indexOf(jobId)]: every occurrence goes. *)
Fixpoint scrub (jobId : JobId) (q : list JobId) : list JobId :=
  match q with
  | [] => []
  | x :: q' =>
    if decide (x = jobId) then scrub jobId q' else x :: scrub jobId q'
  end.

(** The update of the session order in [removeJob]: the id is spliced out
    of the array of the session, and an array left empty is dropped. *)
Definition spliceOrder (sessionId : SessionId) (jobId : JobId)
           (sj : gmap SessionId (list JobId)) : gmap SessionId (list JobId) :=
  match sj !! sessionId with
  | Some order =>
    match removeFirst jobId order with
    | [] => delete sessionId sj
    | order' => <[sessionId := order']> sj
    end
  | None => sj
  end.

Definition removeJob (jobId : JobId) (st : State) : bool * State :=
  match get jobId (jobs st) with
  | None => (false, st)
  | Some job =>
    if decide (job_status job = Processing) then (false, st)
    else
      (true,
       {| jobs := del jobId (jobs st);
          sessionJobs := spliceOrder (job_sessionId job) jobId (sessionJobs st);
          queue := scrub jobId (queue st);
          processingJob := processingJob st |})
  end.

(** The test of [cleanupExpiredJobs] on one entry. *)
Definition expired (now : Time) (job : Job) : bool :=
  match job_status job with
  | Processing | Queued => false
  | _ => (JOB_TTL_MS <? now - job_updatedAt job)%Z
  end.

(** The body of the loop of [cleanupExpiredJobs] at the key [jobId]; the
    entry is read when its turn comes. *)
Definition cleanupEntry (now : Time) (st : State) (jobId : JobId) : State :=
  match get jobId (jobs st) with
  | Some job => if expired now job then snd (removeJob jobId st) else st
  | None => st
  end.

(** [for (const [jobId, job] of jobs)]: the keys are visited in insertion
    order. *)
Definition cleanupExpiredJobs (now : Time) (st : State) : State :=
  foldl (cleanupEntry now) st (map fst (jobs st)).

(** The [while] loop of [trimSessionJobs]. The array [order] is the one
    stored in [sessionJobs], so it is read through the registry at every
    turn; every turn that goes on has removed a job, which bounds the
    number of turns by the number of jobs. *)
Fixpoint trimLoop (turns : nat) (sessionId : SessionId) (st : State) : State :=
  match turns with
  | O => st
  | S turns' =>
    match sessionJobs st !! sessionId with
    | Some (oldestId :: rest) =>
      if (MAX_STORED_JOBS_PER_SESSION <? length (oldestId :: rest))%nat
      then
        let '(removed, st') := removeJob oldestId st in
        if removed then trimLoop turns' sessionId st' else st'
      else st
    | _ => st
    end
  end.

Definition trimSessionJobs (sessionId : SessionId) (st : State) : State :=
  trimLoop (S (length (jobs st))) sessionId st.

(** The synchronous part of [runJob], up to the first [await]. *)
Definition startJob (now : Time) (job : Job) : Job :=
  {| job_id := job_id job;
     job_sessionId := job_sessionId job;
     job_url := job_url job;
     job_packageId := job_packageId job;
     job_options := job_options job;
     job_status := Processing;
     job_progress := 1 # 100;
     job_stage := js "initializing";
     job_message := js "작업을 준비하는 중입니다.";
     job_createdAt := job_createdAt job;
     job_updatedAt := now;
     job_packageTitle := job_packageTitle job;
     job_packageInfo := job_packageInfo job;
     job_items := job_items job;
     job_previews := job_previews job;
     job_zip := job_zip job;
     job_error := job_error job;
     job_startedAt := Some now;
     job_completedAt := job_completedAt job |}.

(** [processQueue]: [setImmediate(processQueue)] only schedules a later
    call, which is the event [Tick] below. *)
Definition processQueue (now : Time) (st : State) : State :=
  if truthy (processingJob st) then st
  else
    match queue st with
    | [] => st
    | nextJobId :: rest =>
      let st1 := {| jobs := jobs st; queue := rest;
                    sessionJobs := sessionJobs st;
                    processingJob := processingJob st |} in
      match get nextJobId (jobs st1) with
      | Some job =>
        if decide (job_status job = Queued)
        then {| jobs := mutate (startJob now) nextJobId (jobs st1);
                queue := queue st1;
                sessionJobs := sessionJobs st1;
                processingJob := Some (job_id job) |}
        else st1
      | None => st1
      end
    end.

(** What the download pipeline reports and returns. *)
Record Progress := mkProgress {
  p_stage : jsstring;
  p_progress : Q;
  p_message : jsstring
}.

Record PackageResult := mkPackageResult {
  res_info : option PackageInfo;
  res_items : list Item;
  res_previews : list Preview;
  res_zip : Zip
}.

(** The callback [onProgress] of [runJob]. *)
Definition onProgress (now : Time) (p : Progress) (job : Job) : Job :=
  {| job_id := job_id job;
     job_sessionId := job_sessionId job;
     job_url := job_url job;
     job_packageId := job_packageId job;
     job_options := job_options job;
     job_status := job_status job;
     job_progress := Qmin 1 (Qmax 0 (p_progress p));
     job_stage := p_stage p;
     job_message := p_message p;
     job_createdAt := job_createdAt job;
     job_updatedAt := now;
     job_packageTitle := job_packageTitle job;
     job_packageInfo := job_packageInfo job;
     job_items := job_items job;
     job_previews := job_previews job;
     job_zip := job_zip job;
     job_error := job_error job;
     job_startedAt := job_startedAt job;
     job_completedAt := job_completedAt job |}.

(** [runJob] after the [await], when the pipeline returned. *)
Definition completeJob (now : Time) (r : PackageResult) (job : Job) : Job :=
  {| job_id := job_id job;
     job_sessionId := job_sessionId job;
     job_url := job_url job;
     job_packageId := job_packageId job;
     job_options := job_options job;
     job_status := Completed;
     job_progress := 1;
     job_stage := js "completed";
     job_message := js "다운로드가 완료되었습니다.";
     job_createdAt := job_createdAt job;
     job_updatedAt := now;
     job_packageTitle :=
       match res_info r with Some info => info_title info | None => None end;
     job_packageInfo := res_info r;
     job_items := res_items r;
     job_previews := res_previews r;
     job_zip := Some (res_zip r);
     job_error := job_error job;
     job_startedAt := job_startedAt job;
     job_completedAt := Some now |}.

Definition unknownError : jsstring := js "알 수 없는 오류가 발생했습니다.".

(** [runJob] in its [catch]; [msg] is [error.message] when the thrown value
    has a string there. *)
Definition failJob (now : Time) (msg : option jsstring) (job : Job) : Job :=
  {| job_id := job_id job;
     job_sessionId := job_sessionId job;
     job_url := job_url job;
     job_packageId := job_packageId job;
     job_options := job_options job;
     job_status := Failed;
     job_progress := job_progress job;
     job_stage := js "failed";
     job_message := default unknownError msg;
     job_createdAt := job_createdAt job;
     job_updatedAt := now;
     job_packageTitle := job_packageTitle job;
     job_packageInfo := job_packageInfo job;
     job_items := job_items job;
     job_previews := job_previews job;
     job_zip := job_zip job;
     job_error := Some (default unknownError msg);
     job_startedAt := job_startedAt job;
     job_completedAt := job_completedAt job |}.

(** The loop of [listJobs]: the visible jobs, and the array [order] once the
    stale ids are spliced out. *)
Fixpoint listLoop (m : list (JobId * Job)) (order : list JobId)
  : list PublicJob * list JobId :=
  match order with
  | [] => ([], [])
  | jobId :: rest =>
    let '(visibleJobs, order') := listLoop m rest in
    match get jobId m with
    | Some job => (toPublicJob job :: visibleJobs, jobId :: order')
    | None => (visibleJobs, order')
    end
  end.

(** The job record built by [createJob]. *)
Definition newJob (newId : JobId) (validSessionId : SessionId)
           (trimmedUrl packageId : jsstring) (resizeOption : option Z)
           (now : Time) : Job :=
  {| job_id := newId;
     job_sessionId := validSessionId;
     job_url := trimmedUrl;
     job_packageId := packageId;
     job_options := {| resize := resizeOption |};
     job_status := Queued;
     job_progress := 0;
     job_stage := js "queued";
     job_message := js "다운로드 대기 중";
     job_createdAt := now;
     job_updatedAt := now;
     job_packageTitle := None;
     job_packageInfo := None;
     job_items := [];
     job_previews := [];
     job_zip := None;
     job_error := None;
     job_startedAt := None;
     job_completedAt := None |}.

(** [jobs.set(job.id, job)], then [getSessionOrder(sessionId).push(job.id)]:
    a session without an array gets a fresh one. *)
Definition register (job : Job) (st : State) : State :=
  {| jobs := set (job_id job) job (jobs st);
     queue := queue st;
     sessionJobs :=
       <[job_sessionId job :=
           default [] (sessionJobs st !! job_sessionId job) ++ [job_id job]]>
         (sessionJobs st);
     processingJob := processingJob st |}.

(** [queue.push(job.id)] *)
Definition enqueue (jobId : JobId) (st : State) : State :=
  {| jobs := jobs st;
     queue := queue st ++ [jobId];
     sessionJobs := sessionJobs st;
     processingJob := processingJob st |}.

Section Service.

(** The [URL] constructor of the platform. *)
Variable parseURL : jsstring -> option URL.

(** [newId] is the value of [nanoid()], [now] the clock, read once per
    call. The projection is taken from the job object after the worker was
    kicked: the object is the one stored under [newId]. *)
Definition createJob (url sessionId : jsstring) (resizeValue : option Q)
           (newId : JobId) (now : Time) (st : State)
  : (Error + PublicJob) * State :=
  match assertSessionId sessionId with
  | inl e => (inl e, st)
  | inr validSessionId =>
    let st1 := cleanupExpiredJobs now st in
    let trimmedUrl := trim url in
    match extractPackageId parseURL (Some trimmedUrl) with
    | None => (inl invalidUrl, st1)
    | Some packageId =>
      let resizeOption := normalizeResizeOption resizeValue in
      let job := newJob newId validSessionId trimmedUrl packageId
                        resizeOption now in
      let st2 := register job st1 in
      let st3 := trimSessionJobs validSessionId st2 in
      let st4 := enqueue newId st3 in
      let st5 := processQueue now st4 in
      (inr (toPublicJob (default job (get newId (jobs st5)))), st5)
    end
  end.

Definition listJobs (sessionId : jsstring) (now : Time) (st : State)
  : (Error + list PublicJob) * State :=
  match assertSessionId sessionId with
  | inl e => (inl e, st)
  | inr validSessionId =>
    let st1 := cleanupExpiredJobs now st in
    match sessionJobs st1 !! validSessionId with
    | None | Some [] => (inr [], st1)
    | Some order =>
      let '(visibleJobs, order') := listLoop (jobs st1) order in
      (inr visibleJobs,
       {| jobs := jobs st1;
          queue := queue st1;
          sessionJobs :=
            match order' with
            | [] => delete validSessionId (sessionJobs st1)
            | _ => <[validSessionId := order']> (sessionJobs st1)
            end;
          processingJob := processingJob st1 |})
    end
  end.

Definition getJob (sessionId : jsstring) (jobId : JobId) (now : Time)
           (st : State) : (Error + option PublicJob) * State :=
  match assertSessionId sessionId with
  | inl e => (inl e, st)
  | inr validSessionId =>
    let st1 := cleanupExpiredJobs now st in
    match get jobId (jobs st1) with
    | Some job =>
      if decide (job_sessionId job = validSessionId)
      then (inr (Some (toPublicJob job)), st1)
      else (inr None, st1)
    | None => (inr None, st1)
    end
  end.

Definition getJobDownloadData (sessionId : jsstring) (jobId : JobId)
           (now : Time) (st : State) : (Error + Zip) * State :=
  match assertSessionId sessionId with
  | inl e => (inl e, st)
  | inr validSessionId =>
    let st1 := cleanupExpiredJobs now st in
    match get jobId (jobs st1) with
    | Some job =>
      if decide (job_sessionId job = validSessionId)
      then
        match job_status job, job_zip job with
        | Completed, Some zip => (inr zip, st1)
        | _, _ => (inl notReady, st1)
        end
      else (inl jobNotFound, st1)
    | None => (inl jobNotFound, st1)
    end
  end.

(** *** The service as a transition system

    One step is one call of the API or one turn of the worker. The
    continuation of [runJob] after the [await] and the [finally] callback
    that clears [processingJob] run in the same microtask checkpoint, so
    no call of the API comes between them: settling a job is one step.
    The job object held by [runJob] is the one stored under
    [processingJob]. *)
Definition withJobs (f : list (JobId * Job) -> list (JobId * Job))
           (marker : option JobId) (st : State) : State :=
  {| jobs := f (jobs st); queue := queue st;
     sessionJobs := sessionJobs st; processingJob := marker |}.

Inductive step (st : State) : State -> Prop :=
| step_createJob url sessionId resizeValue newId now :
    newId <> [] ->
    get newId (jobs st) = None ->
    step st (snd (createJob url sessionId resizeValue newId now st))
| step_listJobs sessionId now :
    step st (snd (listJobs sessionId now st))
| step_getJob sessionId jobId now :
    step st (snd (getJob sessionId jobId now st))
| step_getJobDownloadData sessionId jobId now :
    step st (snd (getJobDownloadData sessionId jobId now st))
| step_tick now :
    step st (processQueue now st)
| step_progress jobId now p :
    processingJob st = Some jobId ->
    step st (withJobs (mutate (onProgress now p) jobId) (Some jobId) st)
| step_completed jobId now r :
    processingJob st = Some jobId ->
    step st (withJobs (mutate (completeJob now r) jobId) None st)
| step_failed jobId now msg :
    processingJob st = Some jobId ->
    step st (withJobs (mutate (failJob now msg) jobId) None st).

Inductive reachable : State -> Prop :=
| reachable_initial : reachable initial
| reachable_step st st' : reachable st -> step st st' -> reachable st'.

End Service.

(** *** Well-formed registries *)

Record Inv (st : State) : Prop := mkInv {
  inv_keys : NoDup (map fst (jobs st));
  inv_id : forall id j,
      get id (jobs st) = Some j -> job_id j = id /\ id <> [];
  inv_processing : forall id j,
      get id (jobs st) = Some j -> job_status j = Processing ->
      processingJob st = Some id;
  inv_marker : forall id,
      processingJob st = Some id ->
      exists j, get id (jobs st) = Some j /\ job_status j = Processing;
  inv_order : forall sid order,
      sessionJobs st !! sid = Some order ->
      order <> [] /\ NoDup order
      /\ forall id, id ∈ order ->
                    exists j, get id (jobs st) = Some j /\ job_sessionId j = sid
}.

(** [st'] comes from [st] by removing jobs only. *)
Record shrinks (st st' : State) : Prop := mkShrinks {
  shrinks_jobs : forall id j,
      get id (jobs st') = Some j -> get id (jobs st) = Some j;
  shrinks_marker : processingJob st' = processingJob st;
  shrinks_queue : queue st = [] -> queue st' = []
}.

(** *** What the projection leaves out *)

(** The job [job] filed under another session. *)
Definition withSessionId (sessionId : SessionId) (job : Job) : Job :=
  {| job_id := job_id job;
     job_sessionId := sessionId;
     job_url := job_url job;
     job_packageId := job_packageId job;
     job_options := job_options job;
     job_status := job_status job;
     job_progress := job_progress job;
     job_stage := job_stage job;
     job_message := job_message job;
     job_createdAt := job_createdAt job;
     job_updatedAt := job_updatedAt job;
     job_packageTitle := job_packageTitle job;
     job_packageInfo := job_packageInfo job;
     job_items := job_items job;
     job_previews := job_previews job;
     job_zip := job_zip job;
     job_error := job_error job;
     job_startedAt := job_startedAt job;
     job_completedAt := job_completedAt job |}.

(** The job [job] with other bytes in its archive (same name and size). *)
Definition withZipBuffer (buffer : list byte) (job : Job) : Job :=
  {| job_id := job_id job;
     job_sessionId := job_sessionId job;
     job_url := job_url job;
     job_packageId := job_packageId job;
     job_options := job_options job;
     job_status := job_status job;
     job_progress := job_progress job;
     job_stage := job_stage job;
     job_message := job_message job;
     job_createdAt := job_createdAt job;
     job_updatedAt := job_updatedAt job;
     job_packageTitle := job_packageTitle job;
     job_packageInfo := job_packageInfo job;
     job_items := job_items job;
     job_previews := job_previews job;
     job_zip :=
       match job_zip job with
       | Some zip => Some {| zip_buffer := buffer;
                             zip_filename := zip_filename zip;
                             zip_size := zip_size zip |}
       | None => None
       end;
     job_error := job_error job;
     job_startedAt := job_startedAt job;
     job_completedAt := job_completedAt job |}.

(** The item [item] with other bytes, or with none. *)
Definition withItemBuffer (buffer : option (list byte)) (item : Item) : Item :=
  {| item_idx := item_idx item;
     item_packageIdx := item_packageIdx item;
     item_title := item_title item;
     item_sort := item_sort item;
     item_ext := item_ext item;
     item_path := item_path item;
     item_buffer := buffer;
     item_mimeType := item_mimeType item;
     item_size := item_size item;
     item_resized := item_resized item |}.

(** The job [job] with other items. *)
Definition withItems (items : list Item) (job : Job) : Job :=
  {| job_id := job_id job;
     job_sessionId := job_sessionId job;
     job_url := job_url job;
     job_packageId := job_packageId job;
     job_options := job_options job;
     job_status := job_status job;
     job_progress := job_progress job;
     job_stage := job_stage job;
     job_message := job_message job;
     job_createdAt := job_createdAt job;
     job_updatedAt := job_updatedAt job;
     job_packageTitle := job_packageTitle job;
     job_packageInfo := job_packageInfo job;
     job_items := items;
     job_previews := job_previews job;
     job_zip := job_zip job;
     job_error := job_error job;
     job_startedAt := job_startedAt job;
     job_completedAt := job_completedAt job |}.

(** What is left of a job record once its session id, the bytes of its
    archive and the bytes of its items are wiped. *)
Definition withoutSecrets (job : Job) : Job :=
  withSessionId []
    (withZipBuffer []
       (withItems (map (withItemBuffer None) (job_items job)) job)).

(** A public item beside its data URL, and a projection beside the data
    URLs of its items. *)
Definition withoutDataUrl (item : PublicItem) : PublicItem :=
  {| pi_idx := pi_idx item;
     pi_sort := pi_sort item;
     pi_title := pi_title item;
     pi_ext := pi_ext item;
     pi_size := pi_size item;
     pi_sizeLabel := pi_sizeLabel item;
     pi_mimeType := pi_mimeType item;
     pi_resized := pi_resized item;
     pi_dataUrl := None |}.

Definition withoutDataUrls (pj : PublicJob) : PublicJob :=
  {| pj_id := pj_id pj;
     pj_url := pj_url pj;
     pj_packageId := pj_packageId pj;
     pj_options := pj_options pj;
     pj_status := pj_status pj;
     pj_stage := pj_stage pj;
     pj_progress := pj_progress pj;
     pj_message := pj_message pj;
     pj_error := pj_error pj;
     pj_packageTitle := pj_packageTitle pj;
     pj_packageInfo := pj_packageInfo pj;
     pj_itemCount := pj_itemCount pj;
     pj_items := map withoutDataUrl (pj_items pj);
     pj_previews := pj_previews pj;
     pj_archive := pj_archive pj;
     pj_createdAt := pj_createdAt pj;
     pj_updatedAt := pj_updatedAt pj;
     pj_startedAt := pj_startedAt pj;
     pj_completedAt := pj_completedAt pj |}.

(** *** The life of a job *)

(** The moves of the state machine of a job: staying where it is, being
    picked up by the worker, and ending. *)
Inductive transition : Status -> Status -> Prop :=
| transition_stay s : transition s s
| transition_start : transition Queued Processing
| transition_complete : transition Processing Completed
| transition_fail : transition Processing Failed.

(** [along s s']: [s'] is [s] or comes after it on
    queued -> processing -> completed | failed. *)
Definition statusRank (s : Status) : nat :=
  match s with
  | Queued => 0
  | Processing => 1
  | Completed | Failed => 2
  end.

Definition along (s s' : Status) : Prop :=
  s = s' \/ (statusRank s < statusRank s')%nat.

Definition isProcessing (entry : JobId * Job) : bool :=
  bool_decide (job_status (snd entry) = Processing).

Section Runs.

Variable parseURL : jsstring -> option URL.

(** A run of the service during which the job [id] stays in the registry. *)
Inductive keeps (id : JobId) (st : State) : State -> Prop :=
| keeps_here : keeps id st st
| keeps_step st' st'' :
    keeps id st st' -> step parseURL st' st'' ->
    is_Some (get id (jobs st'')) -> keeps id st st''.

End Runs.

(** *** Runs used as examples *)

Definition jobName (n : N) : JobId := js "job_" ++ [64 + n].

(** One more job for the session ["sess_1"], at time 0. *)
Definition submit (n : N) (st : State) : State :=
  snd (createJob throwingURL (js "package_idx=98765") (js "sess_1") None
                 (jobName n) 0 st).

Fixpoint submitAll (ns : list N) (st : State) : State :=
  match ns with
  | [] => st
  | n :: ns' => submitAll ns' (submit n st)
  end.

Fixpoint freshAll (ns : list N) (st : State) : bool :=
  match ns with
  | [] => true
  | n :: ns' =>
    match get (jobName n) (jobs st) with
    | None => freshAll ns' (submit n st)
    | Some _ => false
    end
  end.

Definition oneJob : State := submit 1 initial.

Definition fifteenJobs : State :=
  submitAll [1; 2; 3; 4; 5; 6; 7; 8; 9; 10; 11; 12; 13; 14; 15] initial.

Definition sampleZip : Zip :=
  {| zip_buffer := [x50; x4b]; zip_filename := js "untitled_98765.zip";
     zip_size := 2 |}.

Definition sampleResult : PackageResult :=
  {| res_info := None; res_items := []; res_previews := [];
     res_zip := sampleZip |}.

(** The first job of [oneJob] has completed at time 10. *)
Definition finishedJob : State :=
  withJobs (mutate (completeJob 10 sampleResult) (jobName 1)) None oneJob.

End JobQueue.


(** ** The router: [server/src/index.js] *)

Module Server.

Import Utils JobQueue.

(** A value of a request as the handlers test it: a header, a parameter of
    the query string, a field of the body. [VOther] and [EOther] stand for
    the numbers, the booleans, the plain objects and, inside an array, the
    arrays. *)
Inductive Element :=
| EString (s : jsstring)
| ENullish                     (* undefined, null *)
| EOther.

Inductive JsValue :=
| VUndefined
| VNull
| VString (s : jsstring)
| VArray (elements : list Element)
| VOther.

Record Request := mkRequest {
  req_header : JsValue;        (* req.headers['x-session-id'] *)
  req_query : JsValue;         (* req.query?.session_id *)
  req_id : jsstring;           (* req.params.id *)
  req_url : JsValue;           (* (req.body || {}).url *)
  req_resize : option Q        (* Number((req.body || {}).resize), if finite *)
}.

(** What [resolveSessionId] comes to: a string, [undefined], or the
    [TypeError] of calling a [trim] that is not there. *)
Inductive Resolved :=
| RString (s : jsstring)
| RUndefined
| RThrow.

(** [value[0]?.trim()] *)
Definition firstTrimmed (elements : list Element) : Resolved :=
  match elements with
  | [] => RUndefined
  | EString s :: _ => RString (trim s)
  | ENullish :: _ => RUndefined
  | EOther :: _ => RThrow
  end.

Definition resolveSessionId (req : Request) : Resolved :=
  match req_header req with
  | VArray elements => firstTrimmed elements
  | VString s => RString (trim s)
  | _ =>
    match req_query req with
    | VArray elements => firstTrimmed elements
    | VString s => RString (trim s)
    | _ => RString []
    end
  end.

(** [encodeURIComponent]: the code units of the unreserved set are kept,
    every other code point is written as the bytes of its UTF-8 form, each
    as a percent sign and two upper case hexadecimal digits; a surrogate
    that is not part of a pair makes the call throw. *)
Definition uriUnreserved (c : N) : bool :=
  isLetter c || isDigit c || existsb (N.eqb c) (js "-_.!~*'()").

Definition hexDigit (n : N) : N := if n <? 10 then 48 + n else 55 + n.

Definition percent (byte : N) : jsstring :=
  [37; hexDigit (byte / 16); hexDigit (byte mod 16)].

Definition utf8 (cp : N) : list N :=
  if cp <? 128 then [cp]
  else if cp <? 2048 then [192 + cp / 64; 128 + cp mod 64]
  else if cp <? 65536
       then [224 + cp / 4096; 128 + (cp / 64) mod 64; 128 + cp mod 64]
       else [240 + cp / 262144; 128 + (cp / 4096) mod 64;
             128 + (cp / 64) mod 64; 128 + cp mod 64].

Definition escaped (cp : N) : jsstring := concat (map percent (utf8 cp)).

Definition isLead (c : N) : bool := (55296 <=? c) && (c <? 56320).

Definition isTrail (c : N) : bool := (56320 <=? c) && (c <? 57344).

Fixpoint encodeURIComponent (s : jsstring) : option jsstring :=
  match s with
  | [] => Some []
  | c :: rest =>
    if uriUnreserved c then cons c <$> encodeURIComponent rest
    else if isLead c then
      match rest with
      | d :: rest' =>
        if isTrail d
        then app (escaped (65536 + (c - 55296) * 1024 + (d - 56320)))
               <$> encodeURIComponent rest'
        else None
      | [] => None
      end
    else if isTrail c then None
    else app (escaped c) <$> encodeURIComponent rest
  end.

(** What a handler sends. *)
Inductive Body :=
| BError (message : jsstring)
| BJobs (visibleJobs : list PublicJob)
| BJob (job : PublicJob)
| BFile (buffer : list byte).

Record Response := mkResponse {
  res_status : Z;
  res_headers : list (jsstring * jsstring);
  res_body : Body
}.

(** What reaches the error middleware: an error that carries a
    [statusCode], of the service or of the body parser, or an error of the
    platform, without one. *)
Inductive Thrown :=
| ServiceError (e : Error)
| PlatformError (message : jsstring).

Definition genericMessage : jsstring := js "알 수 없는 오류가 발생했습니다.".

(** The error middleware. *)
Definition errorHandler (err : Thrown) : Response :=
  let statusCode :=
    match err with
    | ServiceError e =>
      if (err_statusCode e =? 0)%Z then 500%Z else err_statusCode e
    | PlatformError _ => 500%Z
    end in
  let message :=
    if (statusCode =? 500)%Z then genericMessage
    else match err with
         | ServiceError e => err_message e
         | PlatformError m => m
         end in
  {| res_status := statusCode; res_headers := [];
     res_body := BError message |}.

Definition json (status : Z) (body : Body) : Response :=
  {| res_status := status; res_headers := []; res_body := body |}.

Definition sessionMissing : Response :=
  json 400 (BError (js "세션 식별자가 필요합니다.")).

Definition urlMissing : Response :=
  json 400 (BError (js "URL을 입력해주세요.")).

Definition jobMissing : Response :=
  json 404 (BError (js "작업을 찾을 수 없습니다.")).

(** The message of the [TypeError] is the platform's; the middleware never
    sends it. *)
Definition notAFunction : Thrown := PlatformError (js "trim is not a function").

Definition malformedURI : Thrown := PlatformError (js "URI malformed").

(** What [express.json()], which the application runs before every route,
    makes of a request: it passes the request on, with the body it has read,
    or it fails with an error of its own that carries a status code (400 for
    a body that is not JSON, 413 for a body that is too large, 415 for an
    encoding it does not know). [cors()], which runs first, passes the
    requests of these routes on. *)
Inductive Parsed :=
| BodyRejected (e : Error)
| BodyAccepted (req : Request).

Section Routes.

Variable parseURL : jsstring -> option URL.

(** [GET /api/jobs]. An exception of the handler is passed to the error
    middleware by the router. *)
Definition getJobs (req : Request) (now : Time) (st : State)
  : Response * State :=
  match resolveSessionId req with
  | RThrow => (errorHandler notAFunction, st)
  | RUndefined | RString [] => (sessionMissing, st)
  | RString sessionId =>
    match listJobs sessionId now st with
    | (inl e, st') => (errorHandler (ServiceError e), st')
    | (inr visibleJobs, st') => (json 200 (BJobs visibleJobs), st')
    end
  end.

(** [GET /api/jobs/:id] *)
Definition getJobById (req : Request) (now : Time) (st : State)
  : Response * State :=
  match resolveSessionId req with
  | RThrow => (errorHandler notAFunction, st)
  | RUndefined | RString [] => (sessionMissing, st)
  | RString sessionId =>
    match getJob sessionId (req_id req) now st with
    | (inl e, st') => (errorHandler (ServiceError e), st')
    | (inr None, st') => (jobMissing, st')
    | (inr (Some job), st') => (json 200 (BJob job), st')
    end
  end.

(** [POST /api/jobs] *)
Definition postJob (req : Request) (newId : JobId) (now : Time) (st : State)
  : Response * State :=
  match resolveSessionId req with
  | RThrow => (errorHandler notAFunction, st)
  | RUndefined | RString [] => (sessionMissing, st)
  | RString sessionId =>
    match req_url req with
    | VString (c :: url) =>
      match createJob parseURL (c :: url) sessionId (req_resize req)
                      newId now st with
      | (inl e, st') => (errorHandler (ServiceError e), st')
      | (inr job, st') => (json 201 (BJob job), st')
      end
    | _ => (urlMissing, st)
    end
  end.

(** [GET /api/jobs/:id/download] *)
Definition download (req : Request) (now : Time) (st : State)
  : Response * State :=
  match resolveSessionId req with
  | RThrow => (errorHandler notAFunction, st)
  | RUndefined | RString [] => (sessionMissing, st)
  | RString sessionId =>
    match getJobDownloadData sessionId (req_id req) now st with
    | (inl e, st') => (errorHandler (ServiceError e), st')
    | (inr zip, st') =>
      match encodeURIComponent (zip_filename zip) with
      | None => (errorHandler malformedURI, st')
      | Some name =>
        ({| res_status := 200;
            res_headers :=
              [(js "Content-Disposition",
                js "attachment; filename=" ++ [34] ++ name ++ [34]);
               (js "Content-Type", js "application/zip");
               (js "Content-Length", showZ (zip_size zip))];
            res_body := BFile (zip_buffer zip) |}, st')
      end
    end
  end.

(** A route behind [app.use(express.json())]: the error of the body parser
    goes to the error middleware and the handler is not run. *)
Definition throughJson (handler : Request -> State -> Response * State)
    (incoming : Parsed) (st : State) : Response * State :=
  match incoming with
  | BodyRejected e => (errorHandler (ServiceError e), st)
  | BodyAccepted req => handler req st
  end.

Definition serveGetJobs (incoming : Parsed) (now : Time) (st : State)
  : Response * State :=
  throughJson (fun req => getJobs req now) incoming st.

Definition serveGetJobById (incoming : Parsed) (now : Time) (st : State)
  : Response * State :=
  throughJson (fun req => getJobById req now) incoming st.

Definition servePostJob (incoming : Parsed) (newId : JobId) (now : Time)
    (st : State) : Response * State :=
  throughJson (fun req => postJob req newId now) incoming st.

Definition serveDownload (incoming : Parsed) (now : Time) (st : State)
  : Response * State :=
  throughJson (fun req => download req now) incoming st.

End Routes.

End Server.


(** ** The download pipeline: [server/src/dcconDownloader.js]

    The pipeline talks to the network, to the image library and to the
    archiver. What they answer is given from outside, as a [World]; the
    pipeline is then a function of it, which returns the progress reports
    it has made, in order, and its result or the error it has thrown. The
    numbers of the reports are exact rationals, as in [JobQueue]. *)

Module Downloader.

Import Utils JobQueue.

Definition PREVIEW_COUNT : nat := 4.

Definition RESIZABLE_FORMATS : list jsstring :=
  [js "png"; js "jpeg"; js "jpg"; js "webp"].

Definition MIME_BY_FORMAT : list (jsstring * jsstring) :=
  [(js "png", js "image/png"); (js "jpeg", js "image/jpeg");
   (js "jpg", js "image/jpeg"); (js "webp", js "image/webp")].

(** [MIME_BY_FORMAT[format]], for a format that is not the name of a
    property of [Object.prototype]. *)
Fixpoint mimeOf (format : jsstring) (table : list (jsstring * jsstring))
  : option jsstring :=
  match table with
  | [] => None
  | (key, mime) :: table' =>
    if decide (key = format) then Some mime else mimeOf format table'
  end.

(** [a || b] on strings that may be missing. *)
Definition orElse (a b : option jsstring) : option jsstring :=
  if truthy a then a else b.

(** [String.prototype.split] with a separator of one code unit. *)
Fixpoint split (sep : N) (s : jsstring) : list jsstring :=
  match s with
  | [] => [[]]
  | c :: t =>
    if c =? sep then [] :: split sep t
    else match split sep t with
         | piece :: pieces => (c :: piece) :: pieces
         | [] => [[c]]
         end
  end.

(** [Array.prototype.join] *)
Definition join (sep : jsstring) (pieces : list jsstring) : jsstring :=
  match pieces with
  | [] => []
  | piece :: pieces' => piece ++ concat (map (app sep) pieces')
  end.

(** [String(n).padStart(3, '0')] *)
Definition padStart3 (s : jsstring) : jsstring :=
  repeat 48 (3 - length s) ++ s.

(** What a thrown value leaves in [runJob]: its [message], when that is a
    string. *)
Definition Failure := option jsstring.

(** The outcome of a [fetch]: the promise is rejected, or the response is
    not [ok], or it is and [a] is read from it. *)
Inductive Fetched (A : Type) :=
| Rejected (message : Failure)
| NotOk
| Ok (a : A).

Arguments Rejected {A} message.
Arguments NotOk {A}.
Arguments Ok {A} a.

Record Session := mkSession {
  cookieHeader : jsstring;
  csrfToken : option jsstring
}.

(** [initializeSession], from the response to the request of the home
    page; [Ok] carries what [getSetCookies] returns. *)
Definition initializeSession (home : Fetched (list jsstring))
  : Failure + Session :=
  match home with
  | Rejected message => inl message
  | NotOk => inl (Some (js "초기 연결에 실패했습니다."))
  | Ok rawSetCookies =>
    let parsedCookies :=
      map (fun cookie => hd [] (split 59 cookie))
          (List.filter nonEmpty rawSetCookies) in
    let cookieHeader := join (js "; ") parsedCookies in
    match find (startsWith (js "ci_c=")) parsedCookies with
    | None => inl (Some (js "인증 토큰을 가져오지 못했습니다."))
    | Some csrfCookie =>
      inr {| cookieHeader := cookieHeader;
             csrfToken := split 61 csrfCookie !! 1%nat |}
    end
  end.

(** An element of [detail] in the answer of the site. *)
Record RawItem := mkRawItem {
  raw_idx : jsstring;
  raw_packageIdx : jsstring;
  raw_title : jsstring;
  raw_sort : option Z;          (* Number(item.sort), unless it is NaN *)
  raw_ext : option jsstring;
  raw_path : jsstring
}.

(** The answer to the request of the package: the promise of [fetch] or of
    [response.json()] is rejected, the response is not [ok], the data have
    no array [detail], or they have one. *)
Inductive DetailResponse :=
| DetailRejected (message : Failure)
| DetailNotOk
| DetailMalformed
| DetailOk (info : option PackageInfo) (detail : list RawItem).

Definition fetchPackageDetail (response : DetailResponse)
  : Failure + (option PackageInfo * list RawItem) :=
  match response with
  | DetailRejected message => inl message
  | DetailNotOk => inl (Some (js "디시콘 정보를 불러오지 못했습니다."))
  | DetailMalformed => inl (Some (js "디시콘 정보 형식이 올바르지 않습니다."))
  | DetailOk info detail => inr (info, detail)
  end.

(** [fetchImageBuffer]: the bytes, and the [content-type] or ['image/png']. *)
Definition fetchImageBuffer (response : Fetched (list byte * option jsstring))
  : Failure + (list byte * option jsstring) :=
  match response with
  | Rejected message => inl message
  | NotOk => inl (Some (js "이미지를 다운로드하지 못했습니다."))
  | Ok (buffer, contentType) =>
    inr (buffer, orElse contentType (Some (js "image/png")))
  end.

Record Processed := mkProcessed {
  processed_buffer : list byte;
  processed_ext : option jsstring;
  processed_mimeType : option jsstring;
  processed_resized : bool
}.

Section Pipeline.

(** [String.prototype.toLowerCase] *)
Variable toLowerCase : jsstring -> jsstring.

Definition canResize (ext mimeType : option jsstring) : bool :=
  let normalizedExt := toLowerCase (default [] ext) in
  if bool_decide (normalizedExt ∈ RESIZABLE_FORMATS) then true
  else
    match mimeType with
    | Some (c :: mime) =>
      bool_decide (toLowerCase (c :: mime) ∈ map snd MIME_BY_FORMAT)
    | _ => false
    end.

(** [applyResize]; [resized] is what [sharp] gives for the buffer: nothing
    when it throws, else the new bytes and [info.format]. *)
Definition applyResize (resized : option (list byte * option jsstring))
           (buffer : list byte) (ext mimeType : option jsstring)
           (size : option Z) : Processed :=
  let unchanged :=
    {| processed_buffer := buffer; processed_ext := ext;
       processed_mimeType := mimeType; processed_resized := false |} in
  match size with
  | None | Some 0%Z => unchanged
  | Some _ =>
    if canResize ext mimeType then
      match resized with
      | None => unchanged
      | Some (data, infoFormat) =>
        let format :=
          toLowerCase (default [] (orElse infoFormat ext)) in
        let normalizedFormat :=
          if decide (format = js "jpeg") then js "jpg" else format in
        let newExt :=
          orElse (orElse (Some normalizedFormat) ext) (Some (js "png")) in
        let newMime :=
          orElse (orElse (mimeOf normalizedFormat MIME_BY_FORMAT) mimeType)
                 (Some (js "image/png")) in
        {| processed_buffer := data; processed_ext := newExt;
           processed_mimeType := newMime; processed_resized := true |}
      end
    else unchanged
  end.

(** What the outside answers. The answers may depend on what the pipeline
    sends: the session and the package id, the path of an image, the bytes
    to resize and the size, the entries of the archive. *)
Record World := mkWorld {
  home : Fetched (list jsstring);
  detailOf : Session -> jsstring -> DetailResponse;
  imageOf : nat -> Session -> jsstring
            -> Fetched (list byte * option jsstring);
  sharpOf : nat -> list byte -> Z -> option (list byte * option jsstring);
  archiveOf : list (jsstring * option (list byte)) -> Failure + list byte
}.

(** The name of the entry of [item], the [index]-th of [items], in
    [createZipBuffer]; a sort number is printed with all its digits, as
    [String] does below 10^21. *)
Definition entryName (index : nat) (item : Item) : jsstring :=
  let paddedSort :=
    padStart3 (showZ (if decide (item_sort item = 0%Z) then Z.of_nat index
                      else item_sort item)) in
  let safeTitle :=
    sanitizeFilename (Some (item_title item)) (js "dccon_" ++ paddedSort) in
  let extension :=
    match item_ext item with [] => js "png" | ext => ext end in
  paddedSort ++ js "_" ++ safeTitle ++ js "." ++ extension.

Definition createZipBuffer (w : World) (items : list Item)
  : Failure + list byte :=
  archiveOf w (imap (fun index item => (entryName index item,
                                        item_buffer item)) items).

(** The report after the image [index], of [count]. *)
Definition imageReport (index count : nat) (resized : bool) : Progress :=
  {| p_stage := js "image";
     p_progress :=
       (15 # 100)
       + (inject_Z (Z.of_nat (S index)) / inject_Z (Z.of_nat count))
         * (75 # 100);
     p_message :=
       showZ (Z.of_nat (S index)) ++ js "/" ++ showZ (Z.of_nat count)
       ++ js "개의 이미지를 저장했습니다."
       ++ (if resized then js " (리사이즈 적용)" else []) |}.

(** One turn of the loop over [detail.detail]. *)
Definition fetchItem (w : World) (session : Session) (resizeOption : option Z)
           (index : nat) (item : RawItem) : Failure + Item :=
  match fetchImageBuffer (imageOf w index session (raw_path item)) with
  | inl failure => inl failure
  | inr (buffer, mimeType) =>
    let processed :=
      applyResize (match resizeOption with
                   | Some size => sharpOf w index buffer size
                   | None => None
                   end)
                  buffer (raw_ext item) mimeType resizeOption in
    inr {| item_idx := raw_idx item;
           item_packageIdx := raw_packageIdx item;
           item_title := raw_title item;
           item_sort :=
             match raw_sort item with
             | Some sort =>
               if decide (sort = 0%Z) then Z.of_nat (S index) else sort
             | None => Z.of_nat (S index)
             end;
           item_ext :=
             default [] (orElse (orElse (processed_ext processed)
                                        (raw_ext item))
                                (Some (js "png")));
           item_path := raw_path item;
           item_buffer := Some (processed_buffer processed);
           item_mimeType :=
             orElse (processed_mimeType processed) mimeType;
           item_size := Z.of_nat (length (processed_buffer processed));
           item_resized := processed_resized processed |}
  end.

(** The loop: the reports made, and the items or the error. *)
Fixpoint fetchItems (w : World) (session : Session) (resizeOption : option Z)
         (count index : nat) (detail : list RawItem)
  : list Progress * (Failure + list Item) :=
  match detail with
  | [] => ([], inr [])
  | raw :: detail' =>
    match fetchItem w session resizeOption index raw with
    | inl failure => ([], inl failure)
    | inr item =>
      let '(reports, outcome) :=
        fetchItems w session resizeOption count (S index) detail' in
      (imageReport index count (item_resized item) :: reports,
       match outcome with
       | inl failure => inl failure
       | inr items => inr (item :: items)
       end)
    end
  end.

Definition sessionReport : Progress :=
  {| p_stage := js "session"; p_progress := 5 # 100;
     p_message := js "세션을 초기화하는 중입니다." |}.

Definition detailReport : Progress :=
  {| p_stage := js "detail"; p_progress := 15 # 100;
     p_message := js "디시콘 상세 정보를 불러왔습니다." |}.

Definition archiveReport : Progress :=
  {| p_stage := js "archive"; p_progress := 95 # 100;
     p_message := js "ZIP 파일을 생성했습니다." |}.

Definition completeReport : Progress :=
  {| p_stage := js "complete"; p_progress := 1;
     p_message := js "모든 작업이 완료되었습니다." |}.

Definition previewOf (item : Item) : Preview :=
  {| preview_idx := item_idx item;
     preview_title := item_title item;
     preview_mimeType := item_mimeType item;
     preview_dataUrl :=
       js "data:" ++ default (js "undefined") (item_mimeType item)
       ++ js ";base64," ++ base64 (default [] (item_buffer item)) |}.

(** What [downloadDcConPackage] returns: the package information, the
    items, the previews, the resize option it has worked with and the
    archive. *)
Record Downloaded := mkDownloaded {
  dl_info : option PackageInfo;
  dl_items : list Item;
  dl_previews : list Preview;
  dl_options : Options;
  dl_zip : Zip
}.

(** What [runJob] takes of it: [const { info, items, previews, zip }]. *)
Definition consumed (result : Downloaded) : PackageResult :=
  {| res_info := dl_info result;
     res_items := dl_items result;
     res_previews := dl_previews result;
     res_zip := dl_zip result |}.

Definition downloadDcConPackage (w : World) (packageId : jsstring)
           (options : Options) : list Progress * (Failure + Downloaded) :=
  match initializeSession (home w) with
  | inl failure => ([], inl failure)
  | inr session =>
    match fetchPackageDetail (detailOf w session packageId) with
    | inl failure => ([sessionReport], inl failure)
    | inr (info, detail) =>
      let resizeOption :=
        match resize options with
        | Some size => if (0 <? size)%Z then Some size else None
        | None => None
        end in
      let '(reports, fetched) :=
        fetchItems w session resizeOption (length detail) 0 detail in
      match fetched with
      | inl failure => (sessionReport :: detailReport :: reports, inl failure)
      | inr items =>
        let archiveFilename :=
          buildArchiveFilename
            (match info with Some i => info_title i | None => None end)
            (Some packageId) in
        match createZipBuffer w items with
        | inl failure =>
          (sessionReport :: detailReport :: reports, inl failure)
        | inr zipBuffer =>
          (sessionReport :: detailReport :: reports
             ++ [archiveReport; completeReport],
           inr {| dl_info := info;
                  dl_items := items;
                  dl_previews := map previewOf (take PREVIEW_COUNT items);
                  dl_options := {| resize := resizeOption |};
                  dl_zip :=
                    {| zip_buffer := zipBuffer;
                       zip_filename := archiveFilename;
                       zip_size := Z.of_nat (length zipBuffer) |} |})
        end
      end
    end
  end.

(** [runJob] on the job [job] that [processQueue] has started: the reports
    reach the job one by one, at the times [clock 0], [clock 1], ..., and
    the pipeline settles at the next one. *)
Fixpoint report (jobId : JobId) (clock : nat -> Time) (tick : nat)
         (reports : list Progress) (st : State) : State :=
  match reports with
  | [] => st
  | p :: reports' =>
    report jobId clock (S tick) reports'
           (withJobs (mutate (onProgress (clock tick) p) jobId)
                     (Some jobId) st)
  end.

Definition runJob (w : World) (job : Job) (clock : nat -> Time) (st : State)
  : State :=
  let '(reports, outcome) :=
    downloadDcConPackage w (job_packageId job) (job_options job) in
  let st' := report (job_id job) clock 0 reports st in
  match outcome with
  | inr result =>
    withJobs (mutate (completeJob (clock (length reports))
                                  (consumed result))
                     (job_id job)) None st'
  | inl failure =>
    withJobs (mutate (failJob (clock (length reports)) failure)
                     (job_id job)) None st'
  end.

End Pipeline.

End Downloader.


(** ** Predicates used to state further properties *)

Module Properties.

Import Utils JobQueue Server Downloader.

(** What a cleaned file name is made of: no hostile code unit, and no white
    space but the plain space. *)
Definition cleanUnit (c : N) : bool :=
  negb (isHostile c) && (negb (isWhiteSpace c) || (c =? 32)).

Definition startsSpace (s : jsstring) : bool :=
  match s with
  | c :: _ => c =? 32
  | [] => false
  end.

Fixpoint noDoubleSpace (s : jsstring) : bool :=
  match s with
  | [] => true
  | c :: t => negb ((c =? 32) && startsSpace t) && noDoubleSpace t
  end.

(** The first code unit, if any, is not white space. *)
Definition edgeOK (s : jsstring) : bool :=
  match s with
  | c :: _ => negb (isWhiteSpace c)
  | [] => true
  end.

(** A clean name: clean code units, spaces one at a time and never at an
    end. *)
Definition isClean (s : jsstring) : bool :=
  forallb cleanUnit s && noDoubleSpace s && edgeOK s && edgeOK (rev s).

(** Two strings that the flag [i] does not tell apart. *)
Definition sameKey (a b : jsstring) : Prop :=
  map toLowerAscii a = map toLowerAscii b.

Definition startsWithDigit (s : jsstring) : bool :=
  match s with
  | c :: _ => isDigit c
  | [] => false
  end.

(** [s] holds one of the keys of the query step, an equal sign and the
    digits [ds], which are all the digits found there. *)
Definition holdsKeyValue (s ds : jsstring) : Prop :=
  exists pre k rest key,
    s = pre ++ k ++ [61] ++ ds ++ rest
    /\ key ∈ queryKeys /\ sameKey k key
    /\ ds <> [] /\ forallb isDigit ds = true
    /\ startsWithDigit rest = false.

(** A [URL] parser that finds a path only. *)
Definition pathOnlyURL : jsstring -> option URL :=
  fun _ => Some {| url_hash := [];
                   url_searchParams := [(js "page", js "2")];
                   url_pathname := js "/a/123456/b/77/4567/x" |}.

(** *** The registry *)

Definition isQueued (entry : JobId * Job) : bool :=
  bool_decide (job_status (snd entry) = Queued).

Definition inSession (sessionId : SessionId) (entry : JobId * Job) : bool :=
  bool_decide (job_sessionId (snd entry) = sessionId).

(** The ids of the queued jobs, and of the jobs of a session, in the order
    of the registry (which is the order of creation). *)
Definition queuedIds (st : State) : list JobId :=
  map fst (List.filter isQueued (jobs st)).

Definition sessionIds (sessionId : SessionId) (st : State) : list JobId :=
  map fst (List.filter (inSession sessionId) (jobs st)).

Definition inUnit (q : Q) : Prop := (0 <= q)%Q /\ (q <= 1)%Q.

(** What the fields of a job record satisfy, status by status. *)
Record jobOK (j : Job) : Prop := mkJobOK {
  ok_packageId :
    job_packageId j <> [] /\ forallb isDigit (job_packageId j) = true;
  ok_session :
    job_sessionId j <> [] /\ trim (job_sessionId j) = job_sessionId j;
  ok_url : trim (job_url j) = job_url j;
  ok_resize :
    forall r, resize (job_options j) = Some r -> (16 <= r <= 512)%Z;
  ok_progress : inUnit (job_progress j);
  ok_queued :
    job_status j = Queued ->
    job_progress j = 0%Q /\ job_startedAt j = None;
  ok_started : job_status j <> Queued -> job_startedAt j <> None;
  ok_zip : job_zip j <> None <-> job_status j = Completed;
  ok_error : job_error j <> None <-> job_status j = Failed;
  ok_completedAt : job_completedAt j <> None <-> job_status j = Completed;
  ok_completed : job_status j = Completed -> job_progress j = 1%Q;
  ok_unfinished :
    job_status j <> Completed ->
    job_items j = [] /\ job_previews j = []
    /\ job_packageInfo j = None /\ job_packageTitle j = None;
  ok_failed : job_status j = Failed -> job_error j = Some (job_message j)
}.

(** The three structures of the service agree: the pending queue lists the
    queued jobs, the array of a session lists the jobs of the session, both
    in the order of creation, and every job record is consistent. *)
Definition sessionsAgree (st : State) : Prop :=
  forall sessionId,
    default [] (sessionJobs st !! sessionId) = sessionIds sessionId st.

Definition jobsOK (st : State) : Prop :=
  forall id j, get id (jobs st) = Some j -> jobOK j.

Record WF (st : State) : Prop := mkWF {
  wf_queue : queue st = queuedIds st;
  wf_sessions : sessionsAgree st;
  wf_jobs : jobsOK st
}.

(** The entries that [cleanupExpiredJobs] leaves in the registry. *)
Definition live (now : Time) (entry : JobId * Job) : bool :=
  negb (expired now (snd entry)).

(** What [listJobs] shows of the entries of the registry. *)
Definition shown (entries : list (JobId * Job)) : list PublicJob :=
  map (fun entry => toPublicJob (snd entry)) entries.

(** Two jobs of one session, the first of which has completed: the worker
    is idle and the second job waits. *)
Definition twoJobs : State := submitAll [1; 2] initial.

Definition workerIdle : State :=
  withJobs (mutate (completeJob 10 sampleResult) (jobName 1)) None twoJobs.

(** Fifteen jobs of one session, the oldest of which has completed. *)
Definition fifteenDone : State :=
  withJobs (mutate (completeJob 10 sampleResult) (jobName 1)) None
           fifteenJobs.

(** The job of [oneJob], once started and once completed. *)
Definition startedJob : Job :=
  startJob 0 (newJob (jobName 1) (js "sess_1") (js "package_idx=98765")
                     (js "98765") None 0).

Definition completedJob : Job := completeJob 10 sampleResult startedJob.

(** A code unit that can stand inside a quoted header value: a printable
    ASCII character other than the space, the double quote and the
    backslash. *)
Definition headerSafe (c : N) : Prop :=
  33 <= c <= 126 /\ c <> 34 /\ c <> 92.

(** Requests of the session ["sess_1"]: one that submits a url, one that
    names the first job. *)
Definition submitRequest : Request :=
  {| req_header := VString (js " sess_1 "); req_query := VUndefined;
     req_id := []; req_url := VString (js "package_idx=98765");
     req_resize := None |}.

Definition firstJobRequest : Request :=
  {| req_header := VUndefined; req_query := VArray [EString (js "sess_1")];
     req_id := jobName 1; req_url := VUndefined; req_resize := None |}.


(** The image reports of a run: one for each image fetched, [count] being
    the number of images of the package. *)
Fixpoint imageReportsFrom (count index : nat) (flags : list bool)
  : list Progress :=
  match flags with
  | [] => []
  | resized :: flags' =>
    imageReport index count resized :: imageReportsFrom count (S index) flags'
  end.


(** What a public item shows in full: its bytes, as a data URL. *)
Definition itemComplete (item : Item) : Prop :=
  exists buffer,
    item_buffer item = Some buffer
    /\ item_size item = Z.of_nat (length buffer)
    /\ truthy (item_mimeType item) = true
    /\ item_sort item <> 0%Z
    /\ item_ext item <> []
    /\ dataUrl item <> None.

(** A site that answers with a package of two images, the second of which
    has no sort number, and an image library that throws. *)
Definition sampleDetail : list RawItem :=
  [ {| raw_idx := js "11"; raw_packageIdx := js "98765";
       raw_title := js "cat"; raw_sort := Some 7%Z;
       raw_ext := Some (js "png"); raw_path := js "aa" |};
    {| raw_idx := js "12"; raw_packageIdx := js "98765";
       raw_title := js "dog"; raw_sort := None;
       raw_ext := None; raw_path := js "bb" |} ].

Definition sampleWorld : World :=
  {| home := Ok [js "PHPSESSID=abc; path=/"; js "ci_c=tok=en; path=/"];
     detailOf := fun _ _ =>
       DetailOk (Some {| info_title := Some (js "Cats"); info_fields := [] |})
                sampleDetail;
     imageOf := fun _ _ _ => Ok ([x89; x50], None);
     sharpOf := fun _ _ _ => None;
     archiveOf := fun _ => inr [x50; x4b] |}.

Definition lowerAscii (s : jsstring) : jsstring := map toLowerAscii s.

(** The job record after the reports of a run have reached it. *)
Fixpoint reported (clock : nat -> Time) (tick : nat) (reports : list Progress)
         (job : Job) : Job :=
  match reports with
  | [] => job
  | p :: reports' =>
    reported clock (S tick) reports' (onProgress (clock tick) p job)
  end.

Definition sampleClock (tick : nat) : Time := (Z.of_nat tick + 1)%Z.

(** Inside [createJob] the new job is registered before it is queued:
    [pending] lists the queued jobs that the queue does not hold yet. *)
Definition queueUpTo (pending : list JobId) (st : State) : Prop :=
  queue st ++ pending = queuedIds st.

End Properties.

Module UtilsFacts.

Import Utils.

(** *** The numeric fallback of [extractPackageId] *)

Lemma spanDigits_app s :
  fst (spanDigits s) ++ snd (spanDigits s) = s.
Proof.
  induction s as [|c t IH]; simpl; [done|].
  destruct (isDigit c); [|done].
  destruct (spanDigits t) as [ds rest]; simpl in *. by rewrite IH.
Qed.

(** A prefix made of digits is no longer than the span of digits. *)
Lemma digits_prefix_le r post :
  forallb isDigit r = true ->
  (length r <= length (fst (spanDigits (r ++ post))))%nat.
Proof.
  induction r as [|c r IH]; simpl; [lia|].
  intros [Hc Hr]%andb_prop. rewrite Hc.
  specialize (IH Hr). destruct (spanDigits (r ++ post)); simpl in *. lia.
Qed.

Lemma spanDigits_take s k :
  (k <= length (fst (spanDigits s)))%nat ->
  forallb isDigit (take k s) = true.
Proof.
  revert k. induction s as [|c t IH]; intros [|k]; simpl; try done.
  destruct (isDigit c) eqn:Hc; simpl; [|lia].
  destruct (spanDigits t) as [ds rest] eqn:Ht; simpl in *.
  intros Hk. apply IH. lia.
Qed.

Lemma backtrackRun_S k s :
  backtrackRun (S k) s =
  if notBeforeLetter (drop (S k) s) then Some (take (S k) s)
  else if (3 <=? k)%nat then backtrackRun k s else None.
Proof. reflexivity. Qed.

Lemma backtrackRun_Some_ge3 k s r :
  (3 <= k)%nat -> backtrackRun k s = Some r ->
  exists j, (3 <= j <= k)%nat /\ r = take j s
            /\ notBeforeLetter (drop j s) = true
            /\ forall i, (j < i <= k)%nat -> notBeforeLetter (drop i s) = false.
Proof.
  induction k as [|k IH]; [lia|]. intros Hk. rewrite backtrackRun_S.
  destruct (notBeforeLetter (drop (S k) s)) eqn:HS.
  - intros [= <-]. exists (S k). split_and!; [lia|lia|done|done|]. intros; lia.
  - destruct (3 <=? k)%nat eqn:H3; [|done].
    apply Nat.leb_le in H3. intros Hr.
    destruct (IH H3 Hr) as (j & Hj & -> & Hn & Hall).
    exists j. split_and!; [lia|lia|done|done|].
    intros i Hi. destruct (decide (i = S k)) as [->|]; [done|].
    apply Hall. lia.
Qed.

Lemma backtrackRun_None k s :
  (3 <= k)%nat -> backtrackRun k s = None ->
  forall i, (3 <= i <= k)%nat -> notBeforeLetter (drop i s) = false.
Proof.
  induction k as [|k IH]; [lia|]. intros Hk. rewrite backtrackRun_S.
  destruct (notBeforeLetter (drop (S k) s)) eqn:HS; [done|].
  destruct (3 <=? k)%nat eqn:H3.
  - apply Nat.leb_le in H3. intros Hr i Hi.
    destruct (decide (i = S k)) as [->|]; [done|]. apply IH; [done..|lia].
  - apply Nat.leb_gt in H3. intros _ i Hi.
    by replace i with (S k) by lia.
Qed.

(** The match anchored at the start of [s] is the longest candidate prefix. *)
Lemma matchRunAt_Some s r :
  matchRunAt s = Some r ->
  exists post, s = r ++ post /\ candidate r post
    /\ forall r' post', s = r' ++ post' -> candidate r' post' ->
                        (length r' <= length r)%nat.
Proof.
  unfold matchRunAt.
  destruct (3 <=? length (spanDigits s).1)%nat eqn:H3; [|done].
  apply Nat.leb_le in H3. intros Hr.
  destruct (backtrackRun_Some_ge3 _ _ _ H3 Hr) as (j & Hj & -> & Hn & Hall).
  assert (Hlen : (length (spanDigits s).1 <= length s)%nat).
  { rewrite <- (spanDigits_app s) at 2. rewrite length_app. lia. }
  exists (drop j s). split; [by rewrite take_drop|]. split.
  - repeat split; [rewrite length_take; lia| |done].
    apply spanDigits_take. lia.
  - intros r' post' -> (Hr3 & Hd & Hl).
    rewrite length_take.
    destruct (decide (length r' <= j)%nat); [lia|].
    pose proof (digits_prefix_le r' post' Hd) as Hle.
    assert (Hf : notBeforeLetter (drop (length r') (r' ++ post')) = false)
      by (apply Hall; lia).
    rewrite drop_app_length in Hf. congruence.
Qed.

Lemma matchRunAt_None s :
  matchRunAt s = None ->
  forall r post, s = r ++ post -> ~ candidate r post.
Proof.
  unfold matchRunAt. intros Hm r post -> (Hr3 & Hd & Hl).
  pose proof (digits_prefix_le r post Hd) as Hle.
  destruct (3 <=? length (spanDigits (r ++ post)).1)%nat eqn:H3.
  - apply Nat.leb_le in H3.
    pose proof (backtrackRun_None _ _ H3 Hm (length r)) as Hn.
    rewrite drop_app_length in Hn. rewrite Hn in Hl; [done|lia].
  - apply Nat.leb_gt in H3. lia.
Qed.

Lemma numericFallback_Some s r :
  numericFallback s = Some r -> leftmostLongest s r.
Proof.
  induction s as [|c t IH]; [done|].
  cbn [numericFallback]. destruct (matchRunAt (c :: t)) eqn:Hm.
  - intros [= ->].
    destruct (matchRunAt_Some _ _ Hm) as (post & Hs & Hc & Hmax).
    exists [], post. split_and!; [done|done|].
    intros pre' r' post' Heq Hc'. split; [simpl; lia|].
    intros Hp. destruct pre'; [|done]. by eapply Hmax.
  - intros Hr. destruct (IH Hr) as (pre & post & -> & Hc & Hmin).
    exists (c :: pre), post. split; [done|]. split; [done|].
    intros pre' r' post' Heq Hc'.
    destruct pre' as [|c' pre'].
    + exfalso. by eapply (matchRunAt_None _ Hm r' post').
    + simpl in Heq. injection Heq as -> Heq.
      destruct (Hmin _ _ _ Heq Hc') as [H1 H2]. simpl. split; [lia|].
      intros. apply H2. lia.
Qed.

Lemma numericFallback_None s :
  numericFallback s = None -> noCandidate s.
Proof.
  induction s as [|c t IH].
  - intros _ pre r post Heq (H3 & _).
    destruct pre; [|done]. destruct r; [simpl in H3; lia|done].
  - cbn [numericFallback].
    destruct (matchRunAt (c :: t)) eqn:Hm; [done|]. intros Hr pre r post Heq.
    destruct pre as [|c' pre].
    + by eapply matchRunAt_None.
    + simpl in Heq. injection Heq as -> Heq. by eapply IH.
Qed.

(** C7 (as amended): when the key=value step and the URL step both fail,
    [extractPackageId] returns the leftmost run of three or more digits not
    immediately followed by a letter, the longest one at that place, and
    nothing when the input has no such run. *)
Theorem extractPackageId_fallback_leftmost parseURL raw :
  queryMatch (trim raw) = None ->
  urlStep parseURL (trim raw) = None ->
  match extractPackageId parseURL (Some raw) with
  | Some r => leftmostLongest (trim raw) r
  | None => noCandidate (trim raw)
  end.
Proof.
  intros Hq Hu. unfold extractPackageId.
  assert (Hnil : noCandidate []).
  { intros pre r post Heq (H3 & _).
    destruct pre; [|done]. destruct r; [simpl in H3; lia|done]. }
  destruct raw as [|c raw]; [done|].
  destruct (trim (c :: raw)) as [|c' t] eqn:Ht; [done|].
  rewrite Hq, Hu.
  destruct (numericFallback (c' :: t)) eqn:Hn.
  - by apply numericFallback_Some.
  - by apply numericFallback_None.
Qed.

Lemma extractPackageId_fallback_leftmost_witness :
  extractPackageId throwingURL (Some (js "see 1234a or 567")) = Some (js "123")
  /\ leftmostLongest (js "see 1234a or 567") (js "123").
Proof.
  split; [reflexivity|].
  apply (extractPackageId_fallback_leftmost throwingURL
           (js "see 1234a or 567")); reflexivity.
Defined.

(** C7 (as stated) fails: with two qualifying runs the code returns the
    first one, not the last. *)
Lemma extractPackageId_fallback_not_last :
  queryMatch (trim (js "abc 123 456")) = None
  /\ urlStep throwingURL (trim (js "abc 123 456")) = None
  /\ extractPackageId throwingURL (Some (js "abc 123 456")) = Some (js "123")
  /\ spec_lastBareRun (trim (js "abc 123 456")) = Some (js "456").
Proof. by vm_compute. Qed.

Example extractPackageId_no_digits :
  extractPackageId throwingURL (Some (js "no digits here")) = None.
Proof. reflexivity. Qed.

Example extractPackageId_query :
  forall parseURL,
    extractPackageId parseURL
      (Some (js ("https://dccon.dcinside.com/index/package_detail"
                   ++ "?package_idx=98765")))
    = Some (js "98765").
Proof. reflexivity. Qed.

(** *** [formatBytes] *)

Lemma printFixed_decimals m digits :
  digits <> 0%nat ->
  exists a b, printFixed m digits = a ++ js "." ++ b /\ length b = digits.
Proof.
  intros Hd. unfold printFixed.
  set (padded := replicate (S digits - length (showZ m)) 48 ++ showZ m).
  assert (Hlen : (S digits <= length padded)%nat).
  { unfold padded. rewrite length_app, length_replicate. lia. }
  exists (take (length padded - digits) padded),
         (drop (length padded - digits) padded).
  destruct digits; [done|]. split; [done|].
  rewrite length_drop. lia.
Qed.

Lemma scale_closed n :
  (0 <= n)%Z ->
  exists size,
    scale (length units - 1) (inject_Z n) 0 = (size, unitIndexOf n)
    /\ Qnum size = n
    /\ Zpos (Qden size) = (1024 ^ Z.of_nat (unitIndexOf n))%Z.
Proof.
  intros Hn. unfold unitIndexOf.
  change (length units - 1)%nat with 3%nat.
  cbn [scale]. unfold Qle_bool, Qdiv, Qmult, Qinv, inject_Z. cbn [Qnum Qden].
  repeat match goal with
         | |- context [(?a <=? ?b)%Z] => destruct (Z.leb_spec a b)
         | |- context [(?a <? ?b)%Z] => destruct (Z.ltb_spec a b)
         end; try lia;
    (eexists; split_and!; [reflexivity|simpl; lia|reflexivity]).
Qed.

(** C8 (as amended): [formatBytes] scales a byte count by 1024 across
    B/KB/MB/GB; the scaled value is printed without decimals when it is an
    integer, else rounded to one decimal when it is at least 10 and to two
    decimals when it is below 10. *)
Theorem formatBytes_scaled n :
  (0 <= n < 2 ^ 53)%Z ->
  let k := unitIndexOf n in
  let D := (1024 ^ Z.of_nat k)%Z in
  exists body,
    formatBytes (Some n) = body ++ js " " ++ nth k units []
    /\ if (n mod D =? 0)%Z then body = showZ (n / D)
       else
         let digits := decimalsOf n D in
         body = printFixed ((2 * n * 10 ^ Z.of_nat digits + D) / (2 * D)) digits
         /\ exists a b, body = a ++ js "." ++ b /\ length b = digits.
Proof.
  intros [Hn _] k D.
  destruct (scale_closed n Hn) as ([num den] & Hs & Hnum & Hden).
  cbn [Qnum Qden] in Hnum, Hden. subst num. fold k in Hs, Hden. fold D in Hden.
  unfold formatBytes. rewrite Hs.
  assert (HD : (0 < D)%Z) by (rewrite <- Hden; lia).
  eexists. split; [reflexivity|].
  unfold isInteger. cbn [Qnum Qden]. rewrite Hden.
  rewrite Z.rem_mod_nonneg by lia.
  destruct (n mod D =? 0)%Z eqn:Hex.
  - unfold Qfloor. by rewrite Hden.
  - assert (Hdig : (if Qle_bool 10 (n # den) then 1 else 2)%nat
                   = decimalsOf n D).
    { unfold Qle_bool, decimalsOf. cbn [Qnum Qden]. rewrite Hden.
      by replace (n * 1)%Z with n by lia. }
    rewrite Hdig. set (digits := decimalsOf n D).
    assert (Hfix : toFixed (n # den) digits
                   = printFixed ((2 * n * 10 ^ Z.of_nat digits + D) / (2 * D))
                       digits).
    { unfold toFixed. cbn [Qnum].
      destruct (Z.ltb_spec n 0) as [|_]; [lia|]. simpl app. f_equal.
      unfold Qfloor, Qplus, Qmult, Qabs, inject_Z. cbn [Qnum Qden].
      rewrite !Pos2Z.inj_mul, Hden, Z.abs_eq by lia.
      f_equal; lia. }
    split; [done|]. rewrite Hfix. apply printFixed_decimals.
    unfold digits, decimalsOf. by destruct (10 * D <=? n)%Z.
Qed.

Lemma formatBytes_scaled_witness :
  formatBytes (Some 1536%Z) = js "1.50 KB"
  /\ exists body,
      formatBytes (Some 1536%Z) = body ++ js " " ++ js "KB"
      /\ body = printFixed 150 2
      /\ exists a b, body = a ++ js "." ++ b /\ length b = 2%nat.
Proof.
  split; [reflexivity|].
  assert (H : (0 <= 1536 < 2 ^ 53)%Z) by lia.
  destruct (formatBytes_scaled 1536 H) as (body & Hb & Hr).
  exists body. split; [exact Hb|]. exact Hr.
Defined.

(** C8 (as stated) fails: below 10 the scaled value gets two decimals. *)
Lemma formatBytes_1536_two_decimals :
  formatBytes (Some 1536%Z) = js "1.50 KB"
  /\ formatBytes (Some 1536%Z) <> js "1.5 KB".
Proof. split; [reflexivity|]. by vm_compute. Qed.

Example formatBytes_0 : formatBytes (Some 0%Z) = js "0 B".
Proof. reflexivity. Qed.

Example formatBytes_15360 : formatBytes (Some 15360%Z) = js "15 KB".
Proof. reflexivity. Qed.

Example formatBytes_15365 : formatBytes (Some 15365%Z) = js "15.0 KB".
Proof. reflexivity. Qed.

(** *** [buildArchiveFilename] *)

Lemma sanitizeFilename_nonEmpty name fallback :
  nonEmpty fallback = true -> nonEmpty (sanitizeFilename name fallback) = true.
Proof.
  intros Hf. unfold sanitizeFilename.
  destruct name as [[|c n]|]; try done.
  by destruct (trim _).
Qed.

(** C9, the code at the failing input: the base of the archive name is
    never ["dccon"]. [sanitizeFilename] is called without a fallback, so an
    empty or missing title comes back as ["untitled"], which is not empty,
    and the alternative [|| 'dccon'] is never taken. *)
Theorem buildArchiveFilename_untitled :
  buildArchiveFilename (Some []) (Some (js "42")) = js "untitled_42.zip"
  /\ buildArchiveFilename None (Some (js "42")) = js "untitled_42.zip"
  /\ forall title packageId,
      buildArchiveFilename title packageId
      = sanitizeFilename title (js "untitled")
          ++ (if truthy packageId then js "_" ++ default [] packageId else [])
          ++ js ".zip".
Proof.
  split; [reflexivity|]. split; [reflexivity|].
  intros title packageId. unfold buildArchiveFilename.
  by rewrite (sanitizeFilename_nonEmpty title defaultFallback).
Qed.

Example sanitizeFilename_korean :
  sanitizeFilename (Some (js "  디시콘/팩:1  ")) (js "untitled")
  = js "디시콘 팩 1".
Proof. reflexivity. Qed.

Example buildArchiveFilename_hostile :
  buildArchiveFilename (Some (js "My:Pack*")) (Some (js "42"))
  = js "My Pack_42.zip".
Proof. reflexivity. Qed.

End UtilsFacts.

Module JobQueueFacts.

Import Utils JobQueue.

(** *** The [Map] of jobs *)

Section JsMapFacts.

Context {V : Type}.
Implicit Types (m : list (JobId * V)) (k : JobId).

Lemma get_set_eq k v m : get k (set k v m) = Some v.
Proof.
  induction m as [|[k' v'] m IH]; simpl.
  - by rewrite decide_True.
  - destruct (decide (k' = k)) as [->|Hne]; simpl.
    + by rewrite decide_True.
    + by rewrite decide_False.
Qed.

Lemma get_set_ne k k' v m : k <> k' -> get k' (set k v m) = get k' m.
Proof.
  intros Hne. induction m as [|[k0 v0] m IH]; simpl.
  - by rewrite decide_False.
  - destruct (decide (k0 = k)) as [->|Hne0]; simpl.
    + by rewrite !decide_False.
    + by rewrite IH.
Qed.

Lemma get_del k k' m :
  get k' (del k m) = if decide (k = k') then None else get k' m.
Proof.
  induction m as [|[k0 v0] m IH]; simpl.
  - by destruct (decide (k = k')).
  - destruct (decide (k0 = k)) as [->|Hne0]; simpl.
    + rewrite IH. destruct (decide (k = k')); [done|]. done.
    + rewrite IH. destruct (decide (k0 = k')) as [->|];
        [by rewrite decide_False|done].
Qed.

Lemma get_mutate f k k' m :
  get k' (mutate f k m) = if decide (k = k') then f <$> get k' m else get k' m.
Proof.
  induction m as [|[k0 v0] m IH]; simpl.
  - by destruct (decide (k = k')).
  - destruct (decide (k0 = k)) as [->|Hne0]; simpl.
    + by destruct (decide (k = k')).
    + rewrite IH. destruct (decide (k0 = k')) as [->|];
        [by rewrite decide_False|done].
Qed.

Lemma get_None_keys k m : get k m = None <-> k ∉ map fst m.
Proof.
  induction m as [|[k0 v0] m IH]; simpl.
  - split; [intros _; apply not_elem_of_nil|done].
  - rewrite not_elem_of_cons. destruct (decide (k0 = k)) as [->|Hne].
    + split; [done|]. by intros [? _].
    + rewrite IH. split; [by split|by intros [_ ?]].
Qed.

Lemma get_Some_keys k v m : get k m = Some v -> k ∈ map fst m.
Proof.
  intros Hg. destruct (decide (k ∈ map fst m)) as [|Hn]; [done|].
  apply get_None_keys in Hn. congruence.
Qed.

Lemma keys_set_fresh k v m :
  get k m = None -> map fst (set k v m) = map fst m ++ [k].
Proof.
  induction m as [|[k0 v0] m IH]; simpl; [done|].
  destruct (decide (k0 = k)); [done|]. intros Hg. simpl. by rewrite IH.
Qed.

Lemma keys_del_elem k k' m : k' ∈ map fst (del k m) -> k' ∈ map fst m.
Proof.
  induction m as [|[k0 v0] m IH]; simpl; [done|].
  destruct (decide (k0 = k)); simpl.
  - intros ?. apply elem_of_cons. right. by apply IH.
  - rewrite !elem_of_cons. intros [->|?]; [by left|right; by apply IH].
Qed.

Lemma keys_del_NoDup k m : NoDup (map fst m) -> NoDup (map fst (del k m)).
Proof.
  induction m as [|[k0 v0] m IH]; simpl; [done|].
  rewrite NoDup_cons. intros [Hn Hd].
  destruct (decide (k0 = k)); simpl; [by apply IH|].
  apply NoDup_cons. split; [|by apply IH].
  intros Hin. apply Hn. by eapply keys_del_elem.
Qed.

Lemma keys_mutate f k m : map fst (mutate f k m) = map fst m.
Proof.
  induction m as [|[k0 v0] m IH]; simpl; [done|].
  destruct (decide (k0 = k)); simpl; [done|]. by rewrite IH.
Qed.

Lemma length_del k m : (length (del k m) <= length m)%nat.
Proof.
  induction m as [|[k0 v0] m IH]; simpl; [lia|].
  destruct (decide (k0 = k)); simpl; lia.
Qed.

Lemma length_del_Some k v m :
  get k m = Some v -> (length (del k m) < length m)%nat.
Proof.
  induction m as [|[k0 v0] m IH]; simpl; [done|].
  destruct (decide (k0 = k)); simpl.
  - intros _. pose proof (length_del k m). lia.
  - intros Hg. specialize (IH Hg). lia.
Qed.

End JsMapFacts.

(** *** Invariants of the registry *)

Lemma shrinks_refl st : shrinks st st.
Proof. by split. Qed.

Lemma shrinks_trans st1 st2 st3 :
  shrinks st1 st2 -> shrinks st2 st3 -> shrinks st1 st3.
Proof.
  intros [J1 M1 Q1] [J2 M2 Q2]. split.
  - intros id j H. by apply J1, J2.
  - congruence.
  - intros H. by apply Q2, Q1.
Qed.

Lemma removeFirst_elem (id x : JobId) order :
  x ∈ removeFirst id order -> x ∈ order.
Proof.
  induction order as [|y order IH]; simpl; [done|].
  destruct (decide (y = id)).
  - intros ?. by apply elem_of_cons; right.
  - rewrite !elem_of_cons. intros [->|?]; [by left|right; by apply IH].
Qed.

Lemma removeFirst_NoDup (id : JobId) order :
  NoDup order -> NoDup (removeFirst id order) /\ id ∉ removeFirst id order.
Proof.
  induction order as [|y order IH]; simpl.
  - intros _. split; [constructor|apply not_elem_of_nil].
  - rewrite NoDup_cons. intros [Hy Hd]. destruct (IH Hd) as [IH1 IH2].
    destruct (decide (y = id)) as [->|Hne]; [done|]. split.
    + apply NoDup_cons. split; [|done].
      intros Hin. apply Hy. by eapply removeFirst_elem.
    + rewrite not_elem_of_cons. by split.
Qed.

Lemma scrub_nil_inv (id : JobId) q : q = [] -> scrub id q = [].
Proof. by intros ->. Qed.

Lemma lookup_spliceOrder sid id sj sid' :
  spliceOrder sid id sj !! sid'
  = if decide (sid = sid')
    then match sj !! sid with
         | Some order =>
           match removeFirst id order with [] => None | o => Some o end
         | None => None
         end
    else sj !! sid'.
Proof.
  unfold spliceOrder. destruct (sj !! sid) as [order|] eqn:Hs.
  - destruct (removeFirst id order) as [|x o] eqn:Hr.
    + destruct (decide (sid = sid')) as [->|Hne].
      * by rewrite lookup_delete_eq.
      * by rewrite lookup_delete_ne.
    + destruct (decide (sid = sid')) as [->|Hne].
      * by rewrite lookup_insert_eq.
      * by rewrite lookup_insert_ne.
  - destruct (decide (sid = sid')) as [->|Hne]; done.
Qed.

(** What [removeJob] does, in its two outcomes. *)
Lemma removeJob_cases id st :
  (removeJob id st = (false, st)
   /\ forall j, get id (jobs st) = Some j -> job_status j = Processing)
  \/ (exists j,
        get id (jobs st) = Some j /\ job_status j <> Processing
        /\ removeJob id st
           = (true,
              {| jobs := del id (jobs st);
                 sessionJobs :=
                   spliceOrder (job_sessionId j) id (sessionJobs st);
                 queue := scrub id (queue st);
                 processingJob := processingJob st |})).
Proof.
  unfold removeJob. destruct (get id (jobs st)) as [job|] eqn:Hg.
  - destruct (decide (job_status job = Processing)) as [Hp|Hp].
    + left. split; [done|]. by intros j [= <-].
    + right. by exists job.
  - left. by split.
Qed.

Lemma removeJob_shrinks id st : shrinks st (snd (removeJob id st)).
Proof.
  destruct (removeJob_cases id st) as [[-> _]|(j & Hg & Hp & ->)];
    [apply shrinks_refl|].
  split; simpl; [|done|by intros ->].
  intros k jk. rewrite get_del. by destruct (decide (id = k)).
Qed.

Lemma removeJob_Inv id st : Inv st -> Inv (snd (removeJob id st)).
Proof.
  intros HI.
  destruct (removeJob_cases id st) as [[-> _]|(job & Hg & Hp & ->)]; [done|].
  destruct HI as [Hk Hid Hpr Hm Ho]. split; simpl.
  - by apply keys_del_NoDup.
  - intros k j. rewrite get_del. destruct (decide (id = k)); [done|]. apply Hid.
  - intros k j. rewrite get_del. destruct (decide (id = k)); [done|]. apply Hpr.
  - intros k Hk'. destruct (Hm k Hk') as (j & Hj & Hs). exists j.
    rewrite get_del. destruct (decide (id = k)) as [->|]; [congruence|done].
  - intros sid order. rewrite lookup_spliceOrder.
    destruct (decide (job_sessionId job = sid)) as [<-|Hne].
    + destruct (sessionJobs st !! job_sessionId job) as [o|] eqn:Hs; [|done].
      destruct (Ho _ _ Hs) as (_ & Hnd & Hall).
      destruct (removeFirst_NoDup id o Hnd) as [Hnd' Hnot].
      destruct (removeFirst id o) as [|x o'] eqn:Hr; [done|].
      intros [= <-]. split; [done|]. split; [done|].
      intros k Hin. destruct (Hall k) as (j & Hj & Hsj).
      { eapply removeFirst_elem. by rewrite Hr. }
      exists j. rewrite get_del.
      destruct (decide (id = k)) as [->|]; [done|]. done.
    + intros Hs. destruct (Ho _ _ Hs) as (Hne' & Hnd & Hall).
      split; [done|]. split; [done|].
      intros k Hin. destruct (Hall k Hin) as (j & Hj & Hsj).
      exists j. rewrite get_del.
      destruct (decide (id = k)) as [->|]; [congruence|done].
Qed.

(** *** TTL cleanup *)

Lemma expired_not_live now j :
  expired now j = true ->
  job_status j <> Processing /\ job_status j <> Queued.
Proof. unfold expired. by destruct (job_status j). Qed.

Lemma cleanupEntry_get now st k id :
  get id (jobs (cleanupEntry now st k))
  = match get id (jobs st) with
    | Some j => if decide (k = id)
                then if expired now j then None else Some j
                else Some j
    | None => None
    end.
Proof.
  unfold cleanupEntry. destruct (get k (jobs st)) as [job|] eqn:Hk.
  - destruct (expired now job) eqn:He.
    + destruct (removeJob_cases k st) as [[_ Hp]|(j & Hg & Hp & ->)].
      * apply expired_not_live in He. destruct He as [He _].
        by specialize (Hp _ Hk).
      * simpl. rewrite get_del. destruct (decide (k = id)) as [<-|].
        -- rewrite Hk. by rewrite He.
        -- by destruct (get id (jobs st)).
    + destruct (decide (k = id)) as [<-|].
      * by rewrite Hk, He.
      * by destruct (get id (jobs st)).
  - destruct (decide (k = id)) as [<-|].
    + by rewrite Hk.
    + by destruct (get id (jobs st)).
Qed.

Lemma cleanupFold_get now l st id :
  get id (jobs (foldl (cleanupEntry now) st l))
  = match get id (jobs st) with
    | Some j => if decide (id ∈ l)
                then if expired now j then None else Some j
                else Some j
    | None => None
    end.
Proof.
  revert st. induction l as [|k l IH]; intros st.
  - simpl. destruct (get id (jobs st)); [|done].
    by destruct (decide (id ∈ [])) as [?%elem_of_nil|].
  - cbn [foldl]. rewrite IH, cleanupEntry_get.
    destruct (get id (jobs st)) as [j|]; [|done].
    destruct (decide (k = id)) as [->|Hne];
      destruct (decide (id ∈ l)) as [Hl|Hl];
      destruct (decide (id ∈ _ :: l)) as [Hkl|Hkl];
      destruct (expired now j) eqn:He; rewrite ?He; try done;
      try (exfalso; apply Hkl; rewrite elem_of_cons; by auto).
    all: apply elem_of_cons in Hkl as [->|?]; done.
Qed.

(** The registry after the cleanup: the expired jobs are gone, every other
    job is there unchanged. *)
Lemma cleanup_get now st id :
  get id (jobs (cleanupExpiredJobs now st))
  = match get id (jobs st) with
    | Some j => if expired now j then None else Some j
    | None => None
    end.
Proof.
  unfold cleanupExpiredJobs. rewrite cleanupFold_get.
  destruct (get id (jobs st)) as [j|] eqn:Hg; [|done].
  by rewrite decide_True by (by eapply get_Some_keys).
Qed.

Lemma cleanupEntry_shrinks now st k : shrinks st (cleanupEntry now st k).
Proof.
  unfold cleanupEntry. destruct (get k (jobs st)); [|apply shrinks_refl].
  destruct (expired now j); [apply removeJob_shrinks|apply shrinks_refl].
Qed.

Lemma cleanupEntry_Inv now st k : Inv st -> Inv (cleanupEntry now st k).
Proof.
  intros HI. unfold cleanupEntry. destruct (get k (jobs st)); [|done].
  destruct (expired now j); [by apply removeJob_Inv|done].
Qed.

Lemma cleanup_shrinks now st : shrinks st (cleanupExpiredJobs now st).
Proof.
  unfold cleanupExpiredJobs. generalize (map fst (jobs st)) as l.
  intros l. revert st. induction l as [|k l IH]; intros st; simpl.
  - apply shrinks_refl.
  - eapply shrinks_trans; [apply cleanupEntry_shrinks|apply IH].
Qed.

Lemma cleanup_Inv now st : Inv st -> Inv (cleanupExpiredJobs now st).
Proof.
  unfold cleanupExpiredJobs. generalize (map fst (jobs st)) as l.
  intros l. revert st. induction l as [|k l IH]; intros st HI; simpl; [done|].
  by apply IH, cleanupEntry_Inv.
Qed.

(** *** The retention cap *)

Lemma trimLoop_shrinks turns sid st : shrinks st (trimLoop turns sid st).
Proof.
  revert st. induction turns as [|turns IH]; intros st; simpl;
    [apply shrinks_refl|].
  destruct (sessionJobs st !! sid) as [[|oldest rest]|];
    try apply shrinks_refl.
  destruct (_ <? _)%nat; [|apply shrinks_refl].
  pose proof (removeJob_shrinks oldest st) as Hs.
  destruct (removeJob oldest st) as [[] st']; simpl in Hs; [|done].
  eapply shrinks_trans; [exact Hs|apply IH].
Qed.

Lemma trimLoop_Inv turns sid st : Inv st -> Inv (trimLoop turns sid st).
Proof.
  revert st. induction turns as [|turns IH]; intros st HI; simpl; [done|].
  destruct (sessionJobs st !! sid) as [[|oldest rest]|]; try done.
  destruct (_ <? _)%nat; [|done].
  pose proof (removeJob_Inv oldest st HI) as Hs.
  destruct (removeJob oldest st) as [[] st']; simpl in Hs; [|done].
  by apply IH.
Qed.

(** The loop of [trimSessionJobs] on a well-formed registry: it evicts a
    prefix of the session order, oldest first, never a processing job, and
    stops under the cap or in front of a processing job. *)
Lemma trimLoop_spec turns sid st order :
  Inv st ->
  sessionJobs st !! sid = Some order ->
  (length (jobs st) < turns)%nat ->
  exists evicted kept,
    order = evicted ++ kept
    /\ sessionJobs (trimLoop turns sid st) !! sid = Some kept
    /\ (forall id,
          get id (jobs (trimLoop turns sid st))
          = if decide (id ∈ evicted) then None else get id (jobs st))
    /\ (forall id, id ∈ evicted ->
                   exists j, get id (jobs st) = Some j
                             /\ job_status j <> Processing)
    /\ ((length kept <= MAX_STORED_JOBS_PER_SESSION)%nat
        \/ exists oldest rest j,
            kept = oldest :: rest /\ get oldest (jobs st) = Some j
            /\ job_status j = Processing)
    /\ (evicted <> [] -> (MAX_STORED_JOBS_PER_SESSION <= length kept)%nat).
Proof.
  revert st order. induction turns as [|turns IH]; intros st order HI Hs Hlen;
    [lia|].
  cbn [trimLoop]. rewrite Hs.
  destruct (inv_order _ HI _ _ Hs) as (Hne & Hnd & Hall).
  destruct order as [|oldest rest]; [done|].
  destruct (Nat.ltb_spec MAX_STORED_JOBS_PER_SESSION (length (oldest :: rest)))
    as [Hover|Hunder].
  - destruct (Hall oldest) as (j0 & Hj0 & Hsid0); [apply list_elem_of_here|].
    destruct (removeJob_cases oldest st) as [[Hr Hp]|(j & Hg & Hp & Hr)];
      rewrite Hr.
    + exists [], (oldest :: rest).
      split_and!; [done|done| |by intros id ?%elem_of_nil| |done].
      * intros id. by destruct (decide (id ∈ [])) as [?%elem_of_nil|].
      * right. exists oldest, rest, j0. split_and!; [done|done|by apply Hp].
    + assert (j = j0) as -> by congruence.
      set (st' := {| jobs := del oldest (jobs st);
                     sessionJobs :=
                       spliceOrder (job_sessionId j0) oldest (sessionJobs st);
                     queue := scrub oldest (queue st);
                     processingJob := processingJob st |}).
      assert (HI' : Inv st').
      { pose proof (removeJob_Inv oldest st HI) as H. by rewrite Hr in H. }
      assert (Hs' : sessionJobs st' !! sid = Some rest).
      { simpl. rewrite lookup_spliceOrder, Hsid0, decide_True, Hs by done.
        simpl. rewrite decide_True by done.
        destruct rest; [simpl in Hover; unfold MAX_STORED_JOBS_PER_SESSION in *;
                        lia|done]. }
      assert (Hlen' : (length (jobs st') < turns)%nat).
      { simpl. pose proof (length_del_Some _ _ _ Hj0). lia. }
      destruct (IH st' rest HI' Hs' Hlen')
        as (evicted & kept & -> & Hk & Hget & Hev & Hstop & Hmin).
      exists (oldest :: evicted), kept. split_and!; [done|done|..].
      * intros id. rewrite Hget. simpl. rewrite get_del.
        destruct (decide (id ∈ evicted)) as [Hin|Hnin].
        -- by rewrite decide_True by (by apply list_elem_of_further).
        -- destruct (decide (oldest = id)) as [->|Hne'].
           ++ by rewrite decide_True by apply list_elem_of_here.
           ++ rewrite decide_False; [done|].
              rewrite not_elem_of_cons. by split.
      * intros id [->|Hin]%elem_of_cons; [by exists j0|].
        destruct (Hev id Hin) as (j & Hj & Hpj). exists j. split; [|done].
        simpl in Hj. rewrite get_del in Hj.
        by destruct (decide (oldest = id)).
      * destruct Hstop as [?|(o & r & j & -> & Hj & Hpj)]; [by left|].
        right. exists o, r, j. split_and!; [done| |done].
        simpl in Hj. rewrite get_del in Hj.
        by destruct (decide (oldest = o)).
      * intros _. destruct evicted as [|e evicted]; [|by apply Hmin].
        simpl in Hover |- *. lia.
  - exists [], (oldest :: rest).
    split_and!; [done|done| |by intros id ?%elem_of_nil|by left|done].
    intros id. by destruct (decide (id ∈ [])) as [?%elem_of_nil|].
Qed.

(** *** The worker *)

Lemma truthy_marker st :
  Inv st -> truthy (processingJob st) = false -> processingJob st = None.
Proof.
  intros HI Ht. destruct (processingJob st) as [id|] eqn:Hm; [|done].
  destruct (inv_marker _ HI _ Hm) as (j & Hj & _).
  destruct (inv_id _ HI _ _ Hj) as [_ Hne]. by destruct id.
Qed.

(** The outcomes of [processQueue]: nothing to do, a stale id skipped, or
    the job at the head of the queue started. *)
Lemma processQueue_cases now st :
  Inv st ->
  ((processingJob st <> None \/ queue st = []) /\ processQueue now st = st)
  \/ (exists next rest,
        processingJob st = None /\ queue st = next :: rest
        /\ (forall j, get next (jobs st) = Some j -> job_status j <> Queued)
        /\ processQueue now st
           = {| jobs := jobs st; queue := rest;
                sessionJobs := sessionJobs st;
                processingJob := processingJob st |})
  \/ (exists next rest job,
        processingJob st = None /\ queue st = next :: rest
        /\ get next (jobs st) = Some job /\ job_status job = Queued
        /\ processQueue now st
           = {| jobs := mutate (startJob now) next (jobs st); queue := rest;
                sessionJobs := sessionJobs st;
                processingJob := Some next |}).
Proof.
  intros HI. unfold processQueue.
  destruct (truthy (processingJob st)) eqn:Ht.
  { left. split; [|done]. left. by destruct (processingJob st). }
  apply truthy_marker in Ht; [|done].
  destruct (queue st) as [|next rest] eqn:Hq; [left; by split; [right|]|].
  simpl.
  destruct (get next (jobs st)) as [job|] eqn:Hg.
  - destruct (decide (job_status job = Queued)) as [Hs|Hs].
    + right. right. exists next, rest, job.
      destruct (inv_id _ HI _ _ Hg) as [-> _]. by split_and!.
    + right. left. exists next, rest. split_and!; try done.
      intros j Hj. congruence.
  - right. left. exists next, rest. split_and!; try done.
    intros j Hj. congruence.
Qed.

(** The invariant does not read the queue. *)
Lemma Inv_queue st q :
  Inv st ->
  Inv {| jobs := jobs st; queue := q; sessionJobs := sessionJobs st;
         processingJob := processingJob st |}.
Proof. intros [? ? ? ? ?]. by split. Qed.

(** A mutation of one job that keeps its identity keeps the invariant, as
    long as the marker agrees with the statuses. *)
Lemma Inv_mutate st f id q marker :
  Inv st ->
  (forall j, job_id (f j) = job_id j) ->
  (forall j, job_sessionId (f j) = job_sessionId j) ->
  (forall k j, get k (mutate f id (jobs st)) = Some j ->
               job_status j = Processing -> marker = Some k) ->
  (forall k, marker = Some k ->
             exists j, get k (mutate f id (jobs st)) = Some j
                       /\ job_status j = Processing) ->
  Inv {| jobs := mutate f id (jobs st); queue := q;
         sessionJobs := sessionJobs st; processingJob := marker |}.
Proof.
  intros [Hk Hid Hpr Hm Ho] Hfid Hfs H1 H2. split; simpl; try done.
  - by rewrite keys_mutate.
  - intros k j. rewrite get_mutate. destruct (decide (id = k)) as [->|].
    + destruct (get k (jobs st)) as [j0|] eqn:Hg; [|done].
      intros [= <-]. rewrite Hfid. by apply Hid.
    + apply Hid.
  - intros sid order Hs. destruct (Ho _ _ Hs) as (? & ? & Hall).
    split; [done|]. split; [done|]. intros k Hin.
    destruct (Hall k Hin) as (j & Hj & Hsj). rewrite get_mutate.
    destruct (decide (id = k)) as [->|]; [|by exists j].
    exists (f j). rewrite Hj. split; [done|]. by rewrite Hfs.
Qed.

Lemma processQueue_Inv now st : Inv st -> Inv (processQueue now st).
Proof.
  intros HI.
  destruct (processQueue_cases now st HI)
    as [[_ ->]|[(next & rest & Hm & Hq & Hn & ->)
               |(next & rest & job & Hm & Hq & Hg & Hs & ->)]]; [done| |].
  - by apply Inv_queue.
  - apply Inv_mutate; try done.
    + intros k j. rewrite get_mutate.
      destruct (decide (next = k)) as [->|Hne]; [done|].
      intros Hk Hp. pose proof (inv_processing _ HI _ _ Hk Hp). congruence.
    + intros k [= <-]. exists (startJob now job).
      by rewrite get_mutate, decide_True, Hg.
Qed.

(** *** The calls of the API keep the invariant *)

Lemma register_Inv job st :
  Inv st ->
  get (job_id job) (jobs st) = None ->
  job_id job <> [] ->
  job_status job = Queued ->
  Inv (register job st).
Proof.
  intros [Hk Hid Hpr Hm Ho] Hfresh Hne Hq. split; simpl.
  - rewrite keys_set_fresh by done. apply NoDup_app. split_and!; [done| |].
    + intros k Hin ->%list_elem_of_singleton. by apply get_None_keys in Hfresh.
    + apply NoDup_singleton.
  - intros k j. destruct (decide (job_id job = k)) as [<-|Hnk].
    + rewrite get_set_eq. by intros [= <-].
    + rewrite get_set_ne by done. apply Hid.
  - intros k j. destruct (decide (job_id job = k)) as [<-|Hnk].
    + rewrite get_set_eq. intros [= <-]. congruence.
    + rewrite get_set_ne by done. apply Hpr.
  - intros k Hk'. destruct (Hm k Hk') as (j & Hj & Hs). exists j.
    rewrite get_set_ne; [done|]. intros <-. congruence.
  - intros sid order.
    destruct (decide (job_sessionId job = sid)) as [<-|Hns].
    + rewrite lookup_insert_eq. intros [= <-].
      assert (Hold : forall k,
                 k ∈ default [] (sessionJobs st !! job_sessionId job) ->
                 exists j, get k (jobs st) = Some j
                           /\ job_sessionId j = job_sessionId job).
      { destruct (sessionJobs st !! job_sessionId job) as [o|] eqn:Hs;
          simpl; [|by intros k ?%elem_of_nil].
        by destruct (Ho _ _ Hs) as (_ & _ & Hall). }
      split; [by destruct (default _ _)|]. split.
      * apply NoDup_app. split_and!.
        -- destruct (sessionJobs st !! job_sessionId job) as [o|] eqn:Hs;
             simpl; [|constructor].
           by destruct (Ho _ _ Hs) as (_ & ? & _).
        -- intros k Hin ->%list_elem_of_singleton.
           destruct (Hold _ Hin) as (j & Hj & _). congruence.
        -- apply NoDup_singleton.
      * intros k [Hin| ->%list_elem_of_singleton]%elem_of_app.
        -- destruct (Hold _ Hin) as (j & Hj & Hsj). exists j.
           rewrite get_set_ne; [done|]. intros <-. congruence.
        -- exists job. by rewrite get_set_eq.
    + rewrite lookup_insert_ne by done. intros Hs.
      destruct (Ho _ _ Hs) as (? & ? & Hall). split; [done|]. split; [done|].
      intros k Hin. destruct (Hall k Hin) as (j & Hj & Hsj). exists j.
      rewrite get_set_ne; [done|]. intros <-. congruence.
Qed.

Lemma listLoop_snd m order :
  (forall id, id ∈ order -> is_Some (get id m)) ->
  snd (listLoop m order) = order.
Proof.
  induction order as [|id order IH]; simpl; [done|]. intros Hall.
  destruct (listLoop m order) as [vis ord] eqn:Hl. simpl in IH.
  destruct (Hall id) as [j Hj]; [apply list_elem_of_here|]. rewrite Hj. simpl.
  f_equal. apply IH. intros k Hk. apply Hall. by apply list_elem_of_further.
Qed.

(** Every job shown by [listJobs] is the projection of a job of the order. *)
Lemma listLoop_fst m order pj :
  pj ∈ fst (listLoop m order) ->
  exists id j, id ∈ order /\ get id m = Some j /\ pj = toPublicJob j.
Proof.
  induction order as [|id order IH]; simpl; [by intros ?%elem_of_nil|].
  destruct (listLoop m order) as [vis ord] eqn:Hl. simpl in IH.
  destruct (get id m) as [j|] eqn:Hj; simpl.
  - intros [->|Hin]%elem_of_cons.
    + exists id, j. split_and!; [apply list_elem_of_here|done|done].
    + destruct (IH Hin) as (k & jk & ? & ? & ?). exists k, jk.
      split_and!; [by apply list_elem_of_further|done|done].
  - intros Hin. destruct (IH Hin) as (k & jk & ? & ? & ?). exists k, jk.
    split_and!; [by apply list_elem_of_further|done|done].
Qed.

Lemma get_register job st id :
  get id (jobs (register job st))
  = if decide (id = job_id job) then Some job else get id (jobs st).
Proof.
  simpl. destruct (decide (id = job_id job)) as [->|Hne].
  - apply get_set_eq.
  - by apply get_set_ne.
Qed.

(** [createJob] between the registration of the new job and the kick of the
    worker: what [trimSessionJobs] evicts and what it keeps. *)
Lemma register_trim_spec job st :
  Inv st ->
  get (job_id job) (jobs st) = None ->
  job_id job <> [] ->
  job_status job = Queued ->
  let v := job_sessionId job in
  let old := default [] (sessionJobs st !! v) in
  let st3 := trimSessionJobs v (register job st) in
  exists evicted kept,
    old ++ [job_id job] = evicted ++ kept
    /\ sessionJobs st3 !! v = Some kept
    /\ (job_id job ∉ evicted)
    /\ (forall id,
          get id (jobs st3)
          = if decide (id ∈ evicted) then None
            else if decide (id = job_id job) then Some job
                 else get id (jobs st))
    /\ (forall id, id ∈ evicted ->
                   exists j, get id (jobs st) = Some j
                             /\ job_status j <> Processing)
    /\ ((length kept <= MAX_STORED_JOBS_PER_SESSION)%nat
        \/ exists oldest rest j,
            kept = oldest :: rest /\ get oldest (jobs st) = Some j
            /\ job_status j = Processing)
    /\ (evicted <> [] -> (MAX_STORED_JOBS_PER_SESSION <= length kept)%nat).
Proof.
  intros HI Hfresh Hne Hq v old st3.
  pose proof (register_Inv job st HI Hfresh Hne Hq) as HI2.
  assert (Hs2 : sessionJobs (register job st) !! v = Some (old ++ [job_id job]))
    by (simpl; apply lookup_insert_eq).
  destruct (trimLoop_spec (S (length (jobs (register job st)))) v
              (register job st) _ HI2 Hs2)
    as (evicted & kept & Happ & Hk & Hget & Hev & Hstop & Hmin); [lia|].
  fold (trimSessionJobs v (register job st)) in Hk, Hget. fold st3 in Hk, Hget.
  assert (HI3 : Inv st3) by (by apply trimLoop_Inv).
  destruct (inv_order _ HI3 _ _ Hk) as (Hkne & _ & _).
  destruct (inv_order _ HI2 _ _ Hs2) as (_ & Hnd & _).
  assert (Hnotin : job_id job ∉ evicted).
  { rewrite Happ in Hnd. apply NoDup_app in Hnd as (_ & Hdisj & _).
    intros Hin. apply (Hdisj _ Hin).
    destruct (exists_last Hkne) as (k' & x & ->).
    rewrite app_assoc in Happ. apply app_inj_tail in Happ as [_ <-].
    apply elem_of_app. right. apply list_elem_of_here. }
  exists evicted, kept. split_and!; try done.
  - intros id. rewrite Hget, get_register.
    by destruct (decide (id ∈ evicted)).
  - intros id Hin. destruct (Hev id Hin) as (j & Hj & Hp). exists j.
    rewrite get_register in Hj.
    destruct (decide (id = job_id job)) as [->|]; [done|]. done.
  - destruct Hstop as [?|(o & r & j & -> & Hj & Hp)]; [by left|]. right.
    exists o, r, j. split_and!; [done| |done].
    rewrite get_register in Hj.
    destruct (decide (o = job_id job)) as [->|]; [|done]. congruence.
Qed.

Section ServiceFacts.

Variable parseURL : jsstring -> option URL.

(** On a well-formed registry [listJobs] finds no stale id: its only
    effect is the cleanup. *)
Lemma listJobs_state sessionId now st :
  Inv st ->
  snd (listJobs sessionId now st)
  = match assertSessionId sessionId with
    | inl _ => st
    | inr _ => cleanupExpiredJobs now st
    end.
Proof.
  intros HI. unfold listJobs.
  destruct (assertSessionId sessionId) as [e|v]; [done|].
  pose proof (cleanup_Inv now st HI) as HI1.
  set (st1 := cleanupExpiredJobs now st) in *.
  destruct (sessionJobs st1 !! v) as [[|id order]|] eqn:Hs; try done.
  destruct (inv_order _ HI1 _ _ Hs) as (_ & _ & Hall).
  assert (Hsnd : snd (listLoop (jobs st1) (id :: order)) = id :: order).
  { apply listLoop_snd. intros k Hk.
    destruct (Hall k Hk) as (j & -> & _). by eexists. }
  destruct (listLoop (jobs st1) (id :: order)) as [vis ord].
  simpl in Hsnd. subst ord. simpl.
  rewrite insert_id by done. by destruct st1.
Qed.

Lemma getJob_state sessionId jobId now st :
  snd (getJob sessionId jobId now st)
  = match assertSessionId sessionId with
    | inl _ => st
    | inr _ => cleanupExpiredJobs now st
    end.
Proof.
  unfold getJob. destruct (assertSessionId sessionId) as [e|v]; [done|].
  destruct (get jobId _) as [j|]; [|done]. by destruct (decide _).
Qed.

Lemma getJobDownloadData_state sessionId jobId now st :
  snd (getJobDownloadData sessionId jobId now st)
  = match assertSessionId sessionId with
    | inl _ => st
    | inr _ => cleanupExpiredJobs now st
    end.
Proof.
  unfold getJobDownloadData.
  destruct (assertSessionId sessionId) as [e|v]; [done|].
  destruct (get jobId _) as [j|]; [|done].
  destruct (decide _); [|done].
  by destruct (job_status j), (job_zip j).
Qed.

(** A successful [createJob], step by step. *)
Lemma createJob_inr url sessionId resizeValue newId now st pj st' :
  createJob parseURL url sessionId resizeValue newId now st = (inr pj, st') ->
  exists v pid,
    assertSessionId sessionId = inr v
    /\ extractPackageId parseURL (Some (trim url)) = Some pid
    /\ let job := newJob newId v (trim url) pid
                         (normalizeResizeOption resizeValue) now in
       let st3 := trimSessionJobs v
                    (register job (cleanupExpiredJobs now st)) in
       st' = processQueue now (enqueue newId st3)
       /\ pj = toPublicJob (default job (get newId (jobs st'))).
Proof.
  unfold createJob. destruct (assertSessionId sessionId) as [e|v]; [done|].
  destruct (extractPackageId parseURL (Some (trim url))) as [pid|]; [|done].
  intros [= <- <-]. by exists v, pid.
Qed.

Lemma createJob_snd url sessionId resizeValue newId now st :
  snd (createJob parseURL url sessionId resizeValue newId now st)
  = match assertSessionId sessionId with
    | inl _ => st
    | inr v =>
      match extractPackageId parseURL (Some (trim url)) with
      | None => cleanupExpiredJobs now st
      | Some pid =>
        processQueue now
          (enqueue newId
             (trimSessionJobs v
                (register (newJob newId v (trim url) pid
                                  (normalizeResizeOption resizeValue) now)
                          (cleanupExpiredJobs now st))))
      end
    end.
Proof.
  unfold createJob. destruct (assertSessionId sessionId) as [e|v]; [done|].
  by destruct (extractPackageId parseURL (Some (trim url))).
Qed.

Lemma createJob_Inv url sessionId resizeValue newId now st :
  Inv st -> newId <> [] -> get newId (jobs st) = None ->
  Inv (snd (createJob parseURL url sessionId resizeValue newId now st)).
Proof.
  intros HI Hne Hfresh. unfold createJob.
  destruct (assertSessionId sessionId) as [e|v]; [done|].
  pose proof (cleanup_Inv now st HI) as HI1.
  destruct (extractPackageId parseURL (Some (trim url))) as [pid|]; [|done].
  simpl. apply processQueue_Inv, Inv_queue, trimLoop_Inv.
  apply register_Inv; try done. simpl.
  destruct (get newId (jobs (cleanupExpiredJobs now st))) as [j|] eqn:Hg;
    [|done].
  apply (shrinks_jobs _ _ (cleanup_shrinks now st)) in Hg. congruence.
Qed.

Lemma step_Inv st st' : Inv st -> step parseURL st st' -> Inv st'.
Proof.
  intros HI Hstep. destruct Hstep.
  - by apply createJob_Inv.
  - rewrite listJobs_state by done.
    destruct (assertSessionId sessionId); [done|by apply cleanup_Inv].
  - rewrite getJob_state.
    destruct (assertSessionId sessionId); [done|by apply cleanup_Inv].
  - rewrite getJobDownloadData_state.
    destruct (assertSessionId sessionId); [done|by apply cleanup_Inv].
  - by apply processQueue_Inv.
  - destruct (inv_marker _ HI _ H) as (j & Hj & Hs).
    apply Inv_mutate; try done.
    + intros k jk. rewrite get_mutate.
      destruct (decide (jobId = k)) as [->|Hne]; [done|].
      intros Hk Hp. pose proof (inv_processing _ HI _ _ Hk Hp). congruence.
    + intros k [= <-]. exists (onProgress now p j).
      by rewrite get_mutate, decide_True, Hj.
  - destruct (inv_marker _ HI _ H) as (j & Hj & Hs).
    apply Inv_mutate; try done.
    intros k jk. rewrite get_mutate.
    destruct (decide (jobId = k)) as [->|Hne].
    + rewrite Hj. by intros [= <-].
    + intros Hk Hp. pose proof (inv_processing _ HI _ _ Hk Hp). congruence.
  - destruct (inv_marker _ HI _ H) as (j & Hj & Hs).
    apply Inv_mutate; try done.
    intros k jk. rewrite get_mutate.
    destruct (decide (jobId = k)) as [->|Hne].
    + rewrite Hj. by intros [= <-].
    + intros Hk Hp. pose proof (inv_processing _ HI _ _ Hk Hp). congruence.
Qed.

Lemma initial_Inv : Inv initial.
Proof.
  split; simpl; try done.
  - constructor.
Qed.

Lemma reachable_Inv st : reachable parseURL st -> Inv st.
Proof.
  induction 1 as [|st st' _ IH Hstep]; [apply initial_Inv|].
  by eapply step_Inv.
Qed.

(** What [createJob] hands to the worker: a well-formed registry where
    the new job is still there, queued, under the marker found at the
    call. *)
Lemma createJob_before_kick job now st :
  Inv st ->
  get (job_id job) (jobs st) = None ->
  job_id job <> [] ->
  job_status job = Queued ->
  let st4 := enqueue (job_id job)
               (trimSessionJobs (job_sessionId job)
                  (register job (cleanupExpiredJobs now st))) in
  Inv st4
  /\ processingJob st4 = processingJob st
  /\ get (job_id job) (jobs st4) = Some job
  /\ (queue st = [] -> queue st4 = [job_id job])
  /\ (forall id j, id <> job_id job ->
                   get id (jobs st4) = Some j ->
                   get id (jobs (cleanupExpiredJobs now st)) = Some j).
Proof.
  intros HI Hfresh Hne Hq st4.
  pose proof (cleanup_Inv now st HI) as HI1.
  pose proof (cleanup_shrinks now st) as [HJ1 HM1 HQ1].
  set (st1 := cleanupExpiredJobs now st) in *.
  assert (Hfresh1 : get (job_id job) (jobs st1) = None).
  { destruct (get (job_id job) (jobs st1)) eqn:Hg; [|done].
    apply HJ1 in Hg. congruence. }
  destruct (register_trim_spec job st1 HI1 Hfresh1 Hne Hq)
    as (evicted & kept & Happ & Hk & Hnotin & Hget & _).
  pose proof (trimLoop_shrinks
                (S (length (jobs (register job st1)))) (job_sessionId job)
                (register job st1)) as [_ HM3 HQ3].
  fold (trimSessionJobs (job_sessionId job) (register job st1)) in HM3, HQ3.
  split_and!.
  - apply Inv_queue, trimLoop_Inv. by apply register_Inv.
  - simpl. rewrite HM3. simpl. done.
  - unfold st4. simpl. rewrite Hget.
    rewrite decide_False, decide_True; done.
  - intros Hq0. unfold st4. simpl. rewrite HQ3; [done|]. simpl. by apply HQ1.
  - intros id j Hid. unfold st4. simpl. rewrite Hget.
    destruct (decide (id ∈ evicted)); [done|].
    by rewrite decide_False by done.
Qed.

(** [processQueue] touches one job at most: the one it starts. *)
Lemma processQueue_get now st id :
  Inv st ->
  get id (jobs (processQueue now st)) = get id (jobs st)
  \/ (exists j,
        get id (jobs st) = Some j /\ job_status j = Queued
        /\ processingJob st = None
        /\ (exists rest, queue st = id :: rest)
        /\ get id (jobs (processQueue now st)) = Some (startJob now j)
        /\ processingJob (processQueue now st) = Some id).
Proof.
  intros HI.
  destruct (processQueue_cases now st HI)
    as [[_ ->]|[(next & rest & Hm & Hq & Hn & ->)
               |(next & rest & job & Hm & Hq & Hg & Hs & ->)]];
    [by left|by left|].
  simpl. rewrite get_mutate. destruct (decide (next = id)) as [->|Hne].
  - right. exists job. rewrite Hg. split_and!; try done. by exists rest.
  - by left.
Qed.

(** C1 (as amended): a successful [createJob] returns the projection of
    the new job as it stands once the worker was kicked. It is queued with
    progress 0 when a job was already running at the call; with an idle
    worker and an empty pending queue the new job is started inside the
    call and the projection is processing with progress 0.01; no other
    outcome exists, and the job is processing only when the call made it
    the running job. *)
Theorem createJob_projection url sessionId resizeValue newId now st pj st' :
  reachable parseURL st ->
  newId <> [] ->
  get newId (jobs st) = None ->
  createJob parseURL url sessionId resizeValue newId now st = (inr pj, st') ->
  (processingJob st <> None ->
   pj_status pj = Queued /\ pj_progress pj = 0%Q)
  /\ (processingJob st = None -> queue st = [] ->
      pj_status pj = Processing /\ pj_progress pj = (1 # 100)%Q
      /\ processingJob st' = Some newId)
  /\ ((pj_status pj = Queued /\ pj_progress pj = 0%Q)
      \/ (pj_status pj = Processing /\ pj_progress pj = (1 # 100)%Q
          /\ processingJob st = None /\ processingJob st' = Some newId)).
Proof.
  intros Hreach Hne Hfresh Hc.
  pose proof (reachable_Inv _ Hreach) as HI.
  destruct (createJob_inr _ _ _ _ _ _ _ _ Hc)
    as (v & pid & Hv & Hp & Hst & Hpj).
  set (job := newJob newId v (trim url) pid
                     (normalizeResizeOption resizeValue) now) in *.
  destruct (createJob_before_kick job now st HI Hfresh Hne eq_refl)
    as (HI4 & HM4 & Hg4 & HQ4 & _).
  change (job_id job) with newId in *. change (job_sessionId job) with v in *.
  set (st4 := enqueue newId
                (trimSessionJobs v (register job (cleanupExpiredJobs now st))))
    in *.
  clearbody st4.
  assert (Hdich :
            (get newId (jobs st') = Some job
             /\ (processingJob st <> None \/ queue st <> []))
            \/ (get newId (jobs st') = Some (startJob now job)
                /\ processingJob st = None
                /\ processingJob st' = Some newId)).
  { subst st'.
    destruct (processQueue_cases now st4 HI4)
      as [[Hwhy ->]|[(next & rest & Hm & Hq & Hn & ->)
                    |(next & rest & j & Hm & Hq & Hg & Hs & ->)]].
    - left. split; [done|]. destruct Hwhy as [Hm|Hq].
      + left. congruence.
      + right. intros Hq0. rewrite (HQ4 Hq0) in Hq. done.
    - left. split; [done|]. right. intros Hq0.
      rewrite (HQ4 Hq0) in Hq. injection Hq as <- <-.
      by apply (Hn _ Hg4).
    - simpl. rewrite get_mutate. destruct (decide (next = newId)) as [->|Hnn].
      + right. rewrite Hg4. split_and!; [done|congruence|done].
      + left. split; [done|]. right. intros Hq0.
        rewrite (HQ4 Hq0) in Hq. by injection Hq as <- <-. }
  split_and!.
  - intros Hm. destruct Hdich as [[Hg _]|(_ & Hm' & _)]; [|done].
    by rewrite Hpj, Hg.
  - intros Hm Hq. destruct Hdich as [[_ [?|?]]|(Hg & _ & Hm')]; [done..|].
    by rewrite Hpj, Hg.
  - destruct Hdich as [[Hg _]|(Hg & Hm & Hm')].
    + left. by rewrite Hpj, Hg.
    + right. by rewrite Hpj, Hg.
Qed.

(** *** One job at a time *)

Lemma get_elem {V} (m : list (JobId * V)) k v :
  NoDup (map fst m) -> (k, v) ∈ m -> get k m = Some v.
Proof.
  induction m as [|[k0 v0] m IH]; simpl; [by intros _ ?%elem_of_nil|].
  rewrite NoDup_cons. intros [Hn Hd] [[= -> ->]|Hin]%elem_of_cons.
  - by rewrite decide_True.
  - rewrite decide_False; [by apply IH|].
    intros ->. apply Hn. apply list_elem_of_fmap. by exists (k, v).
Qed.

Lemma count_processing (m : list (JobId * Job)) :
  NoDup (map fst m) ->
  (forall k1 j1 k2 j2,
      get k1 m = Some j1 -> job_status j1 = Processing ->
      get k2 m = Some j2 -> job_status j2 = Processing -> k1 = k2) ->
  (length (List.filter isProcessing m) <= 1)%nat.
Proof.
  intros Hnd Huniq.
  assert (Hin : forall k1 j1 k2 j2,
             (k1, j1) ∈ m -> job_status j1 = Processing ->
             (k2, j2) ∈ m -> job_status j2 = Processing -> k1 = k2).
  { intros k1 j1 k2 j2 H1 P1 H2 P2.
    eapply Huniq; eauto using get_elem. }
  clear Huniq. induction m as [|[k v] m IH]; simpl; [lia|].
  apply NoDup_cons in Hnd as [Hk Hnd].
  assert (IH' : (length (List.filter isProcessing m) <= 1)%nat).
  { apply IH; [done|]. intros k1 j1 k2 j2 H1 P1 H2 P2.
    eapply Hin; eauto using list_elem_of_further. }
  unfold isProcessing at 1. simpl. case_bool_decide as Hv; [|done].
  destruct (List.filter isProcessing m) as [|[k' v'] l] eqn:Hf; [simpl; lia|].
  exfalso. assert (Hmem : In (k', v') (List.filter isProcessing m))
    by (rewrite Hf; by left).
  apply filter_In in Hmem as [Hm Hp]. unfold isProcessing in Hp.
  apply bool_decide_eq_true in Hp. simpl in Hp.
  apply list_elem_of_In in Hm.
  assert (k = k') as ->.
  { eapply Hin; eauto using list_elem_of_here, list_elem_of_further. }
  apply Hk. apply list_elem_of_fmap. by exists (k', v').
Qed.

(** The marker only moves between "no job" and the running job. *)
Lemma step_marker st st' id0 :
  Inv st -> step parseURL st st' -> processingJob st = Some id0 ->
  processingJob st' = Some id0 \/ processingJob st' = None.
Proof.
  intros HI Hstep Hm.
  assert (Hclean : forall now,
             processingJob (cleanupExpiredJobs now st) = Some id0).
  { intros now. by rewrite (shrinks_marker _ _ (cleanup_shrinks now st)). }
  assert (Hpq : forall now s, Inv s -> processingJob s = Some id0 ->
                              processingJob (processQueue now s) = Some id0).
  { intros now s HIs Hs.
    destruct (processQueue_cases now s HIs)
      as [[_ ->]|[(? & ? & ? & _)|(? & ? & ? & ? & _)]]; congruence. }
  destruct Hstep.
  - left. rewrite createJob_snd.
    destruct (assertSessionId sessionId) as [e|v]; [done|].
    destruct (extractPackageId _ _) as [pid|]; [|apply Hclean].
    set (job := newJob newId v (trim url) pid _ now).
    assert (Hfresh : get (job_id job) (jobs st) = None) by done.
    destruct (createJob_before_kick job now st HI Hfresh H eq_refl)
      as (HI4 & HM4 & _).
    apply Hpq; [done|]. by rewrite <- Hm.
  - left. rewrite listJobs_state by done.
    destruct (assertSessionId sessionId); [done|apply Hclean].
  - left. rewrite getJob_state.
    destruct (assertSessionId sessionId); [done|apply Hclean].
  - left. rewrite getJobDownloadData_state.
    destruct (assertSessionId sessionId); [done|apply Hclean].
  - left. by apply Hpq.
  - left. simpl. congruence.
  - by right.
  - by right.
Qed.

(** C2: in every reachable state at most one job of the registry is
    processing, and it is the job named by [processingJob]; a step that
    turns a job into a processing one finds the marker clear and sets it to
    that job. *)
Theorem single_processing st :
  reachable parseURL st ->
  (length (List.filter isProcessing (jobs st)) <= 1)%nat
  /\ (forall id j,
        get id (jobs st) = Some j -> job_status j = Processing ->
        processingJob st = Some id)
  /\ (forall st' id j',
        step parseURL st st' ->
        get id (jobs st') = Some j' -> job_status j' = Processing ->
        (forall j, get id (jobs st) = Some j -> job_status j <> Processing) ->
        truthy (processingJob st) = false
        /\ processingJob st = None /\ processingJob st' = Some id).
Proof.
  intros Hreach. pose proof (reachable_Inv _ Hreach) as HI. split_and!.
  - apply count_processing; [apply HI|].
    intros k1 j1 k2 j2 H1 P1 H2 P2.
    pose proof (inv_processing _ HI _ _ H1 P1).
    pose proof (inv_processing _ HI _ _ H2 P2). congruence.
  - apply HI.
  - intros st' id j' Hstep Hg' Hp' Hbefore.
    pose proof (step_Inv _ _ HI Hstep) as HI'.
    pose proof (inv_processing _ HI' _ _ Hg' Hp') as Hm'.
    assert (Hm : processingJob st = None).
    { destruct (processingJob st) as [id0|] eqn:Hm0; [|done]. exfalso.
      destruct (step_marker _ _ _ HI Hstep Hm0) as [Hs|Hs]; [|congruence].
      assert (id0 = id) as -> by congruence.
      destruct (inv_marker _ HI _ Hm0) as (j & Hj & Hpj).
      by apply (Hbefore j). }
    split_and!; [by rewrite Hm|done|done].
Qed.

(** *** The status of a job moves forward only *)

Lemma cleanup_same now st id j j' :
  get id (jobs st) = Some j ->
  get id (jobs (cleanupExpiredJobs now st)) = Some j' -> j' = j.
Proof.
  intros Hg Hg'. apply (shrinks_jobs _ _ (cleanup_shrinks now st)) in Hg'.
  congruence.
Qed.

Lemma step_transition st st' id j j' :
  Inv st -> step parseURL st st' ->
  get id (jobs st) = Some j -> get id (jobs st') = Some j' ->
  transition (job_status j) (job_status j').
Proof.
  intros HI Hstep Hg Hg'.
  assert (Hpq : forall now s,
             Inv s -> (forall j0, get id (jobs s) = Some j0 -> j0 = j) ->
             get id (jobs (processQueue now s)) = Some j' ->
             transition (job_status j) (job_status j')).
  { intros now s HIs Hsame Hq.
    destruct (processQueue_get now s id HIs)
      as [Heq|(j0 & Hj0 & Hs0 & _ & _ & Hstart & _)].
    - rewrite Heq in Hq. rewrite (Hsame _ Hq). constructor.
    - rewrite (Hsame _ Hj0) in *. rewrite Hstart in Hq. injection Hq as <-.
      rewrite Hs0. constructor. }
  destruct Hstep.
  - revert Hg'. rewrite createJob_snd.
    destruct (assertSessionId sessionId) as [e|v];
      [intros; replace j' with j by congruence; constructor|].
    destruct (extractPackageId _ _) as [pid|].
    + set (job := newJob newId v (trim url) pid _ now).
      assert (Hfresh : get (job_id job) (jobs st) = None) by done.
      destruct (createJob_before_kick job now st HI Hfresh H eq_refl)
        as (HI4 & _ & _ & _ & Hold).
      apply Hpq; [done|]. intros j0 Hj0.
      apply Hold in Hj0; [|intros ->; congruence].
      apply (shrinks_jobs _ _ (cleanup_shrinks now st)) in Hj0. congruence.
    + intros Hc. rewrite (cleanup_same _ _ _ _ _ Hg Hc). constructor.
  - rewrite listJobs_state in Hg' by done.
    destruct (assertSessionId sessionId).
    + replace j' with j by congruence. constructor.
    + rewrite (cleanup_same _ _ _ _ _ Hg Hg'). constructor.
  - rewrite getJob_state in Hg'.
    destruct (assertSessionId sessionId).
    + replace j' with j by congruence. constructor.
    + rewrite (cleanup_same _ _ _ _ _ Hg Hg'). constructor.
  - rewrite getJobDownloadData_state in Hg'.
    destruct (assertSessionId sessionId).
    + replace j' with j by congruence. constructor.
    + rewrite (cleanup_same _ _ _ _ _ Hg Hg'). constructor.
  - apply (Hpq now st); [done| |done]. intros; congruence.
  - simpl in Hg'. rewrite get_mutate, Hg in Hg'.
    destruct (decide (jobId = id)); injection Hg' as <-; constructor.
  - destruct (inv_marker _ HI _ H) as (j0 & Hj0 & Hp0).
    simpl in Hg'. rewrite get_mutate, Hg in Hg'.
    destruct (decide (jobId = id)) as [->|]; injection Hg' as <-;
      [|constructor].
    replace j0 with j in * by congruence. simpl. rewrite Hp0. constructor.
  - destruct (inv_marker _ HI _ H) as (j0 & Hj0 & Hp0).
    simpl in Hg'. rewrite get_mutate, Hg in Hg'.
    destruct (decide (jobId = id)) as [->|]; injection Hg' as <-;
      [|constructor].
    replace j0 with j in * by congruence. simpl. rewrite Hp0. constructor.
Qed.

Lemma transition_along s s' s'' :
  along s s' -> transition s' s'' -> along s s''.
Proof.
  unfold along. intros [->|Hlt] Ht; destruct Ht; simpl in *; auto; right; lia.
Qed.

Lemma keeps_Inv id st st' :
  Inv st -> keeps parseURL id st st' -> Inv st'.
Proof. induction 2; eauto using step_Inv. Qed.

Lemma keeps_present id st st' :
  is_Some (get id (jobs st)) -> keeps parseURL id st st' ->
  is_Some (get id (jobs st')).
Proof. by destruct 2. Qed.

(** C4: over every step of the service the status of a job stays the same
    or makes one move of queued -> processing -> completed | failed; over
    every run in which the job stays in the registry its status only moves
    forward on that path, so it never returns to queued, never re-enters
    processing, and never changes once completed or failed. *)
Theorem status_moves_forward st id j :
  reachable parseURL st ->
  get id (jobs st) = Some j ->
  (forall st' j',
      step parseURL st st' -> get id (jobs st') = Some j' ->
      transition (job_status j) (job_status j'))
  /\ (forall st' j',
        keeps parseURL id st st' -> get id (jobs st') = Some j' ->
        along (job_status j) (job_status j')
        /\ (job_status j' = Queued -> job_status j = Queued)
        /\ (job_status j = Completed -> job_status j' = Completed)
        /\ (job_status j = Failed -> job_status j' = Failed)).
Proof.
  intros Hreach Hg. pose proof (reachable_Inv _ Hreach) as HI. split.
  - intros st' j' Hstep Hg'. by eapply step_transition.
  - intros st' j' Hkeeps Hg'.
    assert (Hal : along (job_status j) (job_status j')).
    { revert j' Hg'. induction Hkeeps as [|st' st'' Hk IH Hstep Hsome];
        intros j' Hg'.
      - left. congruence.
      - destruct (keeps_present id st st') as [jm Hjm]; [by eexists|done|].
        eapply transition_along; [by apply IH|].
        apply (step_transition st' st'' id jm j');
          [by eapply keeps_Inv|done|done|done]. }
    split; [done|]. destruct Hal as [Heq|Hlt].
    + rewrite Heq. by split_and!.
    + destruct (job_status j), (job_status j'); simpl in Hlt;
        split_and!; intros; try done; lia.
Qed.

(** *** The retention cap of a session *)

(** C3 (as amended): after a successful [createJob] the jobs retained for
    the session are the ones it had (after the cleanup) followed by the new
    one, minus a prefix of evicted jobs: eviction goes oldest first, only
    while the session is over the cap, never takes a processing job, and
    stops in front of one. So at most 15 jobs are retained unless the oldest
    retained job is processing; in that case the session stays over the cap
    and no younger job is evicted. *)
Theorem createJob_retention url sessionId resizeValue newId now st pj st' :
  reachable parseURL st ->
  newId <> [] ->
  get newId (jobs st) = None ->
  createJob parseURL url sessionId resizeValue newId now st = (inr pj, st') ->
  let st1 := cleanupExpiredJobs now st in
  let old := default [] (sessionJobs st1 !! trim sessionId) in
  exists evicted kept,
    old ++ [newId] = evicted ++ kept
    /\ sessionJobs st' !! trim sessionId = Some kept
    /\ (forall id, id ∈ evicted ->
                   get id (jobs st') = None
                   /\ exists j, get id (jobs st1) = Some j
                                /\ job_status j <> Processing)
    /\ ((length kept <= MAX_STORED_JOBS_PER_SESSION)%nat
        \/ exists oldest rest j,
            kept = oldest :: rest /\ get oldest (jobs st1) = Some j
            /\ job_status j = Processing)
    /\ (evicted <> [] -> (MAX_STORED_JOBS_PER_SESSION <= length kept)%nat)
    /\ ((forall id j, id ∈ old -> get id (jobs st1) = Some j ->
                      job_status j <> Processing) ->
        (length kept <= MAX_STORED_JOBS_PER_SESSION)%nat).
Proof.
  intros Hreach Hne Hfresh Hc st1 old.
  pose proof (reachable_Inv _ Hreach) as HI.
  destruct (createJob_inr _ _ _ _ _ _ _ _ Hc)
    as (v & pid & Hv & Hp & Hst & _).
  assert (Hvs : v = trim sessionId).
  { unfold assertSessionId in Hv. destruct (trim sessionId); [done|].
    by injection Hv as <-. }
  subst v.
  set (job := newJob newId (trim sessionId) (trim url) pid
                     (normalizeResizeOption resizeValue) now) in *.
  pose proof (cleanup_Inv now st HI) as HI1. fold st1 in HI1, Hst.
  assert (Hfresh1 : get (job_id job) (jobs st1) = None).
  { destruct (get (job_id job) (jobs st1)) eqn:Hg; [|done].
    apply (shrinks_jobs _ _ (cleanup_shrinks now st)) in Hg.
    simpl in Hg. congruence. }
  destruct (register_trim_spec job st1 HI1 Hfresh1 Hne eq_refl)
    as (evicted & kept & Happ & Hk & Hnotin & Hget & Hev & Hstop & Hmin).
  change (job_id job) with newId in *.
  change (job_sessionId job) with (trim sessionId) in *.
  set (st3 := trimSessionJobs (trim sessionId) (register job st1)) in *.
  assert (HI4 : Inv (enqueue newId st3)).
  { apply Inv_queue, trimLoop_Inv. by apply register_Inv. }
  exists evicted, kept. split_and!; try done.
  - rewrite Hst.
    destruct (processQueue_cases now (enqueue newId st3) HI4)
      as [[_ ->]|[(? & ? & _ & _ & _ & ->)|(? & ? & ? & _ & _ & _ & _ & ->)]];
      done.
  - intros id Hin. split; [|by apply Hev].
    assert (Hnone : get id (jobs (enqueue newId st3)) = None).
    { change (get id (jobs st3) = None). rewrite Hget.
      by rewrite decide_True. }
    rewrite Hst.
    destruct (processQueue_get now (enqueue newId st3) id HI4)
      as [->|(j & Hj & _)]; [done|congruence].
  - intros Hall. destruct Hstop as [?|(o & r & j & -> & Hj & Hp')]; [done|].
    exfalso. assert (Ho : o ∈ old ++ [newId]).
    { unfold old. rewrite Happ. apply elem_of_app. right.
      apply list_elem_of_here. }
    apply elem_of_app in Ho as [Ho| ->%list_elem_of_singleton].
    + by apply (Hall o j).
    + congruence.
Qed.

(** *** TTL cleanup *)

Lemma expired_terminal now j :
  job_status j = Completed \/ job_status j = Failed ->
  (JOB_TTL_MS < now - job_updatedAt j)%Z ->
  expired now j = true.
Proof.
  unfold expired. intros [->| ->] Hlt; by apply Z.ltb_lt.
Qed.

Lemma expired_live now j :
  job_status j = Queued \/ job_status j = Processing ->
  expired now j = false.
Proof. unfold expired. by intros [->| ->]. Qed.

Lemma processQueue_absent now st id :
  Inv st -> get id (jobs st) = None ->
  get id (jobs (processQueue now st)) = None.
Proof.
  intros HI Hn. destruct (processQueue_get now st id HI)
    as [->|(j & Hj & _)]; [done|congruence].
Qed.

(** What [listJobs] shows: projections of jobs of the registry left by the
    cleanup, all of the session asked for. *)
Lemma listJobs_shown sessionId now st l pj :
  Inv st ->
  fst (listJobs sessionId now st) = inr l ->
  pj ∈ l ->
  exists j,
    get (pj_id pj) (jobs (cleanupExpiredJobs now st)) = Some j
    /\ pj = toPublicJob j /\ job_sessionId j = trim sessionId.
Proof.
  intros HI. pose proof (cleanup_Inv now st HI) as HI1.
  unfold listJobs, assertSessionId.
  destruct (trim sessionId) as [|c v] eqn:Ht; [done|].
  destruct (sessionJobs (cleanupExpiredJobs now st) !! (c :: v))
    as [[|k order]|] eqn:Hs.
  - simpl. intros [= <-] Hin. by apply elem_of_nil in Hin.
  - pose proof (listLoop_fst (jobs (cleanupExpiredJobs now st)) (k :: order))
      as Hfst.
    destruct (inv_order _ HI1 _ _ Hs) as (_ & _ & Hall).
    destruct (listLoop (jobs (cleanupExpiredJobs now st)) (k :: order))
      as [vis ord]. simpl. intros [= <-] Hin.
    destruct (Hfst pj Hin) as (k' & j' & Hk' & Hj' & ->).
    destruct (inv_id _ HI1 _ _ Hj') as [Hid _].
    destruct (Hall k' Hk') as (j'' & Hj'' & Hsess).
    exists j'. simpl. rewrite Hid. split_and!; [done|done|congruence].
  - simpl. intros [= <-] Hin. by apply elem_of_nil in Hin.
Qed.

(** A job that is not in the registry is not shown. *)
Lemma absent_not_shown st id sessionId now :
  Inv st -> get id (jobs st) = None ->
  (forall pj, fst (getJob sessionId id now st) <> inr (Some pj))
  /\ (forall l pj, fst (listJobs sessionId now st) = inr l ->
                   pj ∈ l -> pj_id pj <> id).
Proof.
  intros HI Hn.
  assert (Hn1 : get id (jobs (cleanupExpiredJobs now st)) = None).
  { rewrite cleanup_get. by rewrite Hn. }
  split.
  - intros pj. unfold getJob.
    destruct (assertSessionId sessionId) as [e|v]; [done|]. by rewrite Hn1.
  - intros l pj Hl Hin.
    destruct (listJobs_shown _ _ _ _ _ HI Hl Hin) as (j & Hj & _).
    intros Heq. rewrite Heq in Hj. congruence.
Qed.

(** The calls and the worker remove jobs or change them in place; only
    [createJob] adds one, under the id it was given. *)
Lemma createJob_absent url sessionId resizeValue newId now st id :
  Inv st -> newId <> [] -> get newId (jobs st) = None ->
  id <> newId ->
  get id (jobs (match assertSessionId sessionId with
                | inl _ => st
                | inr _ => cleanupExpiredJobs now st
                end)) = None ->
  get id (jobs (snd (createJob parseURL url sessionId resizeValue
                               newId now st))) = None.
Proof.
  intros HI Hne Hfresh Hid Hgone. rewrite createJob_snd.
  destruct (assertSessionId sessionId) as [e|v]; [done|].
  destruct (extractPackageId _ _) as [pid|]; [|done].
  set (job := newJob newId v (trim url) pid _ now).
  assert (Hfresh' : get (job_id job) (jobs st) = None) by done.
  destruct (createJob_before_kick job now st HI Hfresh' Hne eq_refl)
    as (HI4 & _ & _ & _ & Hkeep).
  apply processQueue_absent; [done|].
  match goal with
  | |- ?lookup = None => destruct lookup as [j4|] eqn:Hj4; [|done]
  end.
  apply Hkeep in Hj4; [congruence|done].
Qed.

Lemma step_absent st st' id :
  Inv st -> step parseURL st st' ->
  get id (jobs st) = None ->
  (forall url sessionId resizeValue now,
      st' <> snd (createJob parseURL url sessionId resizeValue id now st)) ->
  get id (jobs st') = None.
Proof.
  intros HI Hstep Hn Hother.
  assert (Hclean : forall now sessionId,
             get id (jobs (match assertSessionId sessionId with
                           | inl _ => st
                           | inr _ => cleanupExpiredJobs now st
                           end)) = None).
  { intros now sessionId. destruct (assertSessionId sessionId); [done|].
    by rewrite cleanup_get, Hn. }
  destruct Hstep.
  - destruct (decide (id = newId)) as [->|Hid].
    + by destruct (Hother url sessionId resizeValue now).
    + by apply createJob_absent.
  - rewrite listJobs_state by done. apply Hclean.
  - rewrite getJob_state. apply Hclean.
  - rewrite getJobDownloadData_state. apply Hclean.
  - by apply processQueue_absent.
  - simpl. rewrite get_mutate, Hn. by destruct (decide _).
  - simpl. rewrite get_mutate, Hn. by destruct (decide _).
  - simpl. rewrite get_mutate, Hn. by destruct (decide _).
Qed.

(** C5: a terminal job whose [updatedAt] is more than 30 minutes old is
    removed by the next call of [createJob], [listJobs], [getJob] or
    [getJobDownloadData] that reaches the cleanup (the check of the session
    id comes first), and no such call shows it, whatever the session id;
    from then on no step but a [createJob] given the same id brings it back,
    and [listJobs] and [getJob] do not show a job that is not in the
    registry; the cleanup never removes a queued or processing job, whatever
    its age. *)
Theorem ttl_cleanup st id j now :
  reachable parseURL st ->
  get id (jobs st) = Some j ->
  job_status j = Completed \/ job_status j = Failed ->
  (JOB_TTL_MS < now - job_updatedAt j)%Z ->
  (forall sessionId,
      trim sessionId <> [] ->
      (forall url resizeValue newId,
          newId <> [] -> get newId (jobs st) = None ->
          get id (jobs (snd (createJob parseURL url sessionId resizeValue
                                       newId now st))) = None)
      /\ get id (jobs (snd (listJobs sessionId now st))) = None
      /\ (forall jobId,
             get id (jobs (snd (getJob sessionId jobId now st))) = None)
      /\ (forall jobId,
             get id (jobs (snd (getJobDownloadData sessionId jobId now st)))
             = None))
  /\ (forall sessionId,
         (forall pj, fst (getJob sessionId id now st) <> inr (Some pj))
         /\ (forall l pj, fst (listJobs sessionId now st) = inr l ->
                          pj ∈ l -> pj_id pj <> id)
         /\ (forall zip,
                fst (getJobDownloadData sessionId id now st) <> inr zip))
  /\ (forall st2 st3,
         reachable parseURL st2 -> get id (jobs st2) = None ->
         step parseURL st2 st3 ->
         (forall url sessionId resizeValue now2,
             st3 <> snd (createJob parseURL url sessionId resizeValue
                                   id now2 st2)) ->
         get id (jobs st3) = None)
  /\ (forall st2 sessionId2 now2,
         reachable parseURL st2 -> get id (jobs st2) = None ->
         (forall pj, fst (getJob sessionId2 id now2 st2) <> inr (Some pj))
         /\ (forall l pj, fst (listJobs sessionId2 now2 st2) = inr l ->
                          pj ∈ l -> pj_id pj <> id))
  /\ (forall st2 now2 id2 j2,
         get id2 (jobs st2) = Some j2 ->
         job_status j2 = Queued \/ job_status j2 = Processing ->
         get id2 (jobs (cleanupExpiredJobs now2 st2)) = Some j2).
Proof.
  intros Hreach Hg Hterm Hold.
  pose proof (reachable_Inv _ Hreach) as HI.
  assert (Hgone : get id (jobs (cleanupExpiredJobs now st)) = None).
  { by rewrite cleanup_get, Hg, expired_terminal. }
  split_and!.
  - intros sessionId Hvalid.
    assert (Hv : assertSessionId sessionId = inr (trim sessionId)).
    { unfold assertSessionId. by destruct (trim sessionId). }
    split_and!.
    + intros url resizeValue newId Hne Hfresh.
      apply createJob_absent; try done; [congruence|by rewrite Hv].
    + by rewrite listJobs_state, Hv.
    + intros jobId. by rewrite getJob_state, Hv.
    + intros jobId. by rewrite getJobDownloadData_state, Hv.
  - intros sessionId. split_and!.
    + intros pj. unfold getJob.
      destruct (assertSessionId sessionId); [done|]. by rewrite Hgone.
    + intros l pj Hl Hin.
      destruct (listJobs_shown _ _ _ _ _ HI Hl Hin) as (j' & Hj' & _).
      intros Heq. rewrite Heq in Hj'. congruence.
    + intros zip. unfold getJobDownloadData.
      destruct (assertSessionId sessionId); [done|]. by rewrite Hgone.
  - intros st2 st3 Hreach2 Hn2 Hstep Hother.
    apply (step_absent st2 st3 id); [by apply reachable_Inv|done|done|done].
  - intros st2 sessionId2 now2 Hreach2 Hn2.
    pose proof (reachable_Inv _ Hreach2) as HI2.
    apply (absent_not_shown st2 id sessionId2 now2 HI2 Hn2).
  - intros st2 now2 id2 j2 Hg2 Hlive.
    by rewrite cleanup_get, Hg2, expired_live.
Qed.

(** *** Downloads *)

(** C6: [getJobDownloadData] with a session id that passes the check (an
    empty one is refused with the 400 error before anything else, the
    registry untouched) fails with the 404 error when the job is not in the
    registry or belongs to another session, in both cases with the same
    error and the same registry afterwards; it fails with the 409 error when
    the job is there under the session but is not completed or has no zip;
    otherwise it returns the zip of the job. Whatever the outcome, the
    registry afterwards is the one left by the TTL cleanup. *)
Theorem getJobDownloadData_outcomes sessionId jobId now st :
  let st1 := cleanupExpiredJobs now st in
  let r := getJobDownloadData sessionId jobId now st in
  (trim sessionId = [] -> r = (inl sessionRequired, st))
  /\ (trim sessionId <> [] ->
      snd r = st1
      /\ (get jobId (jobs st1) = None -> fst r = inl jobNotFound)
      /\ (forall job,
             get jobId (jobs st1) = Some job ->
             job_sessionId job <> trim sessionId -> fst r = inl jobNotFound)
      /\ (forall job,
             get jobId (jobs st1) = Some job ->
             job_sessionId job = trim sessionId ->
             job_status job <> Completed \/ job_zip job = None ->
             fst r = inl notReady)
      /\ (forall job zip,
             get jobId (jobs st1) = Some job ->
             job_sessionId job = trim sessionId ->
             job_status job = Completed -> job_zip job = Some zip ->
             fst r = inr zip)
      /\ (get jobId (jobs st) = None -> fst r = inl jobNotFound)
      /\ (forall job,
             get jobId (jobs st) = Some job ->
             job_sessionId job <> trim sessionId -> fst r = inl jobNotFound)
      /\ (forall job,
             get jobId (jobs st) = Some job ->
             job_sessionId job = trim sessionId ->
             job_status job = Queued \/ job_status job = Processing ->
             fst r = inl notReady))
  /\ err_statusCode sessionRequired = 400%Z
  /\ err_statusCode jobNotFound = 404%Z
  /\ err_statusCode notReady = 409%Z.
Proof.
  intros st1 r. split_and!; try done.
  { intros Hempty. unfold r, getJobDownloadData, assertSessionId.
    by rewrite Hempty. }
  intros Hvalid.
  assert (Hv : assertSessionId sessionId = inr (trim sessionId)).
  { unfold assertSessionId. by destruct (trim sessionId). }
  assert (Hmiss : get jobId (jobs st1) = None -> fst r = inl jobNotFound).
  { intros Hn. unfold r, getJobDownloadData. rewrite Hv. fold st1.
    by rewrite Hn. }
  assert (Hforeign : forall job,
             get jobId (jobs st1) = Some job ->
             job_sessionId job <> trim sessionId -> fst r = inl jobNotFound).
  { intros job Hj Hs. unfold r, getJobDownloadData. rewrite Hv. fold st1.
    rewrite Hj. by rewrite decide_False. }
  assert (Hnotready : forall job,
             get jobId (jobs st1) = Some job ->
             job_sessionId job = trim sessionId ->
             job_status job <> Completed \/ job_zip job = None ->
             fst r = inl notReady).
  { intros job Hj Hs Hnr. unfold r, getJobDownloadData. rewrite Hv. fold st1.
    rewrite Hj, decide_True by done.
    destruct Hnr as [Hst|Hz].
    - by destruct (job_status job), (job_zip job).
    - rewrite Hz. by destruct (job_status job). }
  split_and!; try done.
  - unfold r. by rewrite getJobDownloadData_state, Hv.
  - intros job zip Hj Hs Hst Hz. unfold r, getJobDownloadData.
    rewrite Hv. fold st1. by rewrite Hj, decide_True, Hst, Hz.
  - intros Hn. apply Hmiss. unfold st1. by rewrite cleanup_get, Hn.
  - intros job Hj Hs.
    destruct (get jobId (jobs st1)) as [job1|] eqn:Hj1; [|by apply Hmiss].
    apply (Hforeign job1); [done|].
    by rewrite (cleanup_same _ _ _ _ _ Hj Hj1).
  - intros job Hj Hs Hlive. apply (Hnotready job); [|done|].
    + unfold st1. by rewrite cleanup_get, Hj, expired_live.
    + left. by destruct Hlive as [->| ->].
Qed.

(** *** The public projection *)

Lemma listJobs_projections sessionId now st l pj :
  fst (listJobs sessionId now st) = inr l -> pj ∈ l ->
  exists job, pj = toPublicJob job.
Proof.
  unfold listJobs. destruct (assertSessionId sessionId) as [e|v]; [done|].
  destruct (sessionJobs (cleanupExpiredJobs now st) !! v)
    as [[|k order]|] eqn:Hs.
  - simpl. intros [= <-] Hin. by apply elem_of_nil in Hin.
  - pose proof (listLoop_fst (jobs (cleanupExpiredJobs now st)) (k :: order))
      as Hfst.
    destruct (listLoop (jobs (cleanupExpiredJobs now st)) (k :: order))
      as [vis ord]. simpl. intros [= <-] Hin.
    destruct (Hfst pj Hin) as (k' & j' & _ & _ & ->). by exists j'.
  - simpl. intros [= <-] Hin. by apply elem_of_nil in Hin.
Qed.

(** The projection beside the data URLs is that of the job without its
    secrets. *)
Lemma toPublicJob_withoutSecrets job :
  withoutDataUrls (toPublicJob job)
  = withoutDataUrls (toPublicJob (withoutSecrets job)).
Proof.
  unfold withoutDataUrls, toPublicJob, withoutSecrets, withSessionId,
    withZipBuffer, withItems, summariseItems.
  cbn [job_id job_sessionId job_url job_packageId job_options job_status
       job_progress job_stage job_message job_createdAt job_updatedAt
       job_packageTitle job_packageInfo job_items job_previews job_zip
       job_error job_startedAt job_completedAt
       pj_id pj_url pj_packageId pj_options pj_status pj_stage pj_progress
       pj_message pj_error pj_packageTitle pj_packageInfo pj_itemCount
       pj_items pj_previews pj_archive pj_createdAt pj_updatedAt
       pj_startedAt pj_completedAt].
  rewrite length_map, !map_map. f_equal. by destruct (job_zip job).
Qed.

Lemma withoutDataUrl_inj p q :
  withoutDataUrl p = withoutDataUrl q -> pi_dataUrl p = pi_dataUrl q -> p = q.
Proof.
  destruct p, q. unfold withoutDataUrl. simpl. intros [=] ->. by subst.
Qed.

Lemma withoutDataUrl_items l1 l2 :
  map withoutDataUrl l1 = map withoutDataUrl l2 ->
  map pi_dataUrl l1 = map pi_dataUrl l2 -> l1 = l2.
Proof.
  revert l2. induction l1 as [|p l1 IH]; intros [|q l2]; cbn [map];
    try done.
  intros Hl Hus.
  assert (Hp : withoutDataUrl p = withoutDataUrl q)
    by exact (f_equal (fun l => default (withoutDataUrl p) (head l)) Hl).
  assert (Hu : pi_dataUrl p = pi_dataUrl q)
    by exact (f_equal (fun l => default (pi_dataUrl p) (head l)) Hus).
  apply (f_equal (@tail _)) in Hl, Hus. cbn [tail] in Hl, Hus.
  f_equal; [by apply withoutDataUrl_inj | by apply IH].
Qed.

Lemma withoutDataUrls_inj pj1 pj2 :
  withoutDataUrls pj1 = withoutDataUrls pj2 ->
  pj_items pj1 = pj_items pj2 -> pj1 = pj2.
Proof.
  destruct pj1, pj2. unfold withoutDataUrls. simpl. intros [=] ->. by subst.
Qed.

(** C10: the projection of a job does not depend on its session id nor on
    the bytes of its archive, which shows as file name and size only; the
    bytes of an item show as a base64 [data:] URI when the item has a buffer
    and a MIME type and as nothing otherwise, and in no other field: beside
    the data URLs of its items, the projection is that of the job without
    its session id, without the bytes of its archive and without the bytes
    of its items; and what [createJob], [listJobs] and [getJob] return are
    such projections. *)
Theorem toPublicJob_hides_session_and_bytes :
  (forall job sessionId buffer,
      toPublicJob (withZipBuffer buffer (withSessionId sessionId job))
      = toPublicJob job)
  /\ (forall job1 job2,
         withSessionId (job_sessionId job2) job1 = job2 ->
         toPublicJob job1 = toPublicJob job2)
  /\ (forall job,
         pj_archive (toPublicJob job)
         = (fun zip => {| archive_filename := zip_filename zip;
                          archive_size := zip_size zip;
                          archive_sizeLabel :=
                            formatBytes (Some (zip_size zip)) |})
             <$> job_zip job)
  /\ (forall job,
         map pi_dataUrl (pj_items (toPublicJob job))
         = map dataUrl (job_items job))
  /\ (forall item,
         dataUrl item
         = match item_buffer item, item_mimeType item with
           | Some buffer, Some (c :: mime) =>
             Some (js "data:" ++ (c :: mime) ++ js ";base64," ++ base64 buffer)
           | _, _ => None
           end)
  /\ (forall item buffer,
         truthy (item_mimeType item) = false ->
         summariseItems [withItemBuffer buffer item] = summariseItems [item])
  /\ (forall item buffer,
         map withoutDataUrl (summariseItems [withItemBuffer buffer item])
         = map withoutDataUrl (summariseItems [item]))
  /\ (forall job1 job2,
         withoutSecrets job1 = withoutSecrets job2 ->
         withoutDataUrls (toPublicJob job1)
         = withoutDataUrls (toPublicJob job2)
         /\ (map dataUrl (job_items job1) = map dataUrl (job_items job2) ->
             toPublicJob job1 = toPublicJob job2))
  /\ (forall url sessionId resizeValue newId now st pj st',
         createJob parseURL url sessionId resizeValue newId now st
         = (inr pj, st') ->
         exists job, pj = toPublicJob job)
  /\ (forall sessionId now st l pj,
         fst (listJobs sessionId now st) = inr l -> pj ∈ l ->
         exists job, pj = toPublicJob job)
  /\ (forall sessionId jobId now st pj,
         fst (getJob sessionId jobId now st) = inr (Some pj) ->
         exists job, pj = toPublicJob job).
Proof.
  split_and!.
  - intros job sessionId buffer. unfold toPublicJob. simpl.
    by destruct (job_zip job).
  - intros job1 job2 <-. reflexivity.
  - intros job. simpl. by destruct (job_zip job).
  - intros job. simpl. unfold summariseItems. rewrite map_map. reflexivity.
  - intros item. unfold dataUrl.
    destruct (item_buffer item) as [buffer|]; [|done].
    by destruct (item_mimeType item) as [[|c mime]|].
  - intros item buffer Hm. unfold summariseItems, dataUrl. simpl.
    rewrite Hm. by destruct buffer, (item_buffer item).
  - intros item buffer. reflexivity.
  - intros job1 job2 Hsame.
    assert (Hbeside : withoutDataUrls (toPublicJob job1)
                      = withoutDataUrls (toPublicJob job2))
      by by rewrite (toPublicJob_withoutSecrets job1),
                    (toPublicJob_withoutSecrets job2), Hsame.
    split; [exact Hbeside|]. intros Hurls.
    apply withoutDataUrls_inj; [exact Hbeside|].
    apply withoutDataUrl_items.
    + by injection Hbeside.
    + cbn [toPublicJob pj_items]. unfold summariseItems.
      by rewrite !map_map.
  - intros url sessionId resizeValue newId now st pj st' Hc.
    destruct (createJob_inr _ _ _ _ _ _ _ _ Hc)
      as (v & pid & _ & _ & _ & ->). by eexists.
  - apply listJobs_projections.
  - intros sessionId jobId now st pj. unfold getJob.
    destruct (assertSessionId sessionId) as [e|v]; [done|].
    destruct (get jobId _) as [job|]; [|done].
    destruct (decide _); [|done]. intros [= <-]. by eexists.
Qed.

End ServiceFacts.

Lemma createJob_projection_witness :
  exists pj st',
    createJob throwingURL (js "package_idx=98765") (js "sess_1") None
              (js "job_1") 0 initial = (inr pj, st')
    /\ pj_status pj = Processing /\ pj_progress pj = (1 # 100)%Q
    /\ processingJob st' = Some (js "job_1").
Proof.
  eexists _, _. split; [reflexivity|].
  eapply (createJob_projection throwingURL (js "package_idx=98765")
            (js "sess_1") None (js "job_1") 0 initial).
  - apply reachable_initial.
  - by vm_compute.
  - reflexivity.
  - reflexivity.
  - reflexivity.
  - reflexivity.
Defined.

(** C1 (as stated) fails: with an idle worker and an empty queue the job
    comes back as processing, with progress 0.01. *)
Lemma createJob_returns_processing :
  match fst (createJob throwingURL (js "package_idx=98765") (js "sess_1")
                       None (js "job_1") 0 initial) with
  | inr pj =>
    pj_status pj = Processing /\ pj_progress pj = (1 # 100)%Q
    /\ pj_status pj <> Queued /\ pj_progress pj <> 0%Q
  | inl _ => False
  end.
Proof. by vm_compute. Qed.

(** *** The example runs *)

Lemma submit_reachable n st :
  reachable throwingURL st ->
  get (jobName n) (jobs st) = None ->
  reachable throwingURL (submit n st).
Proof.
  intros Hr Hf. eapply reachable_step; [exact Hr|].
  by apply step_createJob.
Qed.

Lemma submitAll_reachable ns st :
  reachable throwingURL st ->
  freshAll ns st = true ->
  reachable throwingURL (submitAll ns st).
Proof.
  revert st. induction ns as [|n ns IH]; intros st Hr Hf; simpl in *; [done|].
  destruct (get (jobName n) (jobs st)) eqn:Hg; [done|].
  apply IH; [|done]. by apply submit_reachable.
Qed.

Lemma oneJob_reachable : reachable throwingURL oneJob.
Proof. apply submit_reachable; [apply reachable_initial|reflexivity]. Qed.

Lemma fifteenJobs_reachable : reachable throwingURL fifteenJobs.
Proof.
  apply submitAll_reachable; [apply reachable_initial|by vm_compute].
Qed.

Lemma createJob_retention_witness :
  exists evicted kept,
    default [] (sessionJobs (cleanupExpiredJobs 0 fifteenJobs)
                  !! trim (js "sess_1")) ++ [jobName 16]
    = evicted ++ kept
    /\ sessionJobs (submit 16 fifteenJobs) !! trim (js "sess_1") = Some kept
    /\ ((length kept <= MAX_STORED_JOBS_PER_SESSION)%nat
        \/ exists oldest rest j,
            kept = oldest :: rest
            /\ get oldest (jobs (cleanupExpiredJobs 0 fifteenJobs)) = Some j
            /\ job_status j = Processing).
Proof.
  destruct (createJob_retention throwingURL (js "package_idx=98765")
              (js "sess_1") None (jobName 16) 0 fifteenJobs
              (toPublicJob
                 (newJob (jobName 16) (js "sess_1") (js "package_idx=98765")
                         (js "98765") None 0))
              (submit 16 fifteenJobs) fifteenJobs_reachable)
    as (evicted & kept & H1 & H2 & _ & H4 & _).
  - by vm_compute.
  - by vm_compute.
  - by vm_compute.
  - exists evicted, kept. split_and!; [exact H1|exact H2|exact H4].
Defined.

(** C3 (as stated) fails: the first job of a session is started at once, so
    the session's oldest job is processing while the next ones wait; the
    sixteenth [createJob] evicts nothing, neither the oldest job nor a
    younger queued one, and returns with 16 jobs retained. *)
Lemma createJob_over_cap :
  (length <$> sessionJobs fifteenJobs !! js "sess_1") = Some 15%nat
  /\ (job_status <$> get (jobName 1) (jobs fifteenJobs)) = Some Processing
  /\ (job_status <$> get (jobName 2) (jobs fifteenJobs)) = Some Queued
  /\ match fst (createJob throwingURL (js "package_idx=98765") (js "sess_1")
                          None (jobName 16) 0 fifteenJobs) with
     | inr pj => pj_id pj = jobName 16
     | inl _ => False
     end
  /\ (length <$> sessionJobs (submit 16 fifteenJobs) !! js "sess_1")
     = Some 16%nat
  /\ sessionJobs (submit 16 fifteenJobs) !! js "sess_1"
     = Some (map jobName
                 [1; 2; 3; 4; 5; 6; 7; 8; 9; 10; 11; 12; 13; 14; 15; 16])
  /\ (job_status <$> get (jobName 1) (jobs (submit 16 fifteenJobs)))
     = Some Processing
  /\ (job_status <$> get (jobName 2) (jobs (submit 16 fifteenJobs)))
     = Some Queued.
Proof. split_and!; by vm_compute. Qed.

Lemma finishedJob_reachable : reachable throwingURL finishedJob.
Proof.
  eapply reachable_step; [apply oneJob_reachable|].
  by apply (step_completed throwingURL oneJob (jobName 1)).
Qed.

Lemma single_processing_witness :
  (length (List.filter isProcessing (jobs oneJob)) <= 1)%nat
  /\ processingJob oneJob = Some (jobName 1).
Proof.
  destruct (single_processing throwingURL oneJob oneJob_reachable)
    as (Hcount & Hmarker & _).
  split; [exact Hcount|].
  by apply (Hmarker (jobName 1)
              (startJob 0 (newJob (jobName 1) (js "sess_1")
                                  (js "package_idx=98765") (js "98765")
                                  None 0))).
Defined.

Lemma status_moves_forward_witness :
  transition Processing
    (job_status (completeJob 10 sampleResult
                   (startJob 0 (newJob (jobName 1) (js "sess_1")
                                       (js "package_idx=98765") (js "98765")
                                       None 0)))).
Proof.
  destruct (status_moves_forward throwingURL oneJob (jobName 1)
              (startJob 0 (newJob (jobName 1) (js "sess_1")
                                  (js "package_idx=98765") (js "98765")
                                  None 0))
              oneJob_reachable eq_refl) as [Hstep _].
  apply (Hstep finishedJob).
  - by apply (step_completed throwingURL oneJob (jobName 1)).
  - reflexivity.
Defined.

Lemma ttl_cleanup_witness :
  get (jobName 1) (jobs (snd (listJobs (js "sess_1") 1800011 finishedJob)))
  = None
  /\ (forall pj,
         fst (getJob (js "sess_1") (jobName 1) 1800011 finishedJob)
         <> inr (Some pj)).
Proof.
  destruct (ttl_cleanup throwingURL finishedJob (jobName 1)
              (completeJob 10 sampleResult
                 (startJob 0 (newJob (jobName 1) (js "sess_1")
                                     (js "package_idx=98765") (js "98765")
                                     None 0)))
              1800011 finishedJob_reachable)
    as (Hremoved & Hhidden & _).
  - reflexivity.
  - by left.
  - by vm_compute.
  - assert (Hv : trim (js "sess_1") <> []) by (by vm_compute).
    destruct (Hremoved (js "sess_1") Hv) as (_ & Hlist & _).
    destruct (Hhidden (js "sess_1")) as (Hget & _).
    split; [exact Hlist|exact Hget].
Defined.

Lemma getJobDownloadData_outcomes_witness :
  fst (getJobDownloadData (js " sess_1 ") (jobName 1) 20 finishedJob)
  = inr sampleZip
  /\ fst (getJobDownloadData (js "sess_2") (jobName 1) 20 finishedJob)
     = inl jobNotFound
  /\ fst (getJobDownloadData (js "sess_1") (jobName 2) 20 finishedJob)
     = inl jobNotFound
  /\ fst (getJobDownloadData (js "sess_1") (jobName 1) 20 oneJob)
     = inl notReady.
Proof.
  split_and!.
  - assert (Hv : trim (js " sess_1 ") <> []) by (by vm_compute).
    destruct (getJobDownloadData_outcomes (js " sess_1 ") (jobName 1) 20
                finishedJob) as (_ & Hvalid & _).
    destruct (Hvalid Hv) as (_ & _ & _ & _ & Hzip & _).
    by apply (Hzip (completeJob 10 sampleResult
                      (startJob 0 (newJob (jobName 1) (js "sess_1")
                                          (js "package_idx=98765")
                                          (js "98765") None 0)))).
  - assert (Hv : trim (js "sess_2") <> []) by (by vm_compute).
    destruct (getJobDownloadData_outcomes (js "sess_2") (jobName 1) 20
                finishedJob) as (_ & Hvalid & _).
    destruct (Hvalid Hv) as (_ & _ & Hforeign & _).
    by apply (Hforeign (completeJob 10 sampleResult
                          (startJob 0 (newJob (jobName 1) (js "sess_1")
                                              (js "package_idx=98765")
                                              (js "98765") None 0)))).
  - assert (Hv : trim (js "sess_1") <> []) by (by vm_compute).
    destruct (getJobDownloadData_outcomes (js "sess_1") (jobName 2) 20
                finishedJob) as (_ & Hvalid & _).
    destruct (Hvalid Hv) as (_ & Hmiss & _).
    by apply Hmiss.
  - assert (Hv : trim (js "sess_1") <> []) by (by vm_compute).
    destruct (getJobDownloadData_outcomes (js "sess_1") (jobName 1) 20
                oneJob) as (_ & Hvalid & _).
    destruct (Hvalid Hv) as (_ & _ & _ & Hnr & _).
    apply (Hnr (startJob 0 (newJob (jobName 1) (js "sess_1")
                                   (js "package_idx=98765") (js "98765")
                                   None 0))); [reflexivity|reflexivity|].
    by left.
Defined.

(** *** Checks of the embedding on values of the source *)

Example js_korean :
  js "다운로드 대기 중"
  = [45796; 50868; 47196; 46300; 32; 45824; 44592; 32; 51473].
Proof. reflexivity. Qed.

Example base64_Man : base64 [x4d; x61; x6e] = js "TWFu".
Proof. reflexivity. Qed.

Example base64_Ma : base64 [x4d; x61] = js "TWE=".
Proof. reflexivity. Qed.

Example base64_M : base64 [x4d] = js "TQ==".
Proof. reflexivity. Qed.

Example normalizeResizeOption_low :
  normalizeResizeOption (Some 5%Q) = Some 16%Z.
Proof. reflexivity. Qed.

Example normalizeResizeOption_high :
  normalizeResizeOption (Some 9999%Q) = Some 512%Z.
Proof. reflexivity. Qed.

Example normalizeResizeOption_zero : normalizeResizeOption (Some 0%Q) = None.
Proof. reflexivity. Qed.

Example normalizeResizeOption_half :
  normalizeResizeOption (Some (257 # 2)%Q) = Some 129%Z.
Proof. reflexivity. Qed.

Example oneJob_queue :
  queue oneJob = [] /\ processingJob oneJob = Some (jobName 1)
  /\ sessionJobs oneJob !! js "sess_1" = Some [jobName 1].
Proof. by vm_compute. Qed.

Example finishedJob_list :
  match fst (listJobs (js "sess_1") 20 finishedJob) with
  | inr l =>
    map pj_status l = [Completed]
    /\ map pj_archive l
       = [Some {| archive_filename := js "untitled_98765.zip";
                  archive_size := 2; archive_sizeLabel := js "2 B" |}]
  | inl _ => False
  end.
Proof. by vm_compute. Qed.

End JobQueueFacts.

(** ** Further properties of the utility layer *)

Module UtilsMore.

Import Utils Properties.

(** *** [trim] *)

Lemma trimStart_split s :
  exists pre, s = pre ++ trimStart s /\ forallb isWhiteSpace pre = true.
Proof.
  induction s as [|c t (pre & Heq & Hws)]; simpl; [by exists []|].
  destruct (isWhiteSpace c) eqn:Hc.
  - exists (c :: pre). simpl. rewrite Hc, Hws. split; [by f_equal|done].
  - by exists [].
Qed.

Lemma trimStart_edgeOK s : edgeOK (trimStart s) = true.
Proof.
  induction s as [|c t IH]; simpl; [done|].
  destruct (isWhiteSpace c) eqn:Hc; [done|]. simpl. by rewrite Hc.
Qed.

Lemma trimStart_fix s : edgeOK s = true -> trimStart s = s.
Proof.
  destruct s as [|c t]; simpl; [done|].
  by destruct (isWhiteSpace c).
Qed.

Lemma trimStart_ws s : forallb isWhiteSpace s = true -> trimStart s = [].
Proof.
  induction s as [|c t IH]; simpl; [done|].
  intros [Hc Ht]%andb_prop. rewrite Hc. by apply IH.
Qed.

Lemma forallb_rev {A} (f : A -> bool) l :
  forallb f (rev l) = forallb f l.
Proof.
  induction l as [|x l IH]; simpl; [done|].
  rewrite forallb_app, IH. simpl. rewrite andb_true_r. apply andb_comm.
Qed.

Lemma trimEnd_split s :
  exists post, s = trimEnd s ++ post /\ forallb isWhiteSpace post = true.
Proof.
  unfold trimEnd. destruct (trimStart_split (rev s)) as (pre & Heq & Hws).
  exists (rev pre). split; [|by rewrite forallb_rev].
  rewrite <- rev_app_distr, <- Heq. by rewrite rev_involutive.
Qed.

Lemma trimEnd_edgeOK s : edgeOK (rev (trimEnd s)) = true.
Proof. unfold trimEnd. rewrite rev_involutive. apply trimStart_edgeOK. Qed.

Lemma trimEnd_fix s : edgeOK (rev s) = true -> trimEnd s = s.
Proof.
  intros H. unfold trimEnd. rewrite trimStart_fix by done.
  apply rev_involutive.
Qed.

Lemma edgeOK_prefix s t : s <> [] -> edgeOK (s ++ t) = true -> edgeOK s = true.
Proof. by destruct s. Qed.

Lemma trim_split s :
  exists pre post,
    s = pre ++ trim s ++ post
    /\ forallb isWhiteSpace pre = true /\ forallb isWhiteSpace post = true.
Proof.
  unfold trim. destruct (trimStart_split s) as (pre & Heq & Hpre).
  destruct (trimEnd_split (trimStart s)) as (post & Heq' & Hpost).
  exists pre, post. split; [|done]. by rewrite <- Heq'.
Qed.

Lemma trim_edges s : edgeOK (trim s) = true /\ edgeOK (rev (trim s)) = true.
Proof.
  split; [|apply trimEnd_edgeOK]. unfold trim.
  destruct (trimEnd_split (trimStart s)) as (post & Heq & _).
  destruct (trimEnd (trimStart s)) as [|c t] eqn:Ht; [done|].
  apply (edgeOK_prefix _ post); [done|]. rewrite <- Heq.
  apply trimStart_edgeOK.
Qed.

Lemma trim_fix s :
  edgeOK s = true -> edgeOK (rev s) = true -> trim s = s.
Proof.
  intros H1 H2. unfold trim. rewrite trimStart_fix by done.
  by apply trimEnd_fix.
Qed.

Lemma trim_idem s : trim (trim s) = trim s.
Proof. destruct (trim_edges s). by apply trim_fix. Qed.

Lemma trim_ws s : forallb isWhiteSpace s = true -> trim s = [].
Proof. intros H. unfold trim. by rewrite trimStart_ws. Qed.

(** *** [sanitizeFilename] *)

Lemma hostile_ws_units :
  isHostile 32 = false /\ isWhiteSpace 32 = true.
Proof. done. Qed.

Lemma replaceHostile_units n :
  forallb (fun c => negb (isHostile c)) (replaceHostile n) = true.
Proof.
  induction n as [|c n IH]; simpl; [done|]. rewrite IH, andb_true_r.
  by destruct (isHostile c) eqn:Hc; [|rewrite Hc].
Qed.

Lemma collapse_units b s :
  forallb (fun c => negb (isHostile c)) s = true ->
  forallb cleanUnit (collapseWhitespace b s) = true.
Proof.
  revert b. induction s as [|c t IH]; intros b; simpl; [done|].
  intros [Hc Ht]%andb_prop. destruct (isWhiteSpace c) eqn:Hw.
  - destruct b; simpl; by rewrite ?IH.
  - simpl. rewrite IH by done. unfold cleanUnit. by rewrite Hc, Hw.
Qed.

Lemma collapse_spaces b s :
  noDoubleSpace (collapseWhitespace b s) = true
  /\ (b = true -> startsSpace (collapseWhitespace b s) = false).
Proof.
  revert b. induction s as [|c t IH]; intros b; simpl; [done|].
  destruct (isWhiteSpace c) eqn:Hw.
  - destruct b.
    + apply IH.
    + destruct (IH true) as [IH1 IH2]. simpl. rewrite IH1, IH2 by done.
      split; [done|]. done.
  - destruct (IH false) as [IH1 _]. simpl. rewrite IH1.
    assert (Hc : (c =? 32) = false).
    { apply N.eqb_neq. intros ->. by rewrite (proj2 hostile_ws_units) in Hw. }
    rewrite Hc. by split.
Qed.

Lemma noDoubleSpace_app_r a b :
  noDoubleSpace (a ++ b) = true -> noDoubleSpace b = true.
Proof.
  induction a as [|c a IH]; simpl; [done|].
  intros [_ H]%andb_prop. by apply IH.
Qed.

Lemma noDoubleSpace_app_l a b :
  noDoubleSpace (a ++ b) = true -> noDoubleSpace a = true.
Proof.
  induction a as [|c a IH]; simpl; [done|].
  intros [Hc H]%andb_prop. rewrite (IH H), andb_true_r.
  destruct a as [|d a]; simpl in *; [|done].
  by rewrite andb_false_r.
Qed.

(** What [sanitizeFilename] builds from a name is clean. *)
Lemma cleaned_isClean n :
  isClean (trim (collapseWhitespace false (replaceHostile n))) = true.
Proof.
  set (c := collapseWhitespace false (replaceHostile n)).
  destruct (trim_split c) as (pre & post & Heq & _ & _).
  destruct (trim_edges c) as [He1 He2].
  assert (Hu : forallb cleanUnit c = true)
    by apply collapse_units, replaceHostile_units.
  destruct (collapse_spaces false (replaceHostile n)) as [Hs _]. fold c in Hs.
  rewrite Heq in Hu, Hs. rewrite !forallb_app in Hu.
  apply andb_prop in Hu as [_ [Hu _]%andb_prop].
  apply noDoubleSpace_app_r, noDoubleSpace_app_l in Hs.
  unfold isClean. by rewrite Hu, Hs, He1, He2.
Qed.

Lemma replaceHostile_fix s :
  forallb cleanUnit s = true -> replaceHostile s = s.
Proof.
  induction s as [|c t IH]; simpl; [done|].
  intros [Hc Ht]%andb_prop. rewrite (IH Ht). unfold cleanUnit in Hc.
  by destruct (isHostile c).
Qed.

Lemma collapse_fix s :
  forallb cleanUnit s = true -> noDoubleSpace s = true ->
  forall b, (b = true -> startsSpace s = false) ->
            collapseWhitespace b s = s.
Proof.
  induction s as [|c t IH]; simpl; [done|].
  intros [Hc Ht]%andb_prop [Hd Hn]%andb_prop b Hb.
  unfold cleanUnit in Hc. apply andb_prop in Hc as [_ Hc].
  destruct (isWhiteSpace c) eqn:Hw; simpl in Hc.
  - apply N.eqb_eq in Hc. subst c. simpl in Hd.
    destruct b; [by specialize (Hb eq_refl)|].
    f_equal. apply IH; [done|done|]. intros _.
    by destruct (startsSpace t).
  - f_equal. by apply IH.
Qed.

Lemma isClean_fix r fallback :
  isClean r = true -> r <> [] -> sanitizeFilename (Some r) fallback = r.
Proof.
  unfold isClean. intros [[[Hu Hs]%andb_prop He1]%andb_prop He2]%andb_prop Hne.
  unfold sanitizeFilename. destruct r as [|c r]; [done|].
  rewrite replaceHostile_fix, collapse_fix, trim_fix by done. done.
Qed.

(** X5: [sanitizeFilename] returns the fallback or a clean name: no hostile
    character, no white space but single spaces, and none at either end. *)
Theorem sanitizeFilename_safe name fallback :
  sanitizeFilename name fallback = fallback
  \/ (sanitizeFilename name fallback <> []
      /\ isClean (sanitizeFilename name fallback) = true
      /\ forall c, c ∈ sanitizeFilename name fallback ->
                   isHostile c = false
                   /\ (isWhiteSpace c = true -> c = 32)).
Proof.
  unfold sanitizeFilename. destruct name as [[|c n]|]; [by left..| |by left].
  pose proof (cleaned_isClean (c :: n)) as Hc.
  destruct (trim _) as [|d r] eqn:Ht; [by left|]. right.
  split; [done|]. split; [done|].
  intros x Hx. unfold isClean in Hc.
  apply andb_prop in Hc as [[[Hu _]%andb_prop _]%andb_prop _].
  rewrite forallb_forall in Hu. apply list_elem_of_In in Hx.
  specialize (Hu x Hx). unfold cleanUnit in Hu.
  apply andb_prop in Hu as [Hh Hw]. split; [by destruct (isHostile x)|].
  intros Hws. rewrite Hws in Hw. simpl in Hw. by apply N.eqb_eq.
Qed.

(** X6: sanitising is idempotent: a clean name comes back unchanged, so a
    second pass over a result changes nothing (for a clean fallback). *)
Theorem sanitizeFilename_idempotent name fallback :
  isClean fallback = true -> fallback <> [] ->
  sanitizeFilename (Some (sanitizeFilename name fallback)) fallback
  = sanitizeFilename name fallback.
Proof.
  intros Hf Hne.
  assert (Hc : isClean (sanitizeFilename name fallback) = true
               /\ sanitizeFilename name fallback <> []).
  { unfold sanitizeFilename. destruct name as [[|c n]|]; try done.
    pose proof (cleaned_isClean (c :: n)) as Hc.
    by destruct (trim _) as [|d r] eqn:Ht. }
  destruct Hc. by apply isClean_fix.
Qed.

Lemma sanitizeFilename_idempotent_witness :
  sanitizeFilename (Some (sanitizeFilename (Some (js " a/b  c ")) (js "x")))
                   (js "x")
  = js "a b c".
Proof.
  rewrite (sanitizeFilename_idempotent (Some (js " a/b  c ")) (js "x"));
    [reflexivity|reflexivity|by vm_compute].
Defined.

(** *** [extractPackageId] *)

Lemma spanDigits_digits s : forallb isDigit (fst (spanDigits s)) = true.
Proof.
  induction s as [|c t IH]; simpl; [done|].
  destruct (isDigit c) eqn:Hc; [|done].
  destruct (spanDigits t) as [ds rest]. simpl in *. by rewrite Hc.
Qed.

Lemma spanDigits_rest s : startsWithDigit (snd (spanDigits s)) = false.
Proof.
  induction s as [|c t IH]; simpl; [done|].
  destruct (isDigit c) eqn:Hc; [|by simpl].
  by destruct (spanDigits t) as [ds rest].
Qed.

Lemma matchKeyValue_eq key s :
  matchKeyValue key s
  = match prefixCI key s with
    | Some (c :: rest) =>
      if c =? 61
      then match fst (spanDigits rest) with
           | [] => None
           | ds => Some ds
           end
      else None
    | _ => None
    end.
Proof.
  unfold matchKeyValue. destruct (prefixCI key s) as [[|c rest]|]; try done.
  destruct (N.eqb_spec c 61) as [->|Hne].
  - by destruct (spanDigits rest) as [[|d ds] r].
  - destruct c as [|p]; [done|].
    do 6 (destruct p as [p|p|]; try done).
Qed.

Lemma firstSome_Some {A B} (f : A -> option B) l r :
  firstSome f l = Some r -> exists x, x ∈ l /\ f x = Some r.
Proof.
  induction l as [|x l IH]; simpl; [done|].
  destruct (f x) as [y|] eqn:Hx.
  - intros [= ->]. exists x. split; [apply list_elem_of_here|done].
  - intros H. destruct (IH H) as (z & Hz & Hf). exists z.
    split; [by apply list_elem_of_further|done].
Qed.

Lemma firstSome_is_Some {A B} (f : A -> option B) l x :
  x ∈ l -> is_Some (f x) -> is_Some (firstSome f l).
Proof.
  induction l as [|y l IH]; simpl; [by intros ?%elem_of_nil|].
  intros [->|Hin]%elem_of_cons Hs.
  - destruct Hs as [r ->]. by eexists.
  - destruct (f y); [by eexists|]. by apply IH.
Qed.

Lemma prefixCI_Some pat s r :
  prefixCI pat s = Some r ->
  exists k, s = k ++ r /\ sameKey k pat.
Proof.
  revert s. induction pat as [|p pat IH]; intros s; simpl.
  - intros [= ->]. by exists [].
  - destruct s as [|c s]; [done|].
    destruct (N.eqb_spec (toLowerAscii p) (toLowerAscii c)) as [Heq|]; [|done].
    intros H. destruct (IH _ H) as (k & -> & Hk). exists (c :: k).
    split; [done|]. unfold sameKey in *. simpl. by rewrite Hk, Heq.
Qed.

Lemma prefixCI_complete pat k r :
  sameKey k pat -> prefixCI pat (k ++ r) = Some r.
Proof.
  revert k. induction pat as [|p pat IH]; intros k Hk.
  - destruct k; [done|]. discriminate Hk.
  - destruct k as [|c k]; [discriminate Hk|].
    unfold sameKey in Hk. simpl in Hk. injection Hk as Hc Hk. simpl.
    rewrite Hc, N.eqb_refl. by apply IH.
Qed.

Lemma matchKeyValue_Some key s ds :
  matchKeyValue key s = Some ds ->
  exists k rest,
    s = k ++ [61] ++ ds ++ rest /\ sameKey k key
    /\ ds <> [] /\ forallb isDigit ds = true
    /\ startsWithDigit rest = false.
Proof.
  rewrite matchKeyValue_eq.
  destruct (prefixCI key s) as [[|c r]|] eqn:Hp; try done.
  destruct (N.eqb_spec c 61) as [->|]; [|done].
  pose proof (spanDigits_digits r) as Hd.
  pose proof (spanDigits_rest r) as Hr.
  pose proof (UtilsFacts.spanDigits_app r) as Happ.
  destruct (spanDigits r) as [[|d ds'] rest]; simpl in *; [done|].
  intros [= <-]. destruct (prefixCI_Some _ _ _ Hp) as (k & -> & Hk).
  exists k, rest. rewrite <- Happ. by split_and!.
Qed.

Lemma matchKeyValue_complete key k ds rest :
  sameKey k key -> ds <> [] -> forallb isDigit ds = true ->
  is_Some (matchKeyValue key (k ++ [61] ++ ds ++ rest)).
Proof.
  intros Hk Hne Hd. rewrite matchKeyValue_eq, (prefixCI_complete key k) by done.
  simpl. destruct ds as [|d ds]; [done|]. simpl in *.
  apply andb_prop in Hd as [-> _].
  destruct (spanDigits (ds ++ rest)). simpl. by eexists.
Qed.

Lemma queryMatch_eq s :
  queryMatch s
  = match firstSome (fun key => matchKeyValue key s) queryKeys with
    | Some ds => Some ds
    | None => match s with [] => None | _ :: t => queryMatch t end
    end.
Proof. by destruct s. Qed.

Lemma queryMatch_Some s ds : queryMatch s = Some ds -> holdsKeyValue s ds.
Proof.
  induction s as [|c t IH]; rewrite queryMatch_eq.
  - by vm_compute.
  - destruct (firstSome _ queryKeys) as [r|] eqn:Hf.
    + intros [= ->]. destruct (firstSome_Some _ _ _ Hf) as (key & Hkey & Hm).
      destruct (matchKeyValue_Some _ _ _ Hm)
        as (k & rest & Heq & ? & ? & ? & ?).
      exists [], k, rest, key. by split_and!.
    + intros H.
      destruct (IH H) as (pre & k & rest & key & -> & ? & ? & ? & ? & ?).
      exists (c :: pre), k, rest, key. by split_and!.
Qed.

Lemma queryMatch_complete pre k ds rest key :
  key ∈ queryKeys -> sameKey k key ->
  ds <> [] -> forallb isDigit ds = true ->
  is_Some (queryMatch (pre ++ k ++ [61] ++ ds ++ rest)).
Proof.
  intros Hkey Hk Hne Hd. induction pre as [|c pre IH].
  - rewrite queryMatch_eq.
    destruct (firstSome_is_Some
                (fun key => matchKeyValue key ([] ++ k ++ [61] ++ ds ++ rest))
                queryKeys key Hkey) as [r ->]; [|by eexists].
    by apply matchKeyValue_complete.
  - rewrite queryMatch_eq.
    destruct (firstSome _ queryKeys); [by eexists|]. apply IH.
Qed.

Lemma isId3_digits s :
  isId3 s = true -> s <> [] /\ forallb isDigit s = true.
Proof.
  unfold isId3. intros [Hd Hl]%andb_prop. split; [|done].
  by destruct s.
Qed.

Lemma isId1_digits s :
  isId1 s = true -> s <> [] /\ forallb isDigit s = true.
Proof.
  unfold isId1. intros [Hd Hl]%andb_prop. split; [|done].
  by destruct s.
Qed.

Lemma stripHash_eq h :
  stripHash h = match h with
                | c :: t => if c =? 35 then t else h
                | [] => []
                end.
Proof.
  destruct h as [|c t]; [done|]. unfold stripHash.
  destruct (N.eqb_spec c 35) as [->|Hne]; [done|].
  destruct c as [|p]; [done|].
  do 6 (destruct p as [p|p|]; try done).
Qed.

Section UrlStepFacts.

Variable parseURL : jsstring -> option URL.

Lemma urlStep_digits trimmed r :
  urlStep parseURL trimmed = Some r ->
  r <> [] /\ forallb isDigit r = true.
Proof.
  unfold urlStep. destruct (parseURL _) as [u|]; [|done].
  destruct (nonEmpty (stripHash (url_hash u)) && isId3 (stripHash (url_hash u)))
    eqn:Hh.
  { intros [= <-]. apply andb_prop in Hh as [_ Hh]. by apply isId3_digits. }
  destruct (firstSome _ urlKeys) as [v|] eqn:Hk.
  { intros [= <-]. destruct (firstSome_Some _ _ _ Hk) as (key & _ & Hv).
    destruct (searchParams_get key (url_searchParams u)) as [value|]; [|done].
    destruct (nonEmpty value && isId1 value) eqn:Hv1; [|done].
    injection Hv as <-. apply andb_prop in Hv1 as [_ Hv1].
    by apply isId1_digits. }
  intros Hs. destruct (firstSome_Some _ _ _ Hs) as (seg & _ & Hseg).
  destruct (isId3 seg) eqn:H3; [|done]. injection Hseg as <-.
  by apply isId3_digits.
Qed.

Lemma numericFallback_digits s r :
  numericFallback s = Some r -> r <> [] /\ forallb isDigit r = true.
Proof.
  intros H. destruct (UtilsFacts.numericFallback_Some _ _ H)
    as (pre & post & _ & (H3 & Hd & _) & _).
  split; [|done]. destruct r; [simpl in H3; lia|done].
Qed.

Lemma queryMatch_digits s r :
  queryMatch s = Some r -> r <> [] /\ forallb isDigit r = true.
Proof.
  intros H. destruct (queryMatch_Some _ _ H)
    as (pre & k & rest & key & _ & _ & _ & Hne & Hd & _). by split.
Qed.

(** Whatever [extractPackageId] returns is a run of digits. *)
Lemma extractPackageId_digits input r :
  extractPackageId parseURL input = Some r ->
  r <> [] /\ forallb isDigit r = true.
Proof.
  unfold extractPackageId. destruct input as [[|c raw]|]; try done.
  destruct (trim (c :: raw)) as [|d t]; [done|].
  destruct (queryMatch (d :: t)) as [q|] eqn:Hq.
  { intros [= <-]. by eapply queryMatch_digits. }
  destruct (urlStep parseURL (d :: t)) as [v|] eqn:Hu.
  { intros [= <-]. by eapply urlStep_digits. }
  apply numericFallback_digits.
Qed.

(** X1: a package id returned by [extractPackageId] is never empty and is
    made of decimal digits only, whatever the input and whatever the [URL]
    parser answers. *)
Theorem extractPackageId_numeric input r :
  extractPackageId parseURL input = Some r ->
  r <> [] /\ forall c, c ∈ r -> (48 <= c <= 57)%N.
Proof.
  intros H. destruct (extractPackageId_digits _ _ H) as [Hne Hd].
  split; [done|]. intros c Hc. rewrite forallb_forall in Hd.
  apply list_elem_of_In in Hc. specialize (Hd c Hc). unfold isDigit in Hd.
  apply andb_prop in Hd as [H1 H2]. apply N.leb_le in H1, H2. lia.
Qed.

(** X2: an input that is missing, empty or made of white space only has no
    package id; the [URL] parser is not even consulted. *)
Theorem extractPackageId_blank raw :
  forallb isWhiteSpace raw = true ->
  extractPackageId parseURL (Some raw) = None
  /\ extractPackageId parseURL None = None.
Proof.
  intros Hws. split; [|done]. unfold extractPackageId.
  destruct raw as [|c raw]; [done|]. by rewrite trim_ws.
Qed.

(** X3: the key=value step decides alone. When the trimmed input holds one
    of [package_idx], [package_id], [idx], [no] (in any letter case), an
    equal sign and at least one digit, [extractPackageId] returns an id read
    at such a place: all the digits that follow the equal sign of a key. The
    [URL] parser has no say in it. *)
Theorem extractPackageId_key_value raw pre k ds rest key :
  trim raw = pre ++ k ++ [61] ++ ds ++ rest ->
  key ∈ queryKeys -> sameKey k key ->
  ds <> [] -> forallb isDigit ds = true ->
  exists id,
    extractPackageId parseURL (Some raw) = Some id
    /\ queryMatch (trim raw) = Some id
    /\ holdsKeyValue (trim raw) id.
Proof.
  intros Ht Hkey Hk Hne Hd.
  destruct (queryMatch_complete pre k ds rest key Hkey Hk Hne Hd) as [id Hq].
  rewrite <- Ht in Hq. exists id. split_and!; [|done|by apply queryMatch_Some].
  unfold extractPackageId. destruct raw as [|c raw].
  { exfalso. revert Ht. change (trim []) with (@nil N).
    destruct pre; [|done]. destruct k; done. }
  destruct (trim (c :: raw)) as [|d t] eqn:Htr.
  { exfalso. destruct pre; [|done]. destruct k; done. }
  by rewrite Hq.
Qed.

End UrlStepFacts.

Lemma extractPackageId_blank_witness :
  extractPackageId throwingURL (Some (js "   ")) = None.
Proof.
  by apply (extractPackageId_blank throwingURL (js "   ")).
Defined.

Lemma extractPackageId_numeric_witness :
  js "98765" <> [] /\ forall c, c ∈ js "98765" -> (48 <= c <= 57)%N.
Proof.
  by apply (extractPackageId_numeric throwingURL
              (Some (js " https://x/?Package_Idx=98765&a=1 ")) (js "98765")).
Defined.

Lemma extractPackageId_key_value_witness :
  exists id,
    extractPackageId throwingURL (Some (js " see IDX=42abc ")) = Some id
    /\ queryMatch (trim (js " see IDX=42abc ")) = Some id
    /\ holdsKeyValue (trim (js " see IDX=42abc ")) id.
Proof.
  apply (extractPackageId_key_value throwingURL (js " see IDX=42abc ")
           (js "see ") (js "IDX") (js "42") (js "abc") (js "idx")).
  - reflexivity.
  - unfold queryKeys. apply list_elem_of_further, list_elem_of_further.
    apply list_elem_of_here.
  - reflexivity.
  - by vm_compute.
  - reflexivity.
Defined.

Lemma firstSome_app {A B} (f : A -> option B) l1 l2 :
  firstSome f (l1 ++ l2)
  = match firstSome f l1 with
    | Some r => Some r
    | None => firstSome f l2
    end.
Proof.
  induction l1 as [|x l1 IH]; simpl; [done|]. by destruct (f x).
Qed.

Lemma last_cons_filter (x : jsstring) l :
  last (List.filter isId3 (x :: l))
  = match last (List.filter isId3 l) with
    | Some r => Some r
    | None => if isId3 x then Some x else None
    end.
Proof.
  simpl. destruct (isId3 x); [|by destruct (last _)].
  destruct (List.filter isId3 l) as [|y l']; [done|].
  change (last (x :: y :: l')) with (last (y :: l')).
  destruct (last (y :: l')) eqn:Hl; [done|].
  by apply last_None in Hl.
Qed.

Lemma segments_last l :
  firstSome (fun segment => if isId3 segment then Some segment else None)
            (rev (filter (fun s => nonEmpty s = true) l))
  = last (List.filter isId3 l).
Proof.
  induction l as [|x l IH]; [done|].
  rewrite last_cons_filter, <- IH. rewrite filter_cons.
  destruct (decide (nonEmpty x = true)) as [Hx|Hx].
  - simpl. rewrite firstSome_app. simpl.
    by destruct (firstSome _ _), (isId3 x).
  - destruct (firstSome _ _); [done|].
    destruct x; [done|]. by destruct Hx.
Qed.

(** X4: in the URL step a fragment of three digits or more wins over
    everything else; without such a fragment and without a usable query
    parameter, the id is the last path segment made of three digits or more
    (the deepest one), if there is one. *)
Theorem urlStep_precedence parseURL trimmed u :
  parseURL (if startsWith (js "http") trimmed then trimmed
            else js "https://" ++ trimmed) = Some u ->
  (isId3 (stripHash (url_hash u)) = true ->
   urlStep parseURL trimmed = Some (stripHash (url_hash u)))
  /\ (isId3 (stripHash (url_hash u)) = false ->
      (forall key value,
          key ∈ urlKeys ->
          searchParams_get key (url_searchParams u) = Some value ->
          isId1 value = false) ->
      urlStep parseURL trimmed
      = last (List.filter isId3 (splitSlash [] (url_pathname u)))).
Proof.
  intros Hp. unfold urlStep. rewrite Hp. split.
  - intros Hh. rewrite Hh.
    destruct (isId3_digits _ Hh) as [Hne _].
    by destruct (stripHash (url_hash u)).
  - intros Hh Hparams. rewrite Hh, andb_false_r.
    destruct (firstSome _ urlKeys) as [v|] eqn:Hk.
    + destruct (firstSome_Some _ _ _ Hk) as (key & Hkey & Hv).
      destruct (searchParams_get key (url_searchParams u)) as [value|] eqn:Hg;
        [|done].
      rewrite (Hparams key value Hkey Hg), andb_false_r in Hv. done.
    + apply segments_last.
Qed.

Lemma urlStep_precedence_witness :
  urlStep pathOnlyURL (js "h") = Some (js "4567").
Proof.
  destruct (urlStep_precedence pathOnlyURL (js "h")
              {| url_hash := [];
                 url_searchParams := [(js "page", js "2")];
                 url_pathname := js "/a/123456/b/77/4567/x" |} eq_refl)
    as [_ H].
  rewrite H; [reflexivity|reflexivity|].
  intros key value Hkey. vm_compute in Hkey.
  repeat (apply elem_of_cons in Hkey as [->|Hkey]; [by vm_compute|]).
  by apply elem_of_nil in Hkey.
Defined.

(** *** [buildArchiveFilename] *)

(** X7: with a package id made of digits (as [extractPackageId] returns
    them) the archive name is the cleaned title, or ["untitled"], followed
    by an underscore, the id and [".zip"]; whatever the title, it holds no
    hostile character and no white space but plain spaces. *)
Theorem buildArchiveFilename_safe title packageId :
  packageId <> [] -> forallb isDigit packageId = true ->
  buildArchiveFilename title (Some packageId)
  = sanitizeFilename title (js "untitled") ++ js "_" ++ packageId ++ js ".zip"
  /\ forall c, c ∈ buildArchiveFilename title (Some packageId) ->
               isHostile c = false /\ (isWhiteSpace c = true -> c = 32).
Proof.
  intros Hne Hd.
  assert (Heq : buildArchiveFilename title (Some packageId)
                = sanitizeFilename title (js "untitled")
                    ++ js "_" ++ packageId ++ js ".zip").
  { unfold buildArchiveFilename.
    rewrite (UtilsFacts.sanitizeFilename_nonEmpty title defaultFallback)
      by done.
    by destruct packageId. }
  split; [done|]. rewrite Heq. intros c.
  assert (Hbase : forall x, x ∈ sanitizeFilename title (js "untitled") ->
                            isHostile x = false
                            /\ (isWhiteSpace x = true -> x = 32)).
  { intros x Hx.
    assert (Hcl : isClean (sanitizeFilename title (js "untitled")) = true).
    { unfold sanitizeFilename. destruct title as [[|t n]|]; try done.
      pose proof (cleaned_isClean (t :: n)) as Hc.
      by destruct (trim _). }
    unfold isClean in Hcl.
    apply andb_prop in Hcl as [[[Hu _]%andb_prop _]%andb_prop _].
    rewrite forallb_forall in Hu. apply list_elem_of_In in Hx.
    specialize (Hu x Hx). unfold cleanUnit in Hu.
    apply andb_prop in Hu as [Hh Hw]. split; [by destruct (isHostile x)|].
    intros Hws. rewrite Hws in Hw. simpl in Hw. by apply N.eqb_eq. }
  rewrite !elem_of_app. intros [Hc|[Hc|[Hc|Hc]]].
  - by apply Hbase.
  - apply list_elem_of_singleton in Hc as ->. by vm_compute.
  - rewrite forallb_forall in Hd. apply list_elem_of_In in Hc.
    specialize (Hd c Hc). unfold isDigit in Hd.
    apply andb_prop in Hd as [H1 H2]. apply N.leb_le in H1, H2.
    assert (Hcases : c = 48 \/ c = 49 \/ c = 50 \/ c = 51 \/ c = 52 \/ c = 53
                     \/ c = 54 \/ c = 55 \/ c = 56 \/ c = 57) by lia.
    destruct Hcases as [->|[->|[->|[->|[->|[->|[->|[->|[->| ->]]]]]]]]];
      by vm_compute.
  - vm_compute in Hc.
    repeat (apply elem_of_cons in Hc as [->|Hc]; [by vm_compute|]).
    by apply elem_of_nil in Hc.
Qed.

Lemma buildArchiveFilename_safe_witness :
  buildArchiveFilename (Some (js "a/b: c")) (Some (js "42")) = js "a b c_42.zip".
Proof.
  destruct (buildArchiveFilename_safe (Some (js "a/b: c")) (js "42"))
    as [H _]; [by vm_compute|reflexivity|].
  rewrite H. reflexivity.
Defined.

End UtilsMore.

(** ** Further properties of the job queue *)

Module RegistryFacts.

Import Utils JobQueue Properties JobQueueFacts UtilsMore.

(** *** Lists of keys *)

Section KeyFacts.

Variable P : JobId * Job -> bool.

Lemma filter_del k m : List.filter P (del k m) = del k (List.filter P m).
Proof.
  induction m as [|[k0 v0] m IH]; simpl; [done|].
  destruct (decide (k0 = k)) as [->|Hne].
  - destruct (P (k, v0)); simpl; [by rewrite decide_True|done].
  - simpl. destruct (P (k0, v0)); simpl; [by rewrite decide_False, IH|done].
Qed.

Lemma keys_del_scrub k (m : list (JobId * Job)) :
  map fst (del k m) = scrub k (map fst m).
Proof.
  induction m as [|[k0 v0] m IH]; simpl; [done|].
  destruct (decide (k0 = k)); simpl; by rewrite IH.
Qed.

Lemma keysP_del k m :
  map fst (List.filter P (del k m)) = scrub k (map fst (List.filter P m)).
Proof. by rewrite filter_del, keys_del_scrub. Qed.

Lemma get_In k v (m : list (JobId * Job)) : get k m = Some v -> (k, v) ∈ m.
Proof.
  induction m as [|[k0 v0] m IH]; simpl; [done|].
  destruct (decide (k0 = k)) as [->|].
  - intros [= ->]. apply list_elem_of_here.
  - intros H. by apply list_elem_of_further, IH.
Qed.

Lemma get_keysP k v m :
  get k m = Some v -> P (k, v) = true -> k ∈ map fst (List.filter P m).
Proof.
  intros Hg Hp. apply list_elem_of_fmap. exists (k, v). split; [done|].
  apply list_elem_of_In, filter_In. split; [|done].
  by apply list_elem_of_In, get_In.
Qed.

Lemma keysP_get k m :
  NoDup (map fst m) -> k ∈ map fst (List.filter P m) ->
  exists v, get k m = Some v /\ P (k, v) = true.
Proof.
  intros Hnd ([k' v] & Hk & Hin)%list_elem_of_fmap. simpl in Hk. subst k'.
  apply list_elem_of_In, filter_In in Hin as [Hin Hp].
  exists v. split; [|done]. apply get_elem; [done|].
  by apply list_elem_of_In.
Qed.

Lemma keysP_sublist m : sublist (map fst (List.filter P m)) (map fst m).
Proof.
  induction m as [|[k v] m IH]; simpl; [constructor|].
  destruct (P (k, v)); simpl; by constructor.
Qed.

Lemma keysP_NoDup m :
  NoDup (map fst m) -> NoDup (map fst (List.filter P m)).
Proof. intros H. eapply sublist_NoDup; [done|apply keysP_sublist]. Qed.

Lemma keysP_mutate_same f k m :
  (forall j, get k m = Some j -> P (k, f j) = P (k, j)) ->
  map fst (List.filter P (mutate f k m)) = map fst (List.filter P m).
Proof.
  induction m as [|[k0 v0] m IH]; simpl; [done|].
  destruct (decide (k0 = k)) as [->|Hne]; simpl.
  - intros H. rewrite (H v0 eq_refl). by destruct (P (k, v0)).
  - intros H. destruct (P (k0, v0)); simpl; by rewrite (IH H).
Qed.

End KeyFacts.

Lemma scrub_app k a b : scrub k (a ++ b) = scrub k a ++ scrub k b.
Proof.
  induction a as [|x a IH]; simpl; [done|].
  destruct (decide (x = k)); simpl; by rewrite IH.
Qed.

Lemma scrub_notin k l : k ∉ l -> scrub k l = l.
Proof.
  induction l as [|x l IH]; simpl; [done|].
  rewrite not_elem_of_cons. intros [Hne Hl].
  rewrite decide_False by done. by rewrite IH.
Qed.

Lemma scrub_elem k l x : x ∈ scrub k l <-> x ∈ l /\ x <> k.
Proof.
  induction l as [|y l IH]; simpl.
  - rewrite elem_of_nil. tauto.
  - destruct (decide (y = k)) as [->|Hne].
    + rewrite IH, elem_of_cons. split; [tauto|].
      intros [[->|?] ?]; [done|tauto].
    + rewrite !elem_of_cons, IH. split; [|tauto].
      intros [->|[? ?]]; tauto.
Qed.

Lemma removeFirst_scrub k l : NoDup l -> removeFirst k l = scrub k l.
Proof.
  induction l as [|x l IH]; simpl; [done|].
  rewrite NoDup_cons. intros [Hx Hl].
  destruct (decide (x = k)) as [->|Hne].
  - by rewrite scrub_notin.
  - by rewrite IH.
Qed.

Lemma set_fresh k (v : Job) m : get k m = None -> set k v m = m ++ [(k, v)].
Proof.
  induction m as [|[k0 v0] m IH]; simpl; [done|].
  destruct (decide (k0 = k)); [done|]. intros H. by rewrite IH.
Qed.

Lemma queued_mutate_drop f k j m :
  NoDup (map fst m) -> get k m = Some j ->
  job_status j = Queued -> job_status (f j) <> Queued ->
  map fst (List.filter isQueued (mutate f k m))
  = scrub k (map fst (List.filter isQueued m)).
Proof.
  intros Hnd Hg Hq Hnq.
  assert (Hf : isQueued (k, f j) = false) by by apply bool_decide_eq_false_2.
  assert (Ht : isQueued (k, j) = true) by by apply bool_decide_eq_true_2.
  induction m as [|[k0 v0] m IH]; simpl in *; [done|].
  apply NoDup_cons in Hnd as [Hk0 Hnd].
  destruct (decide (k0 = k)) as [->|Hne]; simpl.
  - injection Hg as ->. rewrite Hf, Ht.
    simpl. rewrite decide_True by done.
    rewrite scrub_notin; [done|]. intros Hin. apply Hk0.
    eapply elem_of_sublist; [done|apply keysP_sublist].
  - destruct (isQueued (k0, v0)); simpl; [|by apply IH].
    rewrite decide_False by done. by rewrite IH.
Qed.

(** *** The pending queue *)

Lemma removeJob_queueUpTo id st pending :
  queueUpTo pending st ->
  queueUpTo (if fst (removeJob id st) then scrub id pending else pending)
            (snd (removeJob id st)).
Proof.
  intros HQ.
  destruct (removeJob_cases id st) as [[-> _]|(j & Hg & Hp & ->)]; [done|].
  unfold queueUpTo, queuedIds in *. simpl.
  by rewrite keysP_del, <- HQ, scrub_app.
Qed.

Lemma cleanup_queueUpTo now st : queueUpTo [] st ->
                                 queueUpTo [] (cleanupExpiredJobs now st).
Proof.
  unfold cleanupExpiredJobs. generalize (map fst (jobs st)) as l.
  intros l. revert st. induction l as [|k l IH]; intros st HQ; simpl; [done|].
  apply IH. unfold cleanupEntry. destruct (get k (jobs st)); [|done].
  destruct (expired now j); [|done].
  pose proof (removeJob_queueUpTo k st [] HQ) as H.
  by destruct (removeJob k st) as [[] ?].
Qed.

Lemma trimLoop_queueUpTo turns sid st pending :
  queueUpTo pending st ->
  exists pending',
    queueUpTo pending' (trimLoop turns sid st)
    /\ ((forall x, x ∈ pending ->
                   is_Some (get x (jobs (trimLoop turns sid st)))) ->
        pending' = pending).
Proof.
  revert st pending. induction turns as [|turns IH]; intros st pending HQ;
    simpl; [by exists pending|].
  destruct (sessionJobs st !! sid) as [[|oldest rest]|];
    try by exists pending.
  destruct (_ <? _)%nat; [|by exists pending].
  pose proof (removeJob_queueUpTo oldest st pending HQ) as H.
  destruct (removeJob_cases oldest st) as [[Hr _]|(j & Hg & Hp & Hr)];
    rewrite Hr in *; simpl in H; [by exists pending|].
  destruct (IH _ _ H) as (pending' & HQ' & Hsame).
  exists pending'. split; [done|]. intros Hall.
  assert (Hnot : oldest ∉ pending).
  { intros Hin. destruct (Hall _ Hin) as [jo Hjo].
    apply (shrinks_jobs _ _ (trimLoop_shrinks turns sid _)) in Hjo.
    simpl in Hjo. rewrite get_del in Hjo. by rewrite decide_True in Hjo. }
  rewrite Hsame; [by apply scrub_notin|].
  intros x Hx. apply Hall. by apply scrub_elem in Hx as [? _].
Qed.

(** *** The arrays of the sessions *)

Lemma removeJob_sessions id st :
  Inv st -> sessionsAgree st -> sessionsAgree (snd (removeJob id st)).
Proof.
  intros HI HS.
  destruct (removeJob_cases id st) as [[-> _]|(j & Hg & Hp & ->)]; [done|].
  intros sid. simpl. unfold sessionIds; simpl. rewrite keysP_del.
  fold (sessionIds sid st). rewrite lookup_spliceOrder.
  destruct (decide (job_sessionId j = sid)) as [<-|Hne].
  - pose proof (HS (job_sessionId j)) as Hs.
    assert (Hin : id ∈ sessionIds (job_sessionId j) st).
    { eapply get_keysP; [done|]. by apply bool_decide_eq_true_2. }
    assert (Hnd : NoDup (sessionIds (job_sessionId j) st))
      by apply keysP_NoDup, HI.
    destruct (sessionJobs st !! job_sessionId j) as [order|]; simpl in Hs.
    + subst order. rewrite removeFirst_scrub by done.
      by destruct (scrub id _).
    + rewrite <- Hs in Hin. by apply elem_of_nil in Hin.
  - rewrite HS. symmetry. apply scrub_notin. intros Hin.
    apply keysP_get in Hin as (v & Hv & Hp'); [|apply HI].
    rewrite Hg in Hv. injection Hv as <-.
    by apply bool_decide_eq_true in Hp'.
Qed.

Lemma cleanup_sessions now st :
  Inv st -> sessionsAgree st -> sessionsAgree (cleanupExpiredJobs now st).
Proof.
  unfold cleanupExpiredJobs. generalize (map fst (jobs st)) as l.
  intros l. revert st. induction l as [|k l IH]; intros st HI HS; simpl;
    [done|].
  apply IH; [by apply cleanupEntry_Inv|].
  unfold cleanupEntry. destruct (get k (jobs st)); [|done].
  destruct (expired now j); [|done]. by apply removeJob_sessions.
Qed.

Lemma trimLoop_sessions turns sid st :
  Inv st -> sessionsAgree st -> sessionsAgree (trimLoop turns sid st).
Proof.
  revert st. induction turns as [|turns IH]; intros st HI HS; simpl; [done|].
  destruct (sessionJobs st !! sid) as [[|oldest rest]|]; try done.
  destruct (_ <? _)%nat; [|done].
  pose proof (removeJob_sessions oldest st HI HS) as H.
  pose proof (removeJob_Inv oldest st HI) as H'.
  destruct (removeJob oldest st) as [[] st']; simpl in *; [|done].
  by apply IH.
Qed.

Lemma register_sessions job st :
  get (job_id job) (jobs st) = None ->
  sessionsAgree st -> sessionsAgree (register job st).
Proof.
  intros Hf HS sid. unfold sessionIds; simpl. rewrite set_fresh by done.
  rewrite List.filter_app, map_app. fold (sessionIds sid st). simpl.
  destruct (decide (job_sessionId job = sid)) as [<-|Hne].
  - rewrite lookup_insert_eq. simpl.
    replace (inSession (job_sessionId job) (job_id job, job)) with true
      by (symmetry; by apply bool_decide_eq_true_2).
    simpl. by rewrite HS.
  - rewrite lookup_insert_ne by done.
    replace (inSession sid (job_id job, job)) with false
      by (symmetry; by apply bool_decide_eq_false_2).
    simpl. rewrite app_nil_r. apply HS.
Qed.

Lemma register_queueUpTo job st :
  get (job_id job) (jobs st) = None ->
  job_status job = Queued ->
  queue st = queuedIds st ->
  queueUpTo [job_id job] (register job st).
Proof.
  intros Hf Hq HQ. unfold queueUpTo, queuedIds. simpl.
  rewrite set_fresh by done. rewrite List.filter_app, map_app. simpl.
  replace (isQueued (job_id job, job)) with true
    by (symmetry; by apply bool_decide_eq_true_2).
  simpl. by rewrite HQ.
Qed.

(** *** The job records *)

Lemma shrinks_jobsOK st st' : shrinks st st' -> jobsOK st -> jobsOK st'.
Proof. intros Hs HJ id j Hg. eapply HJ, (shrinks_jobs _ _ Hs), Hg. Qed.

Lemma normalizeResizeOption_range value r :
  normalizeResizeOption value = Some r -> (16 <= r <= 512)%Z.
Proof.
  unfold normalizeResizeOption. destruct value as [numeric|]; [|done].
  destruct (Qle_bool numeric 0); [done|]. intros [= <-]. lia.
Qed.

Lemma assertSessionId_inr sessionId v :
  assertSessionId sessionId = inr v ->
  v = trim sessionId /\ v <> [] /\ trim v = v.
Proof.
  unfold assertSessionId. destruct (trim sessionId) as [|c t] eqn:Ht;
    [done|].
  intros [= <-]. split_and!; [done|done|]. rewrite <- Ht. apply trim_idem.
Qed.

Lemma inUnit_0 : inUnit 0.
Proof. by split. Qed.

Lemma inUnit_1 : inUnit 1.
Proof. by split. Qed.

Lemma inUnit_clamp q : inUnit (Qmin 1 (Qmax 0 q)).
Proof.
  split; [|apply Q.le_min_l].
  apply Q.min_glb; [done|apply Q.le_max_l].
Qed.

Lemma jobOK_newJob newId v url pid resizeValue now :
  v <> [] -> trim v = v -> pid <> [] -> forallb isDigit pid = true ->
  jobOK (newJob newId v (trim url) pid (normalizeResizeOption resizeValue)
                now).
Proof.
  intros Hv Ht Hp Hd. split; simpl; try done.
  - apply trim_idem.
  - apply normalizeResizeOption_range.
Qed.

Lemma jobOK_startJob now j :
  jobOK j -> job_status j = Queued -> jobOK (startJob now j).
Proof.
  intros [] Hq. split; simpl; try done; try (intuition congruence).
Qed.

Lemma jobOK_onProgress now p j :
  jobOK j -> job_status j = Processing -> jobOK (onProgress now p j).
Proof.
  intros [] Hs. split; simpl; try done; try (intuition congruence).
  apply inUnit_clamp.
Qed.

Lemma jobOK_completeJob now r j :
  jobOK j -> job_status j = Processing -> jobOK (completeJob now r j).
Proof.
  intros [] Hs. split; simpl; try done; try (intuition congruence).
Qed.

Lemma jobOK_failJob now msg j :
  jobOK j -> job_status j = Processing -> jobOK (failJob now msg j).
Proof.
  intros [] Hs. split; simpl; try done; try (intuition congruence).
Qed.

Lemma mutate_jobsOK f id st q marker :
  jobsOK st ->
  (forall j, get id (jobs st) = Some j -> jobOK j -> jobOK (f j)) ->
  jobsOK {| jobs := mutate f id (jobs st); queue := q;
            sessionJobs := sessionJobs st; processingJob := marker |}.
Proof.
  intros HJ Hf k j. simpl. rewrite get_mutate.
  destruct (decide (id = k)) as [->|]; [|apply HJ].
  destruct (get k (jobs st)) as [j0|] eqn:Hg; simpl; [|done].
  intros [= <-]. apply Hf; [done|]. by eapply HJ.
Qed.

Lemma mutate_sessions f id st q marker :
  sessionsAgree st ->
  (forall j, job_sessionId (f j) = job_sessionId j) ->
  sessionsAgree {| jobs := mutate f id (jobs st); queue := q;
                   sessionJobs := sessionJobs st; processingJob := marker |}.
Proof.
  intros HS Hf sid. rewrite HS. unfold sessionIds. simpl.
  symmetry. apply keysP_mutate_same. intros j _.
  unfold inSession. simpl. by rewrite Hf.
Qed.

(** *** The three structures together *)

Lemma cleanup_WF now st : Inv st -> WF st -> WF (cleanupExpiredJobs now st).
Proof.
  intros HI [HQ HS HJ]. split.
  - pose proof (cleanup_queueUpTo now st) as H. unfold queueUpTo in H.
    rewrite !app_nil_r in H. by apply H.
  - by apply cleanup_sessions.
  - eapply shrinks_jobsOK; [apply cleanup_shrinks|done].
Qed.

Lemma processQueue_WF now st : Inv st -> WF st -> WF (processQueue now st).
Proof.
  intros HI [HQ HS HJ].
  assert (Hnd : NoDup (queue st)) by (rewrite HQ; apply keysP_NoDup, HI).
  destruct (processQueue_cases now st HI)
    as [[_ ->]|[(next & rest & Hm & Hq & Hskip & ->)
               |(next & rest & job & Hm & Hq & Hg & Hs & ->)]]; [done| |].
  - exfalso. assert (Hin : next ∈ queuedIds st)
      by (rewrite <- HQ, Hq; apply list_elem_of_here).
    apply keysP_get in Hin as (v & Hv & Hp); [|apply HI].
    apply bool_decide_eq_true in Hp. by apply (Hskip v).
  - split; simpl.
    + unfold queuedIds. simpl.
      rewrite (queued_mutate_drop (startJob now) next job); try done;
        [|apply HI].
      fold (queuedIds st). rewrite <- HQ, Hq. simpl.
      rewrite decide_True by done. symmetry. apply scrub_notin.
      rewrite Hq in Hnd. by apply NoDup_cons in Hnd as [? _].
    + by apply mutate_sessions.
    + apply mutate_jobsOK; [done|]. intros j Hj Hok.
      apply jobOK_startJob; [done|]. congruence.
Qed.

Lemma worker_WF f id st marker :
  Inv st -> WF st -> processingJob st = Some id ->
  (forall j, job_status j = Processing -> job_status (f j) <> Queued) ->
  (forall j, job_sessionId (f j) = job_sessionId j) ->
  (forall j, jobOK j -> job_status j = Processing -> jobOK (f j)) ->
  WF (withJobs (mutate f id) marker st).
Proof.
  intros HI [HQ HS HJ] Hm Hnq Hsid Hok.
  destruct (inv_marker _ HI _ Hm) as (j0 & Hg0 & Hs0).
  split; simpl.
  - rewrite HQ. unfold queuedIds. simpl. symmetry.
    apply keysP_mutate_same. intros j Hj.
    assert (j = j0) as -> by congruence.
    unfold isQueued. simpl. rewrite Hs0.
    rewrite bool_decide_eq_false_2 by by apply Hnq. done.
  - by apply mutate_sessions.
  - apply mutate_jobsOK; [done|]. intros j Hj Hj'.
    apply Hok; [done|congruence].
Qed.

Lemma initial_WF : WF initial.
Proof. split; [done| |done]. intros sid. done. Qed.

Section ServiceWF.

Variable parseURL : jsstring -> option URL.

Lemma createJob_WF url sessionId resizeValue newId now st :
  Inv st -> WF st -> newId <> [] -> get newId (jobs st) = None ->
  WF (snd (createJob parseURL url sessionId resizeValue newId now st)).
Proof.
  intros HI HW Hne Hf. rewrite createJob_snd.
  destruct (assertSessionId sessionId) as [e|v] eqn:Hv; [done|].
  apply assertSessionId_inr in Hv as (_ & Hv1 & Hv2).
  pose proof (cleanup_WF now st HI HW) as HW1.
  pose proof (cleanup_Inv now st HI) as HI1.
  destruct (extractPackageId parseURL (Some (trim url))) as [pid|] eqn:Hp;
    [|done].
  apply extractPackageId_digits in Hp as [Hp1 Hp2].
  set (job := newJob newId v (trim url) pid
                     (normalizeResizeOption resizeValue) now).
  assert (Hf1 : get newId (jobs (cleanupExpiredJobs now st)) = None)
    by by rewrite cleanup_get, Hf.
  pose proof (createJob_before_kick job now st HI Hf Hne eq_refl)
    as (HI4 & _ & Hg4 & _ & _).
  apply processQueue_WF; [exact HI4|].
  destruct HW1 as [HQ1 HS1 HJ1].
  pose proof (register_Inv job _ HI1 Hf1 Hne eq_refl) as HI2.
  destruct (trimLoop_queueUpTo
              (S (length (jobs (register job (cleanupExpiredJobs now st)))))
              v (register job (cleanupExpiredJobs now st)) [newId]
              (register_queueUpTo job _ Hf1 eq_refl HQ1))
    as (pending' & HQ3 & Hsame).
  split.
  - simpl. rewrite Hsame in HQ3; [exact HQ3|].
    intros x ->%list_elem_of_singleton. by eexists.
  - apply trimLoop_sessions; [done|]. by apply register_sessions.
  - assert (HJ3 : jobsOK (trimSessionJobs v (register job
                                 (cleanupExpiredJobs now st)))); [|exact HJ3].
    eapply shrinks_jobsOK; [apply trimLoop_shrinks|].
    intros id j. rewrite get_register.
    destruct (decide (id = job_id job)); [|apply HJ1].
    intros [= <-]. by apply jobOK_newJob.
Qed.

Lemma step_WF st st' : Inv st -> WF st -> step parseURL st st' -> WF st'.
Proof.
  intros HI HW Hstep. destruct Hstep.
  - by apply createJob_WF.
  - rewrite listJobs_state by done.
    destruct (assertSessionId sessionId); [done|by apply cleanup_WF].
  - rewrite getJob_state.
    destruct (assertSessionId sessionId); [done|by apply cleanup_WF].
  - rewrite getJobDownloadData_state.
    destruct (assertSessionId sessionId); [done|by apply cleanup_WF].
  - by apply processQueue_WF.
  - apply worker_WF; try done; try (intros j Hs; simpl; congruence).
    intros. by apply jobOK_onProgress.
  - apply worker_WF; try done; try (intros j Hs; simpl; congruence).
    intros. by apply jobOK_completeJob.
  - apply worker_WF; try done; try (intros j Hs; simpl; congruence).
    intros. by apply jobOK_failJob.
Qed.

Lemma reachable_WF st : reachable parseURL st -> WF st.
Proof.
  induction 1 as [|st st' Hr IH Hstep]; [apply initial_WF|].
  eapply step_WF; [|exact IH|exact Hstep]. by apply (reachable_Inv parseURL).
Qed.

End ServiceWF.

(** *** What the cleanup leaves *)

Lemma filter_all {A} (P : A -> bool) l :
  (forall x, x ∈ l -> P x = true) -> List.filter P l = l.
Proof.
  induction l as [|x l IH]; simpl; [done|]. intros H.
  rewrite (H x) by apply list_elem_of_here. rewrite IH; [done|].
  intros y Hy. by apply H, list_elem_of_further.
Qed.

Lemma filter_twice {A} (P Q : A -> bool) l :
  List.filter P (List.filter Q l)
  = List.filter (fun x => Q x && P x) l.
Proof.
  induction l as [|x l IH]; simpl; [done|].
  destruct (Q x); simpl; [|done]. destruct (P x); by rewrite IH.
Qed.

Lemma filter_swap {A} (P Q : A -> bool) l :
  List.filter P (List.filter Q l) = List.filter Q (List.filter P l).
Proof.
  rewrite !filter_twice. apply filter_ext. intros x. apply andb_comm.
Qed.

Lemma filter_pointwise {A} (P Q : A -> bool) l :
  (forall x, x ∈ l -> P x = Q x) -> List.filter P l = List.filter Q l.
Proof.
  intros H. apply filter_ext_in. intros x Hx. by apply H, list_elem_of_In.
Qed.

Lemma del_filter k (m : list (JobId * Job)) (b : Job -> bool) :
  (forall e, e ∈ m -> fst e = k -> b (snd e) = true) ->
  del k m
  = List.filter (fun e => negb (bool_decide (fst e = k) && b (snd e))) m.
Proof.
  induction m as [|[k0 v0] m IH]; intros H; simpl; [done|].
  rewrite IH by (intros; by apply H; [apply list_elem_of_further|]).
  destruct (decide (k0 = k)) as [->|Hne].
  - rewrite bool_decide_eq_true_2 by done.
    pose proof (H (k, v0) (list_elem_of_here _ _) eq_refl) as Hb.
    simpl in Hb. by rewrite Hb.
  - by rewrite bool_decide_eq_false_2 by done.
Qed.

Lemma cleanupEntry_jobs now st k :
  NoDup (map fst (jobs st)) ->
  jobs (cleanupEntry now st k)
  = List.filter
      (fun e => negb (bool_decide (fst e = k) && expired now (snd e)))
      (jobs st).
Proof.
  intros Hnd. unfold cleanupEntry.
  destruct (get k (jobs st)) as [j|] eqn:Hg.
  - assert (Hval : forall e, e ∈ jobs st -> fst e = k -> snd e = j).
    { intros [k' v] Hin Hk. simpl in *. subst k'.
      apply (get_elem _ _ _ Hnd) in Hin. congruence. }
    destruct (expired now j) eqn:He.
    + destruct (removeJob_cases k st) as [[_ Hp]|(j' & _ & _ & ->)].
      * apply expired_not_live in He as [He _]. by destruct He, (Hp j).
      * simpl. apply del_filter. intros e Hin Hk.
        by rewrite (Hval e Hin Hk).
    + symmetry. apply filter_all. intros e Hin.
      case_bool_decide as Hk; [|done]. by rewrite (Hval e Hin Hk), He.
  - symmetry. apply filter_all. intros [k' v] Hin.
    case_bool_decide as Hk; [|done]. simpl in Hk. subst k'.
    apply get_None_keys in Hg. destruct Hg.
    apply list_elem_of_fmap. by exists (k, v).
Qed.

Lemma cleanupFold_jobs now l st :
  Inv st ->
  jobs (foldl (cleanupEntry now) st l)
  = List.filter
      (fun e => negb (bool_decide (fst e ∈ l) && expired now (snd e)))
      (jobs st).
Proof.
  revert st. induction l as [|k l IH]; intros st HI; cbn [foldl].
  - symmetry. apply filter_all. intros e _.
    rewrite bool_decide_eq_false_2; [done|apply not_elem_of_nil].
  - rewrite (IH _ (cleanupEntry_Inv now st k HI)).
    rewrite cleanupEntry_jobs by apply HI. rewrite filter_twice.
    apply filter_ext. intros e. destruct (expired now (snd e));
      rewrite ?andb_true_r, ?andb_false_r; [|done].
    rewrite <- negb_orb. f_equal.
    apply eq_true_iff_eq. rewrite orb_true_iff, !bool_decide_eq_true.
    rewrite elem_of_cons. split; [intros [->|?]|intros [->|?]]; auto.
Qed.

Lemma cleanup_jobs now st :
  Inv st ->
  jobs (cleanupExpiredJobs now st) = List.filter (live now) (jobs st).
Proof.
  intros HI. unfold cleanupExpiredJobs. rewrite cleanupFold_jobs by done.
  apply filter_pointwise. intros e He. unfold live.
  rewrite bool_decide_eq_true_2; [done|].
  apply list_elem_of_fmap. by exists e.
Qed.

Lemma queued_live now e : isQueued e = true -> live now e = true.
Proof.
  intros Hq%bool_decide_eq_true. unfold live.
  rewrite expired_live; [done|by left].
Qed.

Lemma cleanup_queue now st :
  Inv st -> WF st -> queue (cleanupExpiredJobs now st) = queue st.
Proof.
  intros HI HW. rewrite (wf_queue _ (cleanup_WF now st HI HW)).
  rewrite (wf_queue _ HW). unfold queuedIds. rewrite cleanup_jobs by done.
  rewrite filter_twice. f_equal. apply filter_ext. intros e.
  destruct (isQueued e) eqn:Hq; [|apply andb_false_r].
  by rewrite (queued_live now e Hq).
Qed.

(** *** What a session is shown *)

Lemma listLoop_shown m entries :
  (forall k v, (k, v) ∈ entries -> get k m = Some v) ->
  listLoop m (map fst entries) = (shown entries, map fst entries).
Proof.
  induction entries as [|[k v] entries IH]; intros H; simpl; [done|].
  rewrite IH by (intros; by apply H, list_elem_of_further).
  by rewrite (H k v) by apply list_elem_of_here.
Qed.

Lemma filter_elem {A} (P : A -> bool) l x :
  x ∈ List.filter P l -> x ∈ l.
Proof.
  intros H. apply list_elem_of_In in H. apply filter_In in H as [H _].
  by apply list_elem_of_In.
Qed.

Lemma listJobs_cleaned v now st :
  Inv st -> WF st ->
  let st1 := cleanupExpiredJobs now st in
  match sessionJobs st1 !! v with
  | None | Some [] => []
  | Some order => fst (listLoop (jobs st1) order)
  end = shown (List.filter (inSession v) (List.filter (live now) (jobs st))).
Proof.
  intros HI HW st1.
  pose proof (wf_sessions _ (cleanup_WF now st HI HW) v) as Hs.
  fold st1 in Hs. unfold sessionIds in Hs.
  rewrite <- (cleanup_jobs now st HI). fold st1.
  destruct (sessionJobs st1 !! v) as [order|]; simpl in Hs.
  - subst order.
    rewrite listLoop_shown.
    + simpl. by destruct (List.filter (inSession v) (jobs st1)).
    + intros k j Hin%filter_elem. apply get_elem; [|done].
      apply (cleanup_Inv now st HI).
  - by destruct (List.filter (inSession v) (jobs st1)).
Qed.

Lemma listJobs_filter st sessionId now :
  Inv st -> WF st ->
  trim sessionId <> [] ->
  fst (listJobs sessionId now st)
  = inr (shown (List.filter (inSession (trim sessionId))
                            (List.filter (live now) (jobs st)))).
Proof.
  intros HI HW Hv.
  rewrite <- (listJobs_cleaned (trim sessionId) now st HI HW).
  unfold listJobs, assertSessionId.
  destruct (trim sessionId) as [|c v] eqn:Ht; [done|].
  destruct (sessionJobs (cleanupExpiredJobs now st) !! (c :: v))
    as [[|o order]|]; try done.
  by destruct (listLoop _ _).
Qed.

Lemma processQueue_sessionJobs now st :
  sessionJobs (processQueue now st) = sessionJobs st.
Proof.
  unfold processQueue. destruct (truthy (processingJob st)); [done|].
  destruct (queue st) as [|next rest]; [done|]. simpl.
  destruct (get next (jobs st)) as [job|]; [|done].
  by destruct (decide (job_status job = Queued)).
Qed.

Lemma ends_with {A} (old evicted kept : list A) x :
  old ++ [x] = evicted ++ kept -> x ∉ evicted ->
  exists pre, kept = pre ++ [x].
Proof.
  intros Heq Hx. destruct kept as [|y kept _] using rev_ind.
  - rewrite app_nil_r in Heq. subst evicted. destruct Hx.
    apply elem_of_app. right. apply list_elem_of_here.
  - rewrite app_assoc in Heq. apply app_inj_tail in Heq as [_ ->].
    by exists kept.
Qed.

Lemma keys_end (m : list (JobId * Job)) pre k :
  map fst m = pre ++ [k] -> exists m0 v, m = m0 ++ [(k, v)].
Proof.
  intros H. destruct m as [|[k' v] m _] using rev_ind.
  - by destruct pre.
  - rewrite map_app in H. simpl in H. apply app_inj_tail in H as [_ ->].
    by exists m, v.
Qed.

Section StepFacts.

Variable parseURL : jsstring -> option URL.

(** What one step makes of a job that it keeps. *)
Lemma step_get st st' id j j' :
  Inv st -> step parseURL st st' ->
  get id (jobs st) = Some j -> get id (jobs st') = Some j' ->
  j' = j
  \/ (exists now, j' = startJob now j)
  \/ (exists now p, j' = onProgress now p j)
  \/ (exists now r, j' = completeJob now r j)
  \/ (exists now msg, j' = failJob now msg j).
Proof.
  intros HI Hstep Hg Hg'.
  assert (Hclean : forall now j1,
             get id (jobs (cleanupExpiredJobs now st)) = Some j1 -> j1 = j).
  { intros now j1. rewrite cleanup_get, Hg.
    destruct (expired now j); [done|]. by intros [= <-]. }
  assert (Hkick : forall now st0 j0 j1,
             Inv st0 -> get id (jobs st0) = Some j0 ->
             get id (jobs (processQueue now st0)) = Some j1 ->
             j1 = j0 \/ j1 = startJob now j0).
  { intros now st0 j0 j2 HI0 Hg0 Hp.
    destruct (processQueue_get now st0 id HI0)
      as [Heq|(j1 & Hg1 & _ & _ & _ & Hs & _)]; [left|right]; congruence. }
  destruct Hstep as [url sessionId resizeValue newId now Hne Hf
                    |sessionId now|sessionId jobId now|sessionId jobId now
                    |now|jobId now p Hm|jobId now r Hm|jobId now msg Hm].
  - rewrite createJob_snd in Hg'.
    destruct (assertSessionId sessionId) as [e|v]; [left; congruence|].
    destruct (extractPackageId parseURL (Some (trim url))) as [pid|];
      [|left; by apply (Hclean now)].
    set (job := newJob newId v (trim url) pid
                       (normalizeResizeOption resizeValue) now) in *.
    pose proof (createJob_before_kick job now st HI Hf Hne eq_refl)
      as (HI4 & _ & _ & _ & Hold).
    simpl in HI4, Hold.
    assert (Hid : id <> newId) by congruence.
    destruct (processQueue_get now _ id HI4)
      as [Heq|(j1 & Hg1 & _ & _ & _ & Hs & _)].
    + rewrite Heq in Hg'. left. apply (Hclean now). by apply Hold.
    + right. left. exists now. rewrite Hs in Hg'. injection Hg' as <-.
      f_equal. apply (Hclean now). by apply Hold.
  - rewrite listJobs_state in Hg' by done. left.
    destruct (assertSessionId sessionId); [congruence|by apply (Hclean now)].
  - rewrite getJob_state in Hg'. left.
    destruct (assertSessionId sessionId); [congruence|by apply (Hclean now)].
  - rewrite getJobDownloadData_state in Hg'. left.
    destruct (assertSessionId sessionId); [congruence|by apply (Hclean now)].
  - destruct (Hkick now st j j' HI Hg Hg') as [->| ->]; [by left|].
    right. left. by exists now.
  - simpl in Hg'. rewrite get_mutate, Hg in Hg'.
    destruct (decide (jobId = id)); simpl in Hg'; injection Hg' as <-;
      [|by left].
    right. right. left. by exists now, p.
  - simpl in Hg'. rewrite get_mutate, Hg in Hg'.
    destruct (decide (jobId = id)); simpl in Hg'; injection Hg' as <-;
      [|by left].
    right. right. right. left. by exists now, r.
  - simpl in Hg'. rewrite get_mutate, Hg in Hg'.
    destruct (decide (jobId = id)); simpl in Hg'; injection Hg' as <-;
      [|by left].
    right. right. right. right. by exists now, msg.
Qed.

(** A job that is being processed is kept by every step. *)
Lemma step_keeps_processing st st' id j :
  Inv st -> step parseURL st st' ->
  get id (jobs st) = Some j -> job_status j = Processing ->
  is_Some (get id (jobs st')).
Proof.
  intros HI Hstep Hg Hs.
  assert (Hclean : forall now,
             get id (jobs (cleanupExpiredJobs now st)) = Some j).
  { intros now. rewrite cleanup_get, Hg.
    rewrite expired_live; [done|by right]. }
  assert (Hkick : forall now st0,
             Inv st0 -> is_Some (get id (jobs st0)) ->
             is_Some (get id (jobs (processQueue now st0)))).
  { intros now st0 HI0 Hsome.
    destruct (processQueue_get now st0 id HI0)
      as [->|(j1 & _ & _ & _ & _ & -> & _)]; [done|by eexists]. }
  destruct Hstep as [url sessionId resizeValue newId now Hne Hf
                    |sessionId now|sessionId jobId now|sessionId jobId now
                    |now|jobId now p Hm|jobId now r Hm|jobId now msg Hm].
  - rewrite createJob_snd.
    destruct (assertSessionId sessionId) as [e|v]; [by eexists|].
    destruct (extractPackageId parseURL (Some (trim url))) as [pid|];
      [|rewrite Hclean; by eexists].
    set (job := newJob newId v (trim url) pid
                       (normalizeResizeOption resizeValue) now).
    pose proof (createJob_before_kick job now st HI Hf Hne eq_refl)
      as (HI4 & _ & _ & _ & _).
    simpl in HI4. apply Hkick; [exact HI4|]. simpl.
    assert (Hf1 : get newId (jobs (cleanupExpiredJobs now st)) = None)
      by by rewrite cleanup_get, Hf.
    destruct (register_trim_spec job (cleanupExpiredJobs now st)
                (cleanup_Inv now st HI) Hf1 Hne eq_refl)
      as (evicted & kept & _ & _ & _ & Hget & Hev & _).
    simpl in Hget. rewrite Hget.
    destruct (decide (id ∈ evicted)) as [Hin|_].
    + destruct (Hev id Hin) as (j0 & Hg0 & Hs0). rewrite Hclean in Hg0.
      by injection Hg0 as <-.
    + destruct (decide (id = newId)); [by eexists|].
      rewrite Hclean. by eexists.
  - rewrite listJobs_state by done.
    destruct (assertSessionId sessionId); [|rewrite Hclean]; by eexists.
  - rewrite getJob_state.
    destruct (assertSessionId sessionId); [|rewrite Hclean]; by eexists.
  - rewrite getJobDownloadData_state.
    destruct (assertSessionId sessionId); [|rewrite Hclean]; by eexists.
  - apply Hkick; [done|by eexists].
  - simpl. rewrite get_mutate, Hg. destruct (decide (jobId = id)); by eexists.
  - simpl. rewrite get_mutate, Hg. destruct (decide (jobId = id)); by eexists.
  - simpl. rewrite get_mutate, Hg. destruct (decide (jobId = id)); by eexists.
Qed.

(** Reading back a job that [createJob] has accepted. *)
Lemma createJob_readback url sessionId resizeValue newId now st pj st' now' :
  reachable parseURL st ->
  newId <> [] ->
  get newId (jobs st) = None ->
  createJob parseURL url sessionId resizeValue newId now st = (inr pj, st') ->
  fst (getJob sessionId newId now' st') = inr (Some pj)
  /\ exists l, fst (listJobs sessionId now' st') = inr (l ++ [pj]).
Proof.
  intros Hr Hne Hf Hc.
  pose proof (reachable_Inv parseURL st Hr) as HI.
  assert (Hr' : reachable parseURL st').
  { eapply reachable_step; [exact Hr|].
    replace st' with (snd (createJob parseURL url sessionId resizeValue
                                     newId now st)) by by rewrite Hc.
    by apply step_createJob. }
  pose proof (reachable_Inv parseURL st' Hr') as HI'.
  pose proof (reachable_WF parseURL st' Hr') as HW'.
  destruct (createJob_inr _ _ _ _ _ _ _ _ _ Hc)
    as (v & pid & Hv & Hp & Hst' & Hpj). simpl in Hst', Hpj.
  pose proof (assertSessionId_inr _ _ Hv) as (Hv0 & Hv1 & _).
  set (job := newJob newId v (trim url) pid
                     (normalizeResizeOption resizeValue) now) in *.
  pose proof (createJob_before_kick job now st HI Hf Hne eq_refl)
    as (HI4 & _ & Hg4 & _ & _). simpl in HI4, Hg4.
  assert (Hj : exists j',
             get newId (jobs st') = Some j' /\ pj = toPublicJob j'
             /\ job_sessionId j' = v
             /\ (job_status j' = Queued \/ job_status j' = Processing)).
  { destruct (processQueue_get now _ newId HI4)
      as [Heq|(j1 & Hg1 & _ & _ & _ & Hs & _)].
    - cbn [enqueue jobs] in Heq. rewrite <- Hst', Hg4 in Heq.
      exists job. rewrite Heq in Hpj.
      split_and!; [done|done|done|by left].
    - cbn [enqueue jobs] in Hg1. rewrite <- Hst' in Hs.
      rewrite Hg4 in Hg1. injection Hg1 as <-.
      exists (startJob now job). rewrite Hs in Hpj.
      split_and!; [done|done|done|by right]. }
  destruct Hj as (j' & Hg' & -> & Hs' & Hlive).
  assert (Hnow : expired now' j' = false) by by apply expired_live.
  split.
  - unfold getJob. rewrite Hv, cleanup_get, Hg', Hnow.
    by rewrite decide_True.
  - rewrite (listJobs_filter st' sessionId now' HI' HW') by by rewrite <- Hv0.
    rewrite <- Hv0. rewrite filter_swap.
    assert (Hf1 : get newId (jobs (cleanupExpiredJobs now st)) = None)
      by by rewrite cleanup_get, Hf.
    destruct (register_trim_spec job (cleanupExpiredJobs now st)
                (cleanup_Inv now st HI) Hf1 Hne eq_refl)
      as (evicted & kept & Hsplit & Hkept & Hnot & _).
    simpl in Hsplit, Hkept, Hnot.
    destruct (ends_with _ _ _ _ Hsplit Hnot) as [pre ->].
    pose proof (wf_sessions _ HW' v) as Hagree.
    rewrite Hst', processQueue_sessionJobs in Hagree. simpl in Hagree.
    rewrite Hkept in Hagree. simpl in Hagree. rewrite <- Hst' in Hagree.
    symmetry in Hagree. unfold sessionIds in Hagree.
    destruct (keys_end _ _ _ Hagree) as (m0 & j0 & Hm).
    assert (j0 = j') as ->.
    { assert (Hin : (newId, j0) ∈ jobs st').
      { eapply filter_elem. rewrite Hm. apply elem_of_app. right.
        apply list_elem_of_here. }
      apply (get_elem _ _ _ (inv_keys _ HI')) in Hin. congruence. }
    rewrite Hm, List.filter_app. simpl. unfold live at 2. simpl.
    rewrite Hnow. simpl. unfold shown. rewrite map_app. simpl.
    by eexists.
Qed.

End StepFacts.

Section ServiceProperties.

Variable parseURL : jsstring -> option URL.

(** X8: in every reachable state the pending queue is the list of the ids
    of the jobs whose status is queued, in the order of their creation: it
    holds no id twice, no id of a job that is gone, and no id of a job that
    was started. *)
Theorem queue_lists_queued st :
  reachable parseURL st ->
  queue st = queuedIds st
  /\ NoDup (queue st)
  /\ (forall id,
        id ∈ queue st
        <-> exists j, get id (jobs st) = Some j /\ job_status j = Queued).
Proof.
  intros Hr. pose proof (reachable_WF parseURL st Hr) as HW.
  pose proof (reachable_Inv parseURL st Hr) as HI.
  rewrite (wf_queue _ HW). split_and!; [done|apply keysP_NoDup, HI|].
  intros id. split.
  - intros (j & Hg & Hq)%keysP_get; [|apply HI].
    exists j. split; [done|]. by apply bool_decide_eq_true in Hq.
  - intros (j & Hg & Hq). eapply get_keysP; [exact Hg|].
    by apply bool_decide_eq_true_2.
Qed.

(** X9: in every reachable state the array kept for a session lists the ids
    of the jobs of that session that are in the registry, in the order of
    their creation, and no session keeps an empty array. *)
Theorem session_order_lists_jobs st sessionId :
  reachable parseURL st ->
  default [] (sessionJobs st !! sessionId) = sessionIds sessionId st
  /\ sessionJobs st !! sessionId <> Some [].
Proof.
  intros Hr. split; [apply (reachable_WF parseURL st Hr)|].
  intros Hs.
  by destruct (inv_order _ (reachable_Inv parseURL st Hr) _ _ Hs) as [? _].
Qed.

(** X10: every job record of a reachable state is consistent: its package
    id is a non-empty run of digits, its session id and its url are
    trimmed, a resize option lies between 16 and 512, the progress lies
    between 0 and 1, a queued job has progress 0 and no start time, the
    archive and the completion time are there exactly when the job is
    completed, the error exactly when it failed. *)
Theorem job_records_consistent st id j :
  reachable parseURL st -> get id (jobs st) = Some j -> jobOK j.
Proof. intros Hr Hg. eapply (reachable_WF parseURL st Hr), Hg. Qed.

(** X11: in a reachable state with an idle worker and a non-empty queue,
    [processQueue] starts the job at the head of the queue, which is the
    oldest queued job: the branch that skips a stale id is never taken. *)
Theorem worker_starts_oldest_queued st now next rest :
  reachable parseURL st ->
  processingJob st = None ->
  queue st = next :: rest ->
  exists job,
    get next (jobs st) = Some job
    /\ job_status job = Queued
    /\ head (queuedIds st) = Some next
    /\ processQueue now st
       = {| jobs := mutate (startJob now) next (jobs st); queue := rest;
            sessionJobs := sessionJobs st; processingJob := Some next |}.
Proof.
  intros Hr Hm Hq. pose proof (reachable_WF parseURL st Hr) as HW.
  pose proof (reachable_Inv parseURL st Hr) as HI.
  assert (Hin : next ∈ queuedIds st)
    by (rewrite <- (wf_queue _ HW), Hq; apply list_elem_of_here).
  apply keysP_get in Hin as (job & Hg & Hs); [|apply HI].
  apply bool_decide_eq_true in Hs. simpl in Hs.
  exists job. split_and!; [done|done|by rewrite <- (wf_queue _ HW), Hq|].
  destruct (processQueue_cases now st HI)
    as [[[?| Hnil] _]|[(n & r & _ & Hq' & Hskip & _)
                      |(n & r & job' & _ & Hq' & _ & _ & ->)]].
  - done.
  - by rewrite Hq in Hnil.
  - rewrite Hq in Hq'. injection Hq' as <- <-. by destruct (Hskip job Hg).
  - rewrite Hq in Hq'. by injection Hq' as <- <-.
Qed.

(** X12: for a valid session id, in a reachable state, [listJobs] returns
    the public views of exactly the jobs of that session that have not
    expired, in the order of their creation. *)
Theorem listJobs_exact st sessionId now :
  reachable parseURL st ->
  trim sessionId <> [] ->
  fst (listJobs sessionId now st)
  = inr (shown (List.filter (inSession (trim sessionId))
                            (List.filter (live now) (jobs st)))).
Proof.
  intros Hr Hv. apply listJobs_filter; [|by apply (reachable_WF parseURL)|done].
  by apply (reachable_Inv parseURL).
Qed.

(** X13: in a reachable state [cleanupExpiredJobs] removes from the
    registry the jobs that are completed or failed and were last updated
    more than [JOB_TTL_MS] ago, and nothing else: the other jobs keep their
    order, and the pending queue and the worker are left as they are. *)
Theorem cleanup_exact st now :
  reachable parseURL st ->
  jobs (cleanupExpiredJobs now st) = List.filter (live now) (jobs st)
  /\ queue (cleanupExpiredJobs now st) = queue st
  /\ processingJob (cleanupExpiredJobs now st) = processingJob st
  /\ (forall e, live now e = false
                <-> (job_status (snd e) = Completed
                     \/ job_status (snd e) = Failed)
                    /\ (JOB_TTL_MS < now - job_updatedAt (snd e))%Z).
Proof.
  intros Hr. pose proof (reachable_WF parseURL st Hr) as HW.
  pose proof (reachable_Inv parseURL st Hr) as HI.
  split_and!.
  - by apply cleanup_jobs.
  - by apply cleanup_queue.
  - apply (shrinks_marker _ _ (cleanup_shrinks now st)).
  - intros e. unfold live, expired. rewrite negb_false_iff.
    destruct (job_status (snd e)); rewrite ?Z.ltb_lt; split; try done;
      try (intros [[?|?] ?]; done); intros ?; (split; [|done]); auto.
Qed.

(** X14: in a reachable state [getJobDownloadData] returns an archive
    exactly when the job exists, belongs to the session of the caller, is
    completed and has not expired: a completed job always has its
    archive. *)
Theorem download_iff_completed st sessionId jobId now :
  reachable parseURL st ->
  (exists zip, fst (getJobDownloadData sessionId jobId now st) = inr zip)
  <-> exists j,
      get jobId (jobs st) = Some j
      /\ job_sessionId j = trim sessionId
      /\ job_status j = Completed
      /\ (now - job_updatedAt j <= JOB_TTL_MS)%Z.
Proof.
  intros Hr. pose proof (reachable_WF parseURL st Hr) as HW.
  unfold getJobDownloadData, assertSessionId.
  rewrite cleanup_get. split.
  - intros [zip Hz]. destruct (trim sessionId) as [|c v] eqn:Ht; [done|].
    destruct (get jobId (jobs st)) as [j|] eqn:Hg; [|done].
    destruct (expired now j) eqn:He; [done|].
    destruct (decide (job_sessionId j = c :: v)) as [Hs|]; [|done].
    destruct (job_status j) eqn:Hst; try done.
    exists j. split_and!; try done.
    unfold expired in He. rewrite Hst in He. by apply Z.ltb_ge in He.
  - intros (j & Hg & Hs & Hst & Hle).
    pose proof (wf_jobs _ HW _ _ Hg) as Hok.
    destruct (ok_session _ Hok) as [Hne _]. rewrite Hs in Hne.
    destruct (trim sessionId) as [|c v] eqn:Ht; [done|].
    rewrite Hg. unfold expired. rewrite Hst.
    replace (JOB_TTL_MS <? now - job_updatedAt j)%Z with false
      by (symmetry; by apply Z.ltb_ge).
    rewrite decide_True by done. rewrite Hst.
    destruct (job_zip j) as [zip|] eqn:Hz; [by exists zip|].
    by apply (ok_zip _ Hok) in Hst.
Qed.


(** X17: a job that [createJob] has accepted can be read back: from the
    state it leaves, and at any later time, [getJob] with the same session
    id and the new id returns the public view that [createJob] returned,
    and [listJobs] shows that view last. *)
Theorem createJob_then_visible url sessionId resizeValue newId now st pj st'
        now' :
  reachable parseURL st ->
  newId <> [] ->
  get newId (jobs st) = None ->
  createJob parseURL url sessionId resizeValue newId now st = (inr pj, st') ->
  fst (getJob sessionId newId now' st') = inr (Some pj)
  /\ exists l, fst (listJobs sessionId now' st') = inr (l ++ [pj]).
Proof. apply createJob_readback. Qed.

(** X18: the cap of a session never costs another session a job: a job
    that has not expired and is gone after a call of [createJob] belonged
    to the session of the caller, was not being processed, and that session
    still holds at least [MAX_STORED_JOBS_PER_SESSION] jobs. *)
Theorem createJob_evicts_own_session url sessionId resizeValue newId now st
        id j :
  reachable parseURL st ->
  newId <> [] ->
  get newId (jobs st) = None ->
  get id (jobs st) = Some j ->
  expired now j = false ->
  let st' := snd (createJob parseURL url sessionId resizeValue newId now st) in
  get id (jobs st') = None ->
  job_sessionId j = trim sessionId
  /\ job_status j <> Processing
  /\ (MAX_STORED_JOBS_PER_SESSION
      <= length (default [] (sessionJobs st' !! trim sessionId)))%nat.
Proof.
  intros Hr Hne Hf Hg He st'. subst st'. rewrite createJob_snd.
  pose proof (reachable_Inv parseURL st Hr) as HI.
  assert (Hclean : get id (jobs (cleanupExpiredJobs now st)) = Some j)
    by by rewrite cleanup_get, Hg, He.
  destruct (assertSessionId sessionId) as [e|v] eqn:Hv; [congruence|].
  apply assertSessionId_inr in Hv as (<- & _ & _).
  destruct (extractPackageId parseURL (Some (trim url))) as [pid|];
    [|congruence].
  set (job := newJob newId v (trim url) pid
                     (normalizeResizeOption resizeValue) now).
  pose proof (createJob_before_kick job now st HI Hf Hne eq_refl)
    as (HI4 & _ & _ & _ & _). simpl in HI4.
  intros Hgone. rewrite processQueue_sessionJobs. simpl.
  assert (Hgone4 : get id (jobs (trimSessionJobs v
                     (register job (cleanupExpiredJobs now st)))) = None).
  { destruct (processQueue_get now _ id HI4)
      as [Heq|(j1 & _ & _ & _ & _ & Hs & _)]; [|congruence].
    by rewrite Heq in Hgone. }
  assert (Hf1 : get newId (jobs (cleanupExpiredJobs now st)) = None)
    by by rewrite cleanup_get, Hf.
  pose proof (cleanup_Inv now st HI) as HI1.
  destruct (register_trim_spec job (cleanupExpiredJobs now st)
              HI1 Hf1 Hne eq_refl)
    as (evicted & kept & Hsplit & Hkept & Hnot & Hget & Hev & _ & Hfull).
  simpl in Hsplit, Hkept, Hnot, Hget, Hev, Hfull.
  rewrite Hget in Hgone4.
  destruct (decide (id ∈ evicted)) as [Hin|_].
  - destruct (Hev id Hin) as (j0 & Hg0 & Hs0).
    rewrite Hclean in Hg0. injection Hg0 as <-.
    rewrite Hkept. simpl. split_and!; [|done|].
    + assert (Hold : id ∈ default []
                       (sessionJobs (cleanupExpiredJobs now st) !! v)).
      { assert (Hin' : id ∈ evicted ++ kept)
          by (apply elem_of_app; by left).
        rewrite <- Hsplit in Hin'.
        apply elem_of_app in Hin' as [?|Hnew%list_elem_of_singleton];
          [done|]. by subst id. }
      destruct (sessionJobs (cleanupExpiredJobs now st) !! v)
        as [order|] eqn:Ho; simpl in Hold; [|by apply elem_of_nil in Hold].
      destruct (inv_order _ HI1 _ _ Ho) as (_ & _ & Hall).
      destruct (Hall id Hold) as (j1 & Hg1 & Hs1). congruence.
    + apply Hfull. intros ->. by apply elem_of_nil in Hin.
  - destruct (decide (id = newId)); [done|congruence].
Qed.

(** X19: no step of the service drops the job that is being processed, and
    a job that a step keeps stays the job it was: its id, its session, its
    url, its package id, its options and its creation time never change. *)
Theorem step_keeps_identity st st' id j :
  reachable parseURL st ->
  step parseURL st st' ->
  get id (jobs st) = Some j ->
  (job_status j = Processing -> is_Some (get id (jobs st')))
  /\ (forall j',
         get id (jobs st') = Some j' ->
         job_id j' = id
         /\ job_sessionId j' = job_sessionId j
         /\ job_url j' = job_url j
         /\ job_packageId j' = job_packageId j
         /\ job_options j' = job_options j
         /\ job_createdAt j' = job_createdAt j).
Proof.
  intros Hr Hstep Hg. pose proof (reachable_Inv parseURL st Hr) as HI.
  split; [by apply (step_keeps_processing parseURL st st' id j)|].
  intros j' Hg'.
  destruct (inv_id _ HI _ _ Hg) as [Hid _].
  destruct (step_get parseURL st st' id j j' HI Hstep Hg Hg')
    as [->|[[now ->]|[(now & p & ->)|[(now & r & ->)|(now & msg & ->)]]]];
    by split_and!.
Qed.

End ServiceProperties.

(** X15: [getJob] and [getJobDownloadData] agree: both refuse a blank
    session id with the same error, [getJobDownloadData] answers 404
    exactly when [getJob] returns no job, both leave the same state, and an
    archive that is returned is the one whose file name and size [getJob]
    shows. *)
Theorem getJob_download_agree sessionId jobId now st :
  snd (getJob sessionId jobId now st)
  = snd (getJobDownloadData sessionId jobId now st)
  /\ match fst (getJob sessionId jobId now st) with
     | inl e => fst (getJobDownloadData sessionId jobId now st) = inl e
     | inr None =>
       fst (getJobDownloadData sessionId jobId now st) = inl jobNotFound
     | inr (Some pj) =>
       fst (getJobDownloadData sessionId jobId now st) = inl notReady
       \/ exists zip,
           fst (getJobDownloadData sessionId jobId now st) = inr zip
           /\ pj_status pj = Completed
           /\ pj_archive pj
              = Some {| archive_filename := zip_filename zip;
                        archive_size := zip_size zip;
                        archive_sizeLabel :=
                          formatBytes (Some (zip_size zip)) |}
     end.
Proof.
  rewrite getJob_state, getJobDownloadData_state. split; [done|].
  unfold getJob, getJobDownloadData.
  destruct (assertSessionId sessionId) as [e|v]; [done|].
  destruct (get jobId (jobs (cleanupExpiredJobs now st))) as [j|]; [|done].
  destruct (decide (job_sessionId j = v)); [|done].
  destruct (job_status j) eqn:Hs; try by left.
  destruct (job_zip j) as [zip|] eqn:Hz; [|by left].
  right. exists zip. split_and!; [done|exact Hs|].
  unfold toPublicJob. cbn [pj_archive]. by rewrite Hz.
Qed.

(** X20: [normalizeResizeOption] returns nothing exactly when it is given
    no number or a number that is not positive; what it returns lies
    between 16 and 512; a whole number between 16 and 512 is returned as it
    is, and the result grows with the argument. *)
Theorem normalizeResizeOption_clamps :
  (forall value r,
      normalizeResizeOption value = Some r -> (16 <= r <= 512)%Z)
  /\ (forall value,
         normalizeResizeOption value = None
         <-> value = None \/ exists q, value = Some q /\ (q <= 0)%Q)
  /\ (forall n, (16 <= n <= 512)%Z ->
                normalizeResizeOption (Some (inject_Z n)) = Some n)
  /\ (forall q q' r r',
         (q <= q')%Q ->
         normalizeResizeOption (Some q) = Some r ->
         normalizeResizeOption (Some q') = Some r' -> (r <= r')%Z).
Proof.
  split_and!.
  - apply normalizeResizeOption_range.
  - intros [q|]; simpl; [|by split; [left|]].
    destruct (Qle_bool q 0) eqn:Hq.
    + split; [|done]. intros _. right. exists q.
      split; [done|by apply Qle_bool_iff].
    + split; [done|]. intros [?|(q0 & [= <-] & Hle)]; [done|].
      apply Qle_bool_iff in Hle. congruence.
  - intros n Hn. unfold normalizeResizeOption. cbv zeta.
    assert (Hfl : Qfloor (inject_Z n + (1 # 2)) = n).
    { unfold Qfloor, Qplus, inject_Z. simpl. symmetry.
      apply (Z.div_unique _ _ n 1); lia. }
    assert (Hpos : Qle_bool (inject_Z n) 0 = false).
    { apply not_true_is_false. intros H%Qle_bool_iff.
      unfold Qle, inject_Z in H. simpl in H. lia. }
    rewrite Hpos, Hfl. f_equal. lia.
  - intros q q' r r' Hle. unfold normalizeResizeOption. cbv zeta.
    destruct (Qle_bool q 0); [done|]. destruct (Qle_bool q' 0); [done|].
    intros Hr Hr'. apply (inj Some) in Hr, Hr'. subst r r'.
    assert (Hfl : (Qfloor (q + (1 # 2)) <= Qfloor (q' + (1 # 2)))%Z)
      by (apply Qfloor_resp_le; by apply Qplus_le_l).
    revert Hfl. generalize (Qfloor (q + (1 # 2))), (Qfloor (q' + (1 # 2))).
    intros; lia.
Qed.

(** X21: [assertSessionId] accepts exactly the session ids that are not
    blank; what it returns is the trimmed id, which is not empty, has no
    white space at either end, and is accepted again unchanged; a blank id
    is refused with status 400. *)
Theorem assertSessionId_normal sessionId :
  (forall v,
      assertSessionId sessionId = inr v ->
      v = trim sessionId /\ v <> []
      /\ edgeOK v = true /\ edgeOK (rev v) = true
      /\ assertSessionId v = inr v)
  /\ (forall e,
         assertSessionId sessionId = inl e ->
         e = sessionRequired /\ err_statusCode e = 400%Z)
  /\ ((exists e, assertSessionId sessionId = inl e)
      <-> forallb isWhiteSpace sessionId = true).
Proof.
  split_and!.
  - intros v Hv. destruct (assertSessionId_inr _ _ Hv) as (-> & Hne & Hfix).
    destruct (trim_edges sessionId). split_and!; try done.
    unfold assertSessionId in *. rewrite Hfix.
    by destruct (trim sessionId).
  - unfold assertSessionId. destruct (trim sessionId); [|done].
    by intros e [= <-].
  - unfold assertSessionId. split.
    + intros [e He]. destruct (trim sessionId) as [|c t] eqn:Ht; [|done].
      destruct (trim_split sessionId) as (pre & post & Heq & Hpre & Hpost).
      rewrite Heq, Ht. simpl. rewrite forallb_app. by rewrite Hpre, Hpost.
    + intros Hws. rewrite (trim_ws _ Hws). by eexists.
Qed.

(** *** The properties at work *)

Lemma twoJobs_reachable : reachable throwingURL twoJobs.
Proof.
  apply submitAll_reachable; [apply reachable_initial|by vm_compute].
Qed.

Lemma workerIdle_reachable : reachable throwingURL workerIdle.
Proof.
  eapply reachable_step; [apply twoJobs_reachable|].
  by apply (step_completed throwingURL twoJobs (jobName 1)).
Qed.

Lemma fifteenDone_reachable : reachable throwingURL fifteenDone.
Proof.
  eapply reachable_step; [apply fifteenJobs_reachable|].
  apply (step_completed throwingURL fifteenJobs (jobName 1)).
  by vm_compute.
Qed.

Lemma queue_lists_queued_witness :
  queue fifteenJobs = queuedIds fifteenJobs
  /\ length (queuedIds fifteenJobs) = 14%nat.
Proof.
  destruct (queue_lists_queued throwingURL fifteenJobs fifteenJobs_reachable)
    as (Hq & _ & _).
  split; [exact Hq|by vm_compute].
Defined.

Lemma session_order_lists_jobs_witness :
  default [] (sessionJobs workerIdle !! js "sess_1")
  = sessionIds (js "sess_1") workerIdle
  /\ sessionIds (js "sess_1") workerIdle = [jobName 1; jobName 2].
Proof.
  destruct (session_order_lists_jobs throwingURL workerIdle (js "sess_1")
              workerIdle_reachable) as (Hs & _).
  split; [exact Hs|by vm_compute].
Defined.

Lemma job_records_consistent_witness : jobOK completedJob.
Proof.
  apply (job_records_consistent throwingURL finishedJob (jobName 1)).
  - apply finishedJob_reachable.
  - by vm_compute.
Defined.

Lemma worker_starts_oldest_queued_witness :
  exists job,
    get (jobName 2) (jobs workerIdle) = Some job
    /\ job_status job = Queued
    /\ head (queuedIds workerIdle) = Some (jobName 2)
    /\ processQueue 20 workerIdle
       = {| jobs := mutate (startJob 20) (jobName 2) (jobs workerIdle);
            queue := []; sessionJobs := sessionJobs workerIdle;
            processingJob := Some (jobName 2) |}.
Proof.
  apply (worker_starts_oldest_queued throwingURL workerIdle 20 (jobName 2) []).
  - apply workerIdle_reachable.
  - by vm_compute.
  - by vm_compute.
Defined.

Lemma listJobs_exact_witness :
  fst (listJobs (js " sess_1 ") 20 finishedJob)
  = inr (shown (List.filter (inSession (trim (js " sess_1 ")))
                            (List.filter (live 20) (jobs finishedJob))))
  /\ shown (List.filter (inSession (trim (js " sess_1 ")))
                        (List.filter (live 20) (jobs finishedJob)))
     = [toPublicJob completedJob].
Proof.
  split; [|by vm_compute].
  apply (listJobs_exact throwingURL finishedJob (js " sess_1 ") 20).
  - apply finishedJob_reachable.
  - by vm_compute.
Defined.

Lemma cleanup_exact_witness :
  jobs (cleanupExpiredJobs (JOB_TTL_MS + 11) finishedJob)
  = List.filter (live (JOB_TTL_MS + 11)) (jobs finishedJob)
  /\ List.filter (live (JOB_TTL_MS + 11)) (jobs finishedJob) = []
  /\ List.filter (live (JOB_TTL_MS + 10)) (jobs finishedJob)
     = jobs finishedJob.
Proof.
  destruct (cleanup_exact throwingURL finishedJob (JOB_TTL_MS + 11)
              finishedJob_reachable) as (Hj & _).
  split_and!; [exact Hj|by vm_compute|by vm_compute].
Defined.

Lemma download_iff_completed_witness :
  exists zip,
    fst (getJobDownloadData (js "sess_1") (jobName 1) 20 finishedJob)
    = inr zip.
Proof.
  apply (download_iff_completed throwingURL finishedJob (js "sess_1")
           (jobName 1) 20 finishedJob_reachable).
  exists completedJob. split_and!; by vm_compute.
Defined.

Lemma createJob_then_visible_witness :
  fst (getJob (js "sess_1") (jobName 1) 5 oneJob)
  = inr (Some (toPublicJob startedJob))
  /\ exists l,
      fst (listJobs (js "sess_1") 5 oneJob)
      = inr (l ++ [toPublicJob startedJob]).
Proof.
  apply (createJob_then_visible throwingURL (js "package_idx=98765")
           (js "sess_1") None (jobName 1) 0 initial
           (toPublicJob startedJob) oneJob 5).
  - apply reachable_initial.
  - by vm_compute.
  - reflexivity.
  - by vm_compute.
Defined.

Lemma createJob_evicts_own_session_witness :
  get (jobName 1)
      (jobs (snd (createJob throwingURL (js "package_idx=98765")
                            (js "sess_1") None (jobName 16) 20 fifteenDone)))
  = None
  /\ job_sessionId completedJob = trim (js "sess_1")
  /\ job_status completedJob <> Processing
  /\ (MAX_STORED_JOBS_PER_SESSION
      <= length
           (default []
              (sessionJobs
                 (snd (createJob throwingURL (js "package_idx=98765")
                                 (js "sess_1") None (jobName 16) 20
                                 fifteenDone))
               !! trim (js "sess_1"))))%nat.
Proof.
  assert (Hgone : get (jobName 1)
            (jobs (snd (createJob throwingURL (js "package_idx=98765")
                          (js "sess_1") None (jobName 16) 20 fifteenDone)))
                  = None) by (by vm_compute).
  split; [exact Hgone|].
  apply (createJob_evicts_own_session throwingURL (js "package_idx=98765")
           (js "sess_1") None (jobName 16) 20 fifteenDone (jobName 1)
           completedJob).
  - apply fifteenDone_reachable.
  - by vm_compute.
  - by vm_compute.
  - by vm_compute.
  - by vm_compute.
  - exact Hgone.
Defined.

Lemma step_keeps_identity_witness :
  is_Some (get (jobName 1) (jobs (processQueue 5 oneJob)))
  /\ forall j',
      get (jobName 1) (jobs finishedJob) = Some j' ->
      job_id j' = jobName 1
      /\ job_sessionId j' = job_sessionId startedJob
      /\ job_url j' = job_url startedJob
      /\ job_packageId j' = job_packageId startedJob
      /\ job_options j' = job_options startedJob
      /\ job_createdAt j' = job_createdAt startedJob.
Proof.
  split.
  - destruct (step_keeps_identity throwingURL oneJob (processQueue 5 oneJob)
                (jobName 1) startedJob oneJob_reachable
                (step_tick throwingURL oneJob 5)) as [Hkeep _];
      [by vm_compute|].
    by apply Hkeep.
  - apply (step_keeps_identity throwingURL oneJob finishedJob
             (jobName 1) startedJob oneJob_reachable).
    + by apply (step_completed throwingURL oneJob (jobName 1)).
    + by vm_compute.
Defined.


End RegistryFacts.

(** ** Properties of the router *)

Module ServerFacts.

Import Utils JobQueue Server Properties JobQueueFacts UtilsMore RegistryFacts.

(** *** The session id of a request *)

Lemma firstTrimmed_fix elements s :
  firstTrimmed elements = RString s -> trim s = s.
Proof.
  destruct elements as [|[t| |] elements]; simpl; try done.
  intros [= <-]. apply trim_idem.
Qed.

Lemma resolveSessionId_fix req s :
  resolveSessionId req = RString s -> trim s = s.
Proof.
  unfold resolveSessionId.
  destruct (req_header req) as [| |h|elements|];
    try (by apply firstTrimmed_fix); try (intros [= <-]; apply trim_idem);
    destruct (req_query req) as [| |q|elements|];
    try (by apply firstTrimmed_fix); try (intros [= <-]; apply trim_idem);
    by intros [= <-].
Qed.

Lemma resolved_valid req c s :
  resolveSessionId req = RString (c :: s) ->
  assertSessionId (c :: s) = inr (c :: s).
Proof.
  intros H%resolveSessionId_fix. unfold assertSessionId. by rewrite H.
Qed.

(** *** What the service answers to a valid session id *)

Section ServiceAnswers.

Variable parseURL : jsstring -> option URL.



Lemma createJob_answers url sessionId resizeValue newId now st :
  assertSessionId sessionId = inr sessionId ->
  fst (createJob parseURL url sessionId resizeValue newId now st)
  = inl invalidUrl
  \/ exists pj,
      fst (createJob parseURL url sessionId resizeValue newId now st)
      = inr pj.
Proof.
  intros Hv. unfold createJob. rewrite Hv. cbv zeta.
  destruct (extractPackageId parseURL (Some (trim url)));
    [right; by eexists|by left].
Qed.

Lemma getJobDownloadData_answers sessionId jobId now st :
  assertSessionId sessionId = inr sessionId ->
  fst (getJobDownloadData sessionId jobId now st) = inl jobNotFound
  \/ fst (getJobDownloadData sessionId jobId now st) = inl notReady
  \/ exists zip, fst (getJobDownloadData sessionId jobId now st) = inr zip.
Proof.
  intros Hv. unfold getJobDownloadData. rewrite Hv.
  destruct (get jobId _) as [j|]; [|by left].
  destruct (decide _); [|by left].
  destruct (job_status j); try (right; by left).
  destruct (job_zip j); [right; right; by eexists|right; by left].
Qed.

End ServiceAnswers.

(** *** The escaping of the file name *)

Lemma uriUnreserved_safe c : uriUnreserved c = true -> headerSafe c.
Proof.
  unfold uriUnreserved, isLetter, isDigit, headerSafe. simpl.
  rewrite !orb_true_iff, !andb_true_iff, !N.leb_le, !N.eqb_eq. lia.
Qed.

Lemma hexDigit_safe n : n < 16 -> headerSafe (hexDigit n).
Proof.
  unfold hexDigit, headerSafe. intros H.
  destruct (n <? 10) eqn:Hn; [apply N.ltb_lt in Hn|apply N.ltb_ge in Hn]; lia.
Qed.

Lemma percent_safe byte c : byte < 256 -> c ∈ percent byte -> headerSafe c.
Proof.
  intros Hb. unfold percent. rewrite !elem_of_cons, elem_of_nil.
  intros [->|[->|[->|[]]]].
  - unfold headerSafe. lia.
  - apply hexDigit_safe. apply N.Div0.div_lt_upper_bound. lia.
  - apply hexDigit_safe. apply N.mod_lt. lia.
Qed.

Lemma utf8_bytes cp b : cp < 1114112 -> b ∈ utf8 cp -> b < 256.
Proof.
  intros Hcp. unfold utf8.
  assert (H64 : forall x, x mod 64 < 64) by (intros; by apply N.mod_lt).
  destruct (cp <? 128) eqn:H1; [apply N.ltb_lt in H1|apply N.ltb_ge in H1].
  { intros ->%list_elem_of_singleton. lia. }
  destruct (cp <? 2048) eqn:H2; [apply N.ltb_lt in H2|apply N.ltb_ge in H2].
  { rewrite !elem_of_cons, elem_of_nil. intros [->|[->|[]]].
    - assert (cp / 64 < 32) by (apply N.Div0.div_lt_upper_bound; lia). lia.
    - specialize (H64 cp). lia. }
  destruct (cp <? 65536) eqn:H3; [apply N.ltb_lt in H3|apply N.ltb_ge in H3].
  { rewrite !elem_of_cons, elem_of_nil. intros [->|[->|[->|[]]]].
    - assert (cp / 4096 < 16) by (apply N.Div0.div_lt_upper_bound; lia). lia.
    - specialize (H64 (cp / 64)). lia.
    - specialize (H64 cp). lia. }
  rewrite !elem_of_cons, elem_of_nil. intros [->|[->|[->|[->|[]]]]].
  - assert (cp / 262144 < 5) by (apply N.Div0.div_lt_upper_bound; lia). lia.
  - specialize (H64 (cp / 4096)). lia.
  - specialize (H64 (cp / 64)). lia.
  - specialize (H64 cp). lia.
Qed.

Lemma escaped_safe cp c : cp < 1114112 -> c ∈ escaped cp -> headerSafe c.
Proof.
  intros Hcp. unfold escaped. intros Hin.
  apply list_elem_of_In, in_concat in Hin as (bs & Hbs & Hc).
  apply in_map_iff in Hbs as (b & <- & Hb).
  eapply percent_safe; [|by apply list_elem_of_In].
  eapply utf8_bytes; [done|by apply list_elem_of_In].
Qed.

Lemma encodeURIComponent_safe s name :
  (forall c, c ∈ s -> c < 65536) ->
  encodeURIComponent s = Some name ->
  forall c, c ∈ name -> headerSafe c.
Proof.
  remember (length s) as n eqn:Hn. revert s name Hn.
  induction n as [n IH] using lt_wf_ind. intros s name Hn Hunits.
  destruct s as [|c0 rest]; simpl.
  { intros [= <-] c Hc. by apply elem_of_nil in Hc. }
  assert (Hrest : forall c, c ∈ rest -> c < 65536)
    by (intros; by apply Hunits, list_elem_of_further).
  assert (Hc0 : c0 < 65536) by apply Hunits, list_elem_of_here.
  destruct (uriUnreserved c0) eqn:Hu.
  { destruct (encodeURIComponent rest) as [r|] eqn:Hr; simpl; [|done].
    intros [= <-] c [->|Hc]%elem_of_cons; [by apply uriUnreserved_safe|].
    eapply (IH (length rest)); [simpl in Hn; lia|done|done|exact Hr|done]. }
  destruct (isLead c0) eqn:Hl.
  { destruct rest as [|d rest']; [done|].
    destruct (isTrail d) eqn:Ht; [|done].
    destruct (encodeURIComponent rest') as [r|] eqn:Hr; simpl; [|done].
    intros [= <-] c [Hc|Hc]%elem_of_app.
    - eapply escaped_safe; [|exact Hc].
      unfold isLead, isTrail in *.
      apply andb_true_iff in Hl as [_ Hl%N.ltb_lt].
      apply andb_true_iff in Ht as [_ Ht%N.ltb_lt]. nia.
    - eapply (IH (length rest')); [simpl in Hn; lia|done| |exact Hr|done].
      intros; by apply Hrest, list_elem_of_further. }
  destruct (isTrail c0); [done|].
  destruct (encodeURIComponent rest) as [r|] eqn:Hr; simpl; [|done].
  intros [= <-] c [Hc|Hc]%elem_of_app.
  - eapply escaped_safe; [|exact Hc]. lia.
  - eapply (IH (length rest)); [simpl in Hn; lia|done|done|exact Hr|done].
Qed.



(** *** The routes *)

(** X22: the session id that [resolveSessionId] finds is trimmed; a header
    that is a string or an array decides alone, the query string is read
    only when there is no such header; the call throws only on an array
    whose first element is neither a string nor missing. *)
Theorem resolveSessionId_normal req :
  (forall s, resolveSessionId req = RString s -> trim s = s)
  /\ (forall h, req_header req = VString h ->
                resolveSessionId req = RString (trim h))
  /\ (forall elements, req_header req = VArray elements ->
                       resolveSessionId req = firstTrimmed elements)
  /\ (resolveSessionId req = RThrow ->
      exists elements,
        req_header req = VArray (EOther :: elements)
        \/ ((forall h, req_header req <> VString h)
            /\ req_query req = VArray (EOther :: elements))).
Proof.
  split_and!.
  - apply resolveSessionId_fix.
  - intros h Hh. unfold resolveSessionId. by rewrite Hh.
  - intros elements Hh. unfold resolveSessionId. by rewrite Hh.
  - unfold resolveSessionId.
    destruct (req_header req) as [| |h|[|[t| |] elements]|]; try done;
      try (intros _; exists elements; by left);
      destruct (req_query req) as [| |q|[|[t| |] elements']|]; try done;
      intros _; exists elements'; by right.
Qed.

Section RouteFacts.

Variable parseURL : jsstring -> option URL.



Lemma postJob_outcome req newId now st :
  (resolveSessionId req = RThrow
   /\ postJob parseURL req newId now st = (errorHandler notAFunction, st))
  \/ ((resolveSessionId req = RUndefined \/ resolveSessionId req = RString [])
      /\ postJob parseURL req newId now st = (sessionMissing, st))
  \/ (exists sessionId,
         resolveSessionId req = RString sessionId /\ sessionId <> []
         /\ (forall url, req_url req = VString url -> url = [])
         /\ postJob parseURL req newId now st = (urlMissing, st))
  \/ (exists sessionId url st',
         resolveSessionId req = RString sessionId /\ sessionId <> []
         /\ req_url req = VString url /\ url <> []
         /\ createJob parseURL url sessionId (req_resize req) newId now st
            = (inl invalidUrl, st')
         /\ postJob parseURL req newId now st
            = (errorHandler (ServiceError invalidUrl), st'))
  \/ (exists sessionId url job st',
         resolveSessionId req = RString sessionId /\ sessionId <> []
         /\ req_url req = VString url /\ url <> []
         /\ createJob parseURL url sessionId (req_resize req) newId now st
            = (inr job, st')
         /\ postJob parseURL req newId now st = (json 201 (BJob job), st')).
Proof.
  unfold postJob. destruct (resolveSessionId req) as [[|c s]| |] eqn:Hs.
  - right. left. split; [by right|done].
  - right. right.
    destruct (req_url req) as [| |[|c0 url]| |] eqn:Hu;
      try (left; exists (c :: s); split_and!; try done; congruence).
    right.
    destruct (createJob_answers parseURL (c0 :: url) (c :: s) (req_resize req)
                newId now st (resolved_valid req c s Hs)) as [He|[job Hj]];
      destruct (createJob parseURL (c0 :: url) (c :: s) (req_resize req)
                          newId now st) as [r st'] eqn:Hcj;
      simpl in *; subst r.
    + left. by exists (c :: s), (c0 :: url), st'.
    + right. by exists (c :: s), (c0 :: url), job, st'.
  - right. left. split; [by left|done].
  - by left.
Qed.

Lemma download_outcome req now st :
  (resolveSessionId req = RThrow
   /\ download req now st = (errorHandler notAFunction, st))
  \/ ((resolveSessionId req = RUndefined \/ resolveSessionId req = RString [])
      /\ download req now st = (sessionMissing, st))
  \/ (exists sessionId e st',
         resolveSessionId req = RString sessionId /\ sessionId <> []
         /\ (e = jobNotFound \/ e = notReady)
         /\ getJobDownloadData sessionId (req_id req) now st = (inl e, st')
         /\ download req now st = (errorHandler (ServiceError e), st'))
  \/ (exists sessionId zip st',
         resolveSessionId req = RString sessionId /\ sessionId <> []
         /\ getJobDownloadData sessionId (req_id req) now st = (inr zip, st')
         /\ encodeURIComponent (zip_filename zip) = None
         /\ download req now st = (errorHandler malformedURI, st'))
  \/ (exists sessionId zip st' name,
         resolveSessionId req = RString sessionId /\ sessionId <> []
         /\ getJobDownloadData sessionId (req_id req) now st = (inr zip, st')
         /\ encodeURIComponent (zip_filename zip) = Some name
         /\ download req now st
            = ({| res_status := 200;
                  res_headers :=
                    [(js "Content-Disposition",
                      js "attachment; filename=" ++ [34] ++ name ++ [34]);
                     (js "Content-Type", js "application/zip");
                     (js "Content-Length", showZ (zip_size zip))];
                  res_body := BFile (zip_buffer zip) |}, st')).
Proof.
  unfold download. destruct (resolveSessionId req) as [[|c s]| |] eqn:Hs.
  - right. left. split; [by right|done].
  - right. right.
    destruct (getJobDownloadData_answers (c :: s) (req_id req) now st
                (resolved_valid req c s Hs)) as [He|[He|[zip Hz]]];
      destruct (getJobDownloadData (c :: s) (req_id req) now st)
        as [r st'] eqn:Hdj; simpl in *; subst r.
    + left. exists (c :: s), jobNotFound, st'. split_and!; try done. by left.
    + left. exists (c :: s), notReady, st'. split_and!; try done. by right.
    + right. destruct (encodeURIComponent (zip_filename zip)) as [name|] eqn:Hn.
      * right. by exists (c :: s), zip, st', name.
      * left. by exists (c :: s), zip, st'.
  - right. left. split; [by left|done].
  - by left.
Qed.



(** X24: a download that is answered 200, for a request that the body
    parser passed on, sends the bytes of the archive that
    [getJobDownloadData] returns for the session of the request, with its
    size as [Content-Length] and, between double quotes, as
    [Content-Disposition], the file name of that archive escaped by
    [encodeURIComponent]; the escaped name of a file name made of UTF-16
    code units holds printable ASCII characters only, and neither a double
    quote nor a backslash. *)
Theorem download_headers req now st resp st' :
  serveDownload (BodyAccepted req) now st = (resp, st') ->
  res_status resp = 200%Z ->
  exists sessionId zip name,
    resolveSessionId req = RString sessionId
    /\ getJobDownloadData sessionId (req_id req) now st = (inr zip, st')
    /\ encodeURIComponent (zip_filename zip) = Some name
    /\ res_body resp = BFile (zip_buffer zip)
    /\ res_headers resp
       = [(js "Content-Disposition",
           js "attachment; filename=" ++ [34] ++ name ++ [34]);
          (js "Content-Type", js "application/zip");
          (js "Content-Length", showZ (zip_size zip))]
    /\ ((forall c, c ∈ zip_filename zip -> c < 65536) ->
        forall c, c ∈ name -> headerSafe c).
Proof.
  change (serveDownload (BodyAccepted req) now st)
    with (download req now st).
  intros Hd Hs.
  destruct (download_outcome req now st)
    as [[_ Ho]|[[_ Ho]|[(? & e & ? & _ & _ & He & _ & Ho)
       |[(? & ? & ? & _ & _ & _ & _ & Ho)
        |(sessionId & zip & st1 & name & Hr & _ & Hg & Hn & Ho)]]]];
    rewrite Hd in Ho; injection Ho as -> ->.
  - by vm_compute in Hs.
  - by vm_compute in Hs.
  - destruct He as [-> | ->]; by vm_compute in Hs.
  - by vm_compute in Hs.
  - exists sessionId, zip, name. split_and!; try done.
    intros Hunits. by apply (encodeURIComponent_safe (zip_filename zip)).
Qed.

(** X25: creating a job and reading it back, for requests that the body
    parser passed on. After a [POST /api/jobs] that is answered 201, the
    body is a job that carries the new id and, in the state that the POST
    leaves (no other request and no step of the worker in between),
    whatever the clock reads then, a [GET /api/jobs/:id] of the same session
    for that id is answered 200 with the same job, and a [GET /api/jobs] of
    the session lists it last. *)
Theorem post_then_get req req' newId now now' st resp st' :
  reachable parseURL st ->
  newId <> [] ->
  get newId (jobs st) = None ->
  servePostJob parseURL (BodyAccepted req) newId now st = (resp, st') ->
  res_status resp = 201%Z ->
  resolveSessionId req' = resolveSessionId req ->
  req_id req' = newId ->
  exists job,
    res_body resp = BJob job
    /\ pj_id job = newId
    /\ fst (serveGetJobById (BodyAccepted req') now' st')
       = json 200 (BJob job)
    /\ exists l, fst (serveGetJobs (BodyAccepted req') now' st')
                 = json 200 (BJobs (l ++ [job])).
Proof.
  change (servePostJob parseURL (BodyAccepted req) newId now st)
    with (postJob parseURL req newId now st).
  change (serveGetJobById (BodyAccepted req') now' st')
    with (getJobById req' now' st').
  change (serveGetJobs (BodyAccepted req') now' st')
    with (getJobs req' now' st').
  intros Hr Hne Hf Hp Hs Hreq Hid.
  destruct (postJob_outcome req newId now st)
    as [[_ Ho]|[[_ Ho]|[(? & _ & _ & _ & Ho)
       |[(? & ? & ? & _ & _ & _ & _ & _ & Ho)
        |(sessionId & url & job & st1 & Hres & Hv & _ & _ & Hc & Ho)]]]];
    rewrite Hp in Ho; injection Ho as -> <-;
    try (by vm_compute in Hs).
  destruct (createJob_readback parseURL url sessionId (req_resize req) newId
              now st job st' now' Hr Hne Hf Hc) as [Hget [l Hlist]].
  assert (Hr' : reachable parseURL st').
  { eapply reachable_step; [exact Hr|].
    replace st' with (snd (createJob parseURL url sessionId (req_resize req)
                                     newId now st)) by by rewrite Hc.
    by apply step_createJob. }
  exists job. split_and!; [done| | |].
  - unfold getJob in Hget.
    destruct (assertSessionId sessionId) as [e|v]; [done|].
    destruct (get newId (jobs (cleanupExpiredJobs now' st'))) as [j|] eqn:Hg;
      [|done].
    destruct (decide (job_sessionId j = v)); [|done].
    simpl in Hget. injection Hget as <-.
    apply (inv_id _ (cleanup_Inv now' st' (reachable_Inv parseURL st' Hr')))
      in Hg as [Hj _].
    exact Hj.
  - unfold getJobById. rewrite Hreq, Hres, Hid.
    destruct sessionId as [|c s]; [done|].
    destruct (getJob (c :: s) newId now' st') as [r st2]. simpl in Hget.
    by subst r.
  - exists l. unfold getJobs. rewrite Hreq, Hres.
    destruct sessionId as [|c s]; [done|].
    destruct (listJobs (c :: s) now' st') as [r st2]. simpl in Hlist.
    by subst r.
Qed.

End RouteFacts.

Lemma download_headers_witness :
  res_headers (fst (serveDownload (BodyAccepted firstJobRequest) 20
                                  finishedJob))
  = [(js "Content-Disposition",
      js "attachment; filename=" ++ [34] ++ js "untitled_98765.zip" ++ [34]);
     (js "Content-Type", js "application/zip");
     (js "Content-Length", js "2")]
  /\ encodeURIComponent (js "untitled_98765.zip")
     = Some (js "untitled_98765.zip")
  /\ forall c, c ∈ js "untitled_98765.zip" -> headerSafe c.
Proof.
  destruct (download_headers firstJobRequest 20 finishedJob
              (fst (serveDownload (BodyAccepted firstJobRequest) 20
                                  finishedJob))
              (snd (serveDownload (BodyAccepted firstJobRequest) 20
                                  finishedJob)))
    as (sessionId & zip & name & Hs & Hg & Hn & _ & Hh & Hsafe).
  - apply surjective_pairing.
  - by vm_compute.
  - vm_compute in Hs. injection Hs as <-.
    vm_compute in Hg. injection Hg as <-.
    assert (Hname : name = js "untitled_98765.zip").
    { vm_compute in Hn. injection Hn as <-. by vm_compute. }
    subst name. split_and!; [exact Hh|exact Hn|]. apply Hsafe.
    intros c Hc. vm_compute in Hc.
    repeat (apply elem_of_cons in Hc as [->|Hc]; [done|]).
    by apply elem_of_nil in Hc.
Defined.

Lemma post_then_get_witness :
  exists job,
    res_body (fst (servePostJob throwingURL (BodyAccepted submitRequest)
                                (jobName 1) 0 initial))
    = BJob job
    /\ pj_id job = jobName 1
    /\ fst (serveGetJobById (BodyAccepted firstJobRequest) 5 oneJob)
       = json 200 (BJob job)
    /\ exists l,
        fst (serveGetJobs (BodyAccepted firstJobRequest) 5 oneJob)
        = json 200 (BJobs (l ++ [job])).
Proof.
  apply (post_then_get throwingURL submitRequest firstJobRequest (jobName 1)
           0 5 initial
           (fst (servePostJob throwingURL (BodyAccepted submitRequest)
                              (jobName 1) 0 initial))
           oneJob).
  - apply reachable_initial.
  - by vm_compute.
  - reflexivity.
  - by vm_compute.
  - by vm_compute.
  - by vm_compute.
  - reflexivity.
Defined.

End ServerFacts.

(** ** Properties of the download pipeline *)

Module DownloaderFacts.

Import Utils JobQueue Downloader Properties JobQueueFacts UtilsMore
       RegistryFacts.

(** *** Splitting *)

Lemma split_step sep s :
  exists piece pieces,
    split sep s = piece :: pieces
    /\ (forall c, c ∈ piece -> c <> sep)
    /\ ((pieces = [] /\ s = piece)
        \/ exists t, s = piece ++ sep :: t /\ pieces = split sep t).
Proof.
  induction s as [|c s (piece & pieces & Hs & Hfree & Hrest)]; simpl.
  - exists [], []. split_and!; [done|by intros c ?%elem_of_nil|by left].
  - destruct (c =? sep) eqn:Hc.
    + apply N.eqb_eq in Hc as ->. exists [], (split sep s).
      split_and!; [done|by intros c ?%elem_of_nil|].
      right. by exists s.
    + apply N.eqb_neq in Hc. rewrite Hs. exists (c :: piece), pieces.
      split_and!; [done| |].
      * intros c' [->|?]%elem_of_cons; [done|by apply Hfree].
      * destruct Hrest as [[-> ->]|(t & -> & ->)]; [by left|].
        right. by exists t.
Qed.

Lemma split_free sep a b :
  (forall c, c ∈ a -> c <> sep) ->
  split sep (a ++ sep :: b) = a :: split sep b.
Proof.
  induction a as [|c a IH]; intros Hfree; simpl.
  - by rewrite N.eqb_refl.
  - rewrite IH by (intros; by apply Hfree, list_elem_of_further).
    assert (c <> sep) as ->%N.eqb_neq by apply Hfree, list_elem_of_here.
    done.
Qed.

Lemma startsWith_app pat s :
  startsWith pat s = true <-> exists rest, s = pat ++ rest.
Proof.
  revert s. induction pat as [|p pat IH]; intros s; simpl.
  - split; [by exists s|done].
  - destruct s as [|c s]; [split; [done|by intros [? ?]]|].
    rewrite andb_true_iff, N.eqb_eq, IH. split.
    + intros [-> [rest ->]]. by exists rest.
    + intros [rest [= -> ->]]. split; [done|by exists rest].
Qed.

Lemma find_first {A} (P : A -> bool) l x :
  find P l = Some x ->
  exists before after,
    l = before ++ x :: after /\ P x = true
    /\ forall y, y ∈ before -> P y = false.
Proof.
  induction l as [|y l IH]; simpl; [done|].
  destruct (P y) eqn:Hy.
  - intros [= ->]. exists [], l. split_and!; [done|done|].
    by intros ? ?%elem_of_nil.
  - intros (before & after & -> & Hx & Hb)%IH.
    exists (y :: before), after. split_and!; [done|done|].
    intros z [->|?]%elem_of_cons; [done|by apply Hb].
Qed.

Lemma find_None {A} (P : A -> bool) l :
  find P l = None <-> forall x, x ∈ l -> P x = false.
Proof.
  induction l as [|y l IH]; simpl.
  - split; [by intros _ ? ?%elem_of_nil|done].
  - destruct (P y) eqn:Hy.
    + split; [done|]. intros H. rewrite (H y) in Hy; [done|].
      apply list_elem_of_here.
    + rewrite IH. split.
      * intros H x [->|?]%elem_of_cons; [done|by apply H].
      * intros H x Hx. by apply H, list_elem_of_further.
Qed.

(** A prefix without the separator is looked for in the first piece. *)
Lemma startsWith_piece sep pat s :
  (forall c, c ∈ pat -> c <> sep) ->
  startsWith pat (hd [] (split sep s)) = startsWith pat s.
Proof.
  revert s. induction pat as [|p pat IH]; intros s Hfree; [done|].
  assert (Hp : p <> sep) by apply Hfree, list_elem_of_here.
  destruct s as [|c s]; [done|]. cbn [split].
  destruct (c =? sep) eqn:Hc.
  - apply N.eqb_eq in Hc as ->. cbn [hd startsWith].
    by apply N.eqb_neq in Hp as ->.
  - specialize (IH s). destruct (split_step sep s) as (piece & pieces & Hs & _).
    rewrite Hs in *. cbn [hd startsWith] in *.
    rewrite IH; [done|]. intros; by apply Hfree, list_elem_of_further.
Qed.

(** X26: [initializeSession] fails on the cookies of an [ok] response
    exactly when none of them starts with [ci_c=]. When it succeeds, the
    token it returns is read from a cookie that starts with [ci_c=]: it is
    what follows [ci_c=] up to the first equal sign or semicolon, so that a
    value that holds an equal sign is cut there. *)
Theorem initializeSession_token rawSetCookies :
  (forall session,
      initializeSession (Ok rawSetCookies) = inr session ->
      exists raw token rest,
        raw ∈ rawSetCookies
        /\ raw = js "ci_c=" ++ token ++ rest
        /\ csrfToken session = Some token
        /\ (forall c, c ∈ token -> c <> 61 /\ c <> 59)
        /\ match rest with
           | [] => True
           | c :: _ => c = 61 \/ c = 59
           end)
  /\ ((exists failure, initializeSession (Ok rawSetCookies) = inl failure)
      <-> forall raw, raw ∈ rawSetCookies ->
                      startsWith (js "ci_c=") raw = false).
Proof.
  assert (Hpat : forall c, c ∈ js "ci_c=" -> c <> 59).
  { intros c Hc. vm_compute in Hc.
    repeat (apply elem_of_cons in Hc as [->|Hc]; [done|]).
    by apply elem_of_nil in Hc. }
  split; [intros session|].
  2: {
    unfold initializeSession.
    destruct (find _ _) as [csrfCookie|] eqn:Hfind.
    - split; [by intros [? ?]|]. intros Hnone.
      apply find_first in Hfind as (before & after & Hmap & Hstart & _).
      assert (Hin : csrfCookie
                    ∈ map (fun cookie => hd [] (split 59 cookie))
                          (List.filter nonEmpty rawSetCookies))
        by (rewrite Hmap; apply elem_of_app; right; apply list_elem_of_here).
      apply list_elem_of_fmap in Hin as (raw & -> & Hraw).
      apply list_elem_of_In, filter_In in Hraw as [Hraw%list_elem_of_In _].
      rewrite startsWith_piece in Hstart by done.
      by rewrite (Hnone raw Hraw) in Hstart.
    - split; [|by eexists]. intros _ raw Hraw.
      destruct raw as [|c raw]; [done|].
      rewrite <- (startsWith_piece 59) by done.
      apply (proj1 (find_None _ _) Hfind
                   (hd [] (split 59 (c :: raw)))).
      apply list_elem_of_fmap. exists (c :: raw). split; [done|].
      apply list_elem_of_In, filter_In. split; [by apply list_elem_of_In|done].
  }
  unfold initializeSession.
  destruct (find _ _) as [csrfCookie|] eqn:Hfind; [|done].
  intros [= <-]. cbn [csrfToken].
  apply find_first in Hfind as (before & after & Hmap & Hstart & _).
  assert (Hin : csrfCookie
                ∈ map (fun cookie => hd [] (split 59 cookie))
                      (List.filter nonEmpty rawSetCookies))
    by (rewrite Hmap; apply elem_of_app; right; apply list_elem_of_here).
  apply list_elem_of_fmap in Hin as (raw & -> & Hraw).
  apply list_elem_of_In, filter_In in Hraw as [Hraw%list_elem_of_In _].
  destruct (split_step 59 raw) as (piece & pieces & Hs & Hfree & Hrest).
  rewrite Hs in Hstart |- *. cbn [hd] in Hstart |- *. clear Hmap.
  apply startsWith_app in Hstart as [value ->].
  assert (Hsplit : split 61 (js "ci_c=" ++ value)
                   = js "ci_c" :: split 61 value).
  { change (js "ci_c=" ++ value) with (js "ci_c" ++ 61 :: value).
    apply split_free. intros c Hc. vm_compute in Hc.
    repeat (apply elem_of_cons in Hc as [->|Hc]; [done|]).
    by apply elem_of_nil in Hc. }
  rewrite Hsplit. cbn [lookup list_lookup].
  destruct (split_step 61 value) as (token & more & Hv & Hfree' & Hrest').
  rewrite Hv. cbn [lookup list_lookup].
  assert (Hvalue : forall c, c ∈ value -> c <> 59).
  { intros c Hc. apply Hfree. apply elem_of_app. by right. }
  exists raw, token.
  destruct Hrest' as [[-> ->]|(t & -> & ->)].
  - destruct Hrest as [[-> ->]|(t & -> & ->)].
    + exists []. rewrite !app_nil_r. split_and!; try done.
      intros c Hc. split; [by apply Hfree'|by apply Hvalue].
    + exists (59 :: t). split; [exact Hraw|].
      rewrite <- !app_assoc. split_and!; try done.
      * intros c Hc. split; [by apply Hfree'|by apply Hvalue].
      * by right.
  - assert (Htoken : forall c, c ∈ token -> c <> 61 /\ c <> 59).
    { intros c Hc. split; [by apply Hfree'|].
      apply Hvalue. apply elem_of_app. by left. }
    destruct Hrest as [[-> ->]|(u & -> & ->)].
    + exists (61 :: t). split_and!; try done. by left.
    + exists (61 :: t ++ 59 :: u). split; [exact Hraw|].
      rewrite <- !app_assoc. split_and!; try done. by left.
Qed.


(** *** The reports of a run *)

Local Open Scope Q_scope.

Lemma inject_pos n : (0 < n)%Z -> 0 < inject_Z n.
Proof. intros Hn. unfold Qlt, inject_Z. simpl. lia. Qed.


Lemma ratio_pos a n : (0 < n)%Z -> (0 < a)%Z -> 0 < inject_Z a / inject_Z n.
Proof.
  intros Hn Ha. apply Qlt_shift_div_l; [by apply inject_pos|].
  rewrite Qmult_0_l. by apply inject_pos.
Qed.

Lemma ratio_le_1 a n : (0 < n)%Z -> (a <= n)%Z -> inject_Z a / inject_Z n <= 1.
Proof.
  intros Hn Ha. apply Qle_shift_div_r; [by apply inject_pos|].
  rewrite Qmult_1_l. unfold Qle, inject_Z. simpl. lia.
Qed.

Lemma imageReport_bounds index count resized :
  (index < count)%nat ->
  15 # 100 < p_progress (imageReport index count resized)
  /\ p_progress (imageReport index count resized) <= 90 # 100.
Proof.
  intros Hlt. cbn [imageReport p_progress].
  pose proof (ratio_pos (Z.of_nat (S index)) (Z.of_nat count)
                        ltac:(lia) ltac:(lia)).
  pose proof (ratio_le_1 (Z.of_nat (S index)) (Z.of_nat count)
                         ltac:(lia) ltac:(lia)).
  split; lra.
Qed.




Lemma imageReports_bounds count index flags p :
  (index + length flags <= count)%nat ->
  p ∈ imageReportsFrom count index flags ->
  15 # 100 < p_progress p /\ p_progress p <= 90 # 100.
Proof.
  revert index. induction flags as [|b flags IH]; intros index Hle;
    cbn [imageReportsFrom].
  - by intros ?%elem_of_nil.
  - simpl in Hle. intros [->|Hp]%elem_of_cons.
    + apply imageReport_bounds. lia.
    + apply (IH (S index)); [lia|done].
Qed.

Lemma orElse_truthy a b : truthy b = true -> truthy (orElse a b) = true.
Proof. unfold orElse. by destruct (truthy a) eqn:Ha. Qed.

Section PipelineFacts.

Variable toLowerCase : jsstring -> jsstring.

Lemma fetchItem_complete w session resizeOption index raw item :
  fetchItem toLowerCase w session resizeOption index raw = inr item ->
  itemComplete item
  /\ item_idx item = raw_idx raw /\ item_title item = raw_title raw
  /\ item_path item = raw_path raw.
Proof.
  unfold fetchItem.
  destruct (fetchImageBuffer _) as [failure|[buffer mimeType]] eqn:Hf;
    [done|].
  intros [= <-]. split; [|done].
  set (processed := applyResize _ _ _ _ _ _).
  assert (Hm : truthy mimeType = true).
  { unfold fetchImageBuffer in Hf.
    destruct (imageOf _ _ _ _) as [| |[b ct]]; try done.
    injection Hf as _ <-. by apply orElse_truthy. }
  assert (Hmime : truthy (orElse (processed_mimeType processed) mimeType)
                  = true) by by apply orElse_truthy.
  assert (Hext : truthy (orElse (orElse (processed_ext processed)
                                        (raw_ext raw))
                                (Some (js "png"))) = true)
    by by apply orElse_truthy.
  exists (processed_buffer processed).
  unfold dataUrl.
  cbn [item_buffer item_size item_mimeType item_sort item_ext].
  split_and!; try done.
  - destruct (raw_sort raw) as [sort|]; [|lia].
    destruct (decide (sort = 0%Z)); [lia|done].
  - by destruct (orElse (orElse _ _) _) as [[|]|].
  - by rewrite Hmime.
Qed.

Lemma fetchItems_shape w session resizeOption count index detail :
  exists flags,
    fst (fetchItems toLowerCase w session resizeOption count index detail)
    = imageReportsFrom count index flags
    /\ (length flags <= length detail)%nat
    /\ match snd (fetchItems toLowerCase w session resizeOption count index
                             detail) with
       | inr items =>
         length flags = length detail
         /\ flags = map item_resized items
         /\ Forall itemComplete items
         /\ map item_idx items = map raw_idx detail
         /\ map item_title items = map raw_title detail
       | inl _ => True
       end.
Proof.
  revert index. induction detail as [|raw detail IH]; intros index;
    cbn [fetchItems].
  - by exists [].
  - destruct (fetchItem toLowerCase w session resizeOption index raw)
      as [failure|item] eqn:Hitem.
    + exists []. split_and!; [done|simpl; lia|done].
    + destruct (IH (S index)) as (flags & Hr & Hlen & Hout).
      destruct (fetchItems toLowerCase w session resizeOption count (S index)
                           detail) as [reports outcome].
      cbn [fst snd] in *. exists (item_resized item :: flags).
      split_and!; [by rewrite Hr|simpl; lia|].
      destruct outcome as [failure|items]; [done|].
      destruct Hout as (Hl & Hflags & Hall & Hidx & Htitle).
      destruct (fetchItem_complete _ _ _ _ _ _ Hitem) as (Hc & Hi & Ht & _).
      split_and!.
      * simpl. lia.
      * by rewrite Hflags.
      * by constructor.
      * simpl. by rewrite Hi, Hidx.
      * simpl. by rewrite Ht, Htitle.
Qed.

(** The reports of a run and its outcome, case by case. *)
Lemma download_cases w packageId options :
  let run := downloadDcConPackage toLowerCase w packageId options in
  (fst run = [] /\ exists failure, snd run = inl failure)
  \/ (fst run = [sessionReport] /\ exists failure, snd run = inl failure)
  \/ (exists session info detail flags,
         initializeSession (home w) = inr session
         /\ detailOf w session packageId = DetailOk info detail
         /\ (length flags <= length detail)%nat
         /\ fst run
            = sessionReport :: detailReport
                :: imageReportsFrom (length detail) 0 flags
         /\ exists failure, snd run = inl failure)
  \/ (exists session info detail items zipBuffer,
         initializeSession (home w) = inr session
         /\ detailOf w session packageId = DetailOk info detail
         /\ length items = length detail
         /\ Forall itemComplete items
         /\ map item_idx items = map raw_idx detail
         /\ map item_title items = map raw_title detail
         /\ createZipBuffer w items = inr zipBuffer
         /\ fst run
            = sessionReport :: detailReport
                :: imageReportsFrom (length detail) 0
                                    (map item_resized items)
                ++ [archiveReport; completeReport]
         /\ snd run
            = inr {| dl_info := info;
                     dl_items := items;
                     dl_previews := map previewOf (take PREVIEW_COUNT items);
                     dl_options :=
                       {| resize :=
                            match resize options with
                            | Some size =>
                              if (0 <? size)%Z then Some size else None
                            | None => None
                            end |};
                     dl_zip :=
                       {| zip_buffer := zipBuffer;
                          zip_filename :=
                            buildArchiveFilename
                              (match info with
                               | Some i => info_title i
                               | None => None
                               end) (Some packageId);
                          zip_size := Z.of_nat (length zipBuffer) |} |}).
Proof.
  cbv zeta. unfold downloadDcConPackage.
  destruct (initializeSession (home w)) as [failure|session] eqn:Hs.
  { left. split; [done|by eexists]. }
  destruct (detailOf w session packageId) as [m| | |info detail] eqn:Hd;
    cbn [fetchPackageDetail];
    try (right; left; split; [done|by eexists]).
  right. right.
  set (resizeOption := match resize options with
                       | Some size => if (0 <? size)%Z then Some size else None
                       | None => None
                       end).
  destruct (fetchItems_shape w session resizeOption (length detail) 0%nat
                             detail) as (flags & Hr & Hlen & Hout).
  destruct (fetchItems toLowerCase w session resizeOption (length detail) 0
                       detail) as [reports [failure|items]];
    cbn [fst snd] in *.
  { left. exists session, info, detail, flags.
    split_and!; try done; [by rewrite Hr|by eexists]. }
  destruct Hout as (Hl & -> & Hall & Hidx & Htitle).
  destruct (createZipBuffer w items) as [failure|zipBuffer] eqn:Hz;
    cbn [fst snd].
  - left. exists session, info, detail, (map item_resized items).
    split_and!; try done; [by rewrite Hr|by eexists].
  - right. exists session, info, detail, items, zipBuffer.
    rewrite length_map in Hl. split_and!; try done. by rewrite Hr.
Qed.

Lemma reports_bounds w packageId options p :
  p ∈ fst (downloadDcConPackage toLowerCase w packageId options) ->
  5 # 100 <= p_progress p /\ p_progress p <= 1.
Proof.
  assert (Himg : forall count flags,
             (length flags <= count)%nat ->
             p ∈ imageReportsFrom count 0 flags ->
             5 # 100 <= p_progress p /\ p_progress p <= 1).
  { intros count flags Hlen Hp.
    destruct (imageReports_bounds count 0 flags p); [simpl; lia|done|].
    split; lra. }
  destruct (download_cases w packageId options)
    as [[-> _]|[[-> _]|[(? & ? & detail & flags & _ & _ & Hlen & -> & _)
       |(? & ? & detail & items & ? & _ & _ & Hlen & _ & _ & _ & _ & -> & _)]]].
  - by intros ?%elem_of_nil.
  - intros ->%list_elem_of_singleton. by split.
  - intros [->|[->|Hp]%elem_of_cons]%elem_of_cons; [by split|by split|].
    by apply (Himg (length detail) flags).
  - intros [->|[->|[Hp|Hp]%elem_of_app]%elem_of_cons]%elem_of_cons;
      [by split|by split| |].
    + apply (Himg (length detail) (map item_resized items)); [|done].
      rewrite length_map. lia.
    + apply elem_of_cons in Hp as [->|Hp]; [by split|].
      apply list_elem_of_singleton in Hp as ->. by split.
Qed.



Lemma applyResize_thrown buffer ext mimeType size :
  applyResize toLowerCase None buffer ext mimeType size
  = applyResize toLowerCase None buffer ext mimeType None.
Proof.
  unfold applyResize. destruct size as [[| |]|]; try done;
    by destruct (canResize _ _ _).
Qed.

(** X29: an image library that throws does not fail the download. When it
    throws on every image, the run makes the reports of the run without a
    resize option and fails where that one fails, with the same error; when
    that one succeeds it succeeds, with the same information, items,
    previews and archive, so that [runJob] takes the same of both, and the
    two results differ by the resize option they carry only: the size that
    was asked for, if it is positive. *)
Theorem resize_failure_harmless w packageId options :
  (forall index buffer size, sharpOf w index buffer size = None) ->
  let run := downloadDcConPackage toLowerCase w packageId options in
  let plain :=
    downloadDcConPackage toLowerCase w packageId {| resize := None |} in
  run
  = (fst plain,
     match snd plain with
     | inl failure => inl failure
     | inr result =>
       inr {| dl_info := dl_info result;
              dl_items := dl_items result;
              dl_previews := dl_previews result;
              dl_options :=
                {| resize :=
                     match resize options with
                     | Some size => if (0 <? size)%Z then Some size else None
                     | None => None
                     end |};
              dl_zip := dl_zip result |}
     end)
  /\ fst run = fst plain
  /\ sum_map id consumed (snd run) = sum_map id consumed (snd plain)
  /\ (forall result, snd plain = inr result ->
                     dl_options result = {| resize := None |}).
Proof.
  intros Hsharp.
  assert (Hitem : forall session resizeOption index raw,
             fetchItem toLowerCase w session resizeOption index raw
             = fetchItem toLowerCase w session None index raw).
  { intros. unfold fetchItem.
    destruct (fetchImageBuffer _) as [|[buffer mimeType]]; [done|].
    destruct resizeOption as [size|]; [|done].
    by rewrite Hsharp, applyResize_thrown. }
  assert (Hitems : forall session resizeOption count index detail,
             fetchItems toLowerCase w session resizeOption count index detail
             = fetchItems toLowerCase w session None count index detail).
  { intros session resizeOption count index detail. revert index.
    induction detail as [|raw detail IH]; intros index; [done|].
    cbn [fetchItems]. by rewrite Hitem, IH. }
  cbv zeta. unfold downloadDcConPackage.
  destruct (initializeSession (home w)) as [|session]; [done|].
  destruct (fetchPackageDetail _) as [|[info detail]]; [done|].
  cbn [resize]. rewrite Hitems.
  destruct (fetchItems toLowerCase w session None (length detail) 0 detail)
    as [reports [failure|items]]; [done|].
  destruct (createZipBuffer w items) as [failure|zipBuffer]; [done|].
  cbn [fst snd sum_map consumed dl_info dl_items dl_previews dl_options
       dl_zip].
  split_and!; try reflexivity. by intros result [= <-].
Qed.

(** *** A run of the worker *)

Lemma reported_fields clock tick reports job :
  let job' := reported clock tick reports job in
  job_id job' = job_id job
  /\ job_status job' = job_status job
  /\ job_zip job' = job_zip job
  /\ job_error job' = job_error job
  /\ job_items job' = job_items job
  /\ job_progress job'
     = match last reports with
       | Some p => Qmin 1 (Qmax 0 (p_progress p))
       | None => job_progress job
       end
  /\ (reports <> [] ->
      job_updatedAt job' = clock (tick + length reports - 1)%nat).
Proof.
  revert tick job. induction reports as [|p reports IH]; intros tick job;
    [done|].
  cbn [reported]. cbv zeta.
  destruct (IH (S tick) (onProgress (clock tick) p job))
    as (H1 & H2 & H3 & H4 & H5 & H6 & H7).
  split_and!; try done.
  - rewrite H6. destruct reports as [|p' reports]; [reflexivity|].
    change (last (p :: p' :: reports)) with (last (p' :: reports)).
    destruct (last (p' :: reports)) eqn:Hlast; [done|].
    by apply last_None in Hlast.
  - intros _. destruct reports as [|p' reports].
    + cbn [reported onProgress job_updatedAt length]. f_equal. lia.
    + rewrite H7 by done. f_equal. cbn [length]. lia.
Qed.

Variable parseURL : jsstring -> option URL.

Lemma report_spec jobId clock reports tick st job :
  reachable parseURL st ->
  processingJob st = Some jobId ->
  get jobId (jobs st) = Some job ->
  let st' := report jobId clock tick reports st in
  reachable parseURL st'
  /\ processingJob st' = Some jobId
  /\ queue st' = queue st
  /\ (forall id, id <> jobId -> get id (jobs st') = get id (jobs st))
  /\ get jobId (jobs st') = Some (reported clock tick reports job).
Proof.
  revert tick st job. induction reports as [|p reports IH];
    intros tick st job Hr Hm Hg; [done|].
  cbn [report reported]. cbv zeta.
  set (st1 := withJobs (mutate (onProgress (clock tick) p) jobId)
                       (Some jobId) st).
  assert (Hg1 : get jobId (jobs st1) = Some (onProgress (clock tick) p job)).
  { unfold st1. cbn [withJobs jobs]. rewrite get_mutate, Hg.
    by rewrite decide_True. }
  destruct (IH (S tick) st1 (onProgress (clock tick) p job))
    as (H1 & H2 & H3 & H4 & H5); [|done|done|].
  { eapply reachable_step; [exact Hr|]. by apply step_progress. }
  split_and!; try done.
  intros id Hid. rewrite H4 by done. unfold st1. cbn [withJobs jobs].
  rewrite get_mutate. by rewrite decide_False.
Qed.

(** X30: a run of the worker on the job it has started, when no call comes
    in between. The run ends in a reachable state with an idle worker; the
    queue and the other jobs are as before. If the pipeline succeeds the
    job is completed, with progress 1, the archive, the items and the
    previews of the result, and every item has its bytes and a data URL;
    if it fails, the job is failed, its error and its message are the
    message of what was thrown, or the generic one, and its progress is
    that of the last report. *)
Theorem runJob_settles w job clock st :
  reachable parseURL st ->
  processingJob st = Some (job_id job) ->
  get (job_id job) (jobs st) = Some job ->
  let run := downloadDcConPackage toLowerCase w (job_packageId job)
                                  (job_options job) in
  let st' := runJob toLowerCase w job clock st in
  reachable parseURL st'
  /\ processingJob st' = None
  /\ queue st' = queue st
  /\ (forall id, id <> job_id job -> get id (jobs st') = get id (jobs st))
  /\ exists job',
      get (job_id job) (jobs st') = Some job'
      /\ job_updatedAt job' = clock (length (fst run))
      /\ match snd run with
         | inr result =>
           job_status job' = Completed
           /\ job_progress job' = 1
           /\ job_zip job' = Some (dl_zip result)
           /\ job_items job' = dl_items result
           /\ job_previews job' = dl_previews result
           /\ Forall itemComplete (job_items job')
         | inl failure =>
           job_status job' = Failed
           /\ job_error job' = Some (default unknownError failure)
           /\ job_message job' = default unknownError failure
           /\ job_zip job' = job_zip job
           /\ job_progress job'
              == match last (fst run) with
                 | Some p => p_progress p
                 | None => job_progress job
                 end
         end.
Proof.
  intros Hr Hm Hg. cbv zeta. unfold runJob.
  pose proof (download_cases w (job_packageId job) (job_options job))
    as Hcases.
  pose proof (reports_bounds w (job_packageId job) (job_options job))
    as Hbounds.
  cbv zeta in Hcases.
  destruct (downloadDcConPackage toLowerCase w (job_packageId job)
                                 (job_options job)) as [reports outcome].
  cbn [fst snd] in *.
  destruct (report_spec (job_id job) clock reports 0 st job Hr Hm Hg)
    as (Hr1 & Hm1 & Hq1 & Ho1 & Hg1).
  destruct (reported_fields clock 0 reports job)
    as (F1 & F2 & F3 & F4 & F5 & F6 & _).
  set (st1 := report (job_id job) clock 0 reports st) in *.
  set (job1 := reported clock 0 reports job) in *.
  destruct outcome as [failure|result].
  - split_and!.
    + eapply reachable_step; [exact Hr1|]. by apply step_failed.
    + done.
    + done.
    + intros id Hid. cbn [withJobs jobs]. rewrite get_mutate.
      rewrite decide_False by done. by apply Ho1.
    + exists (failJob (clock (length reports)) failure job1).
      split_and!; try done.
      * cbn [withJobs jobs]. rewrite get_mutate, Hg1.
        by rewrite decide_True.
      * cbn [failJob job_progress]. rewrite F6.
        destruct (last reports) as [p|] eqn:Hlast; [|done].
        destruct (Hbounds p) as [H5 H1].
        { apply last_Some in Hlast as [l' ->]. apply elem_of_app. right.
          apply list_elem_of_here. }
        rewrite Q.max_r by lra. by apply Q.min_r.
  - split_and!.
    + eapply reachable_step; [exact Hr1|]. by apply step_completed.
    + done.
    + done.
    + intros id Hid. cbn [withJobs jobs]. rewrite get_mutate.
      rewrite decide_False by done. by apply Ho1.
    + exists (completeJob (clock (length reports)) (consumed result) job1).
      split_and!; try done.
      * cbn [withJobs jobs]. rewrite get_mutate, Hg1.
        by rewrite decide_True.
      * cbn [completeJob job_items consumed res_items].
        destruct Hcases
          as [[_ [? H]]|[[_ [? H]]|[(? & ? & ? & ? & _ & _ & _ & _ & [? H])
             |(? & ? & ? & items & ? & _ & _ & _ & Hall & _ & _ & _ & _ & H)]]];
          try discriminate H.
        injection H as ->. exact Hall.
Qed.

End PipelineFacts.

Lemma initializeSession_token_witness :
  exists session,
    initializeSession (home sampleWorld) = inr session
    /\ csrfToken session = Some (js "tok")
    /\ cookieHeader session = js "PHPSESSID=abc; ci_c=tok=en".
Proof.
  destruct (initializeSession_token
              [js "PHPSESSID=abc; path=/"; js "ci_c=tok=en; path=/"])
    as [Htoken _].
  eexists. split; [reflexivity|].
  destruct (Htoken _ eq_refl) as (raw & token & rest & _ & _ & Ht & _).
  split; [|by vm_compute]. by vm_compute.
Defined.


Lemma resize_failure_harmless_witness :
  exists result result',
    snd (downloadDcConPackage lowerAscii sampleWorld (js "98765")
                              {| resize := Some 100%Z |}) = inr result
    /\ snd (downloadDcConPackage lowerAscii sampleWorld (js "98765")
                                 {| resize := None |}) = inr result'
    /\ consumed result = consumed result'
    /\ dl_options result = {| resize := Some 100%Z |}
    /\ dl_options result' = {| resize := None |}
    /\ fst (downloadDcConPackage lowerAscii sampleWorld (js "98765")
                                 {| resize := Some 100%Z |})
       = fst (downloadDcConPackage lowerAscii sampleWorld (js "98765")
                                   {| resize := None |}).
Proof.
  destruct (resize_failure_harmless lowerAscii sampleWorld (js "98765")
              {| resize := Some 100%Z |}) as (Hrun & Hfst & _ & Hplain).
  - reflexivity.
  - destruct (snd (downloadDcConPackage lowerAscii sampleWorld (js "98765")
                                        {| resize := None |}))
      as [failure|result'] eqn:Hp; [by vm_compute in Hp|].
    rewrite Hrun. cbn [fst snd].
    eexists _, result'. split_and!; [reflexivity|reflexivity| | | |].
    + reflexivity.
    + reflexivity.
    + by apply Hplain.
    + exact Hfst.
Defined.

Lemma runJob_settles_witness :
  reachable throwingURL (runJob lowerAscii sampleWorld startedJob sampleClock
                                oneJob)
  /\ processingJob (runJob lowerAscii sampleWorld startedJob sampleClock
                           oneJob) = None
  /\ exists job',
      get (jobName 1)
          (jobs (runJob lowerAscii sampleWorld startedJob sampleClock oneJob))
      = Some job'
      /\ job_status job' = Completed
      /\ job_updatedAt job' = 7%Z.
Proof.
  destruct (runJob_settles lowerAscii throwingURL sampleWorld startedJob
              sampleClock oneJob oneJob_reachable)
    as (Hr & Hm & _ & _ & job' & Hg & Ht & Hout).
  - by vm_compute.
  - by vm_compute.
  - split_and!; [exact Hr|exact Hm|].
    exists job'. split_and!; [exact Hg| |].
    + vm_compute in Hout. by destruct Hout as [? _].
    + rewrite Ht. by vm_compute.
Defined.


End DownloaderFacts.
